(** * Data-parallel trainer of gopherConAU

    A shallow embedding of
    [basic-distributed-ml-pipeline/wine-quality-prediction-master-worker.go]:
    the shared [Model], [Model.predict], [Worker.trainWorker], the
    partitioning and worker start-up of [main], and around them [loadData]
    (from the records of the file on), [normalize], the split of [main] and
    [evaluate].

    - [float64] arithmetic is kept abstract (class [Float64]); every theorem
      holds for any interpretation of the operations.  Every product, sum and
      quotient is an operation of its own (no fused multiply-add).  The IEEE
      binary64 instance [Binary64] (primitive floats) runs the model on
      concrete inputs.
    - [int] and [int64] are modelled as [Z] (64-bit platform).  The counters
      [Updates] and [GradientSum] wrap around ([wrap64]).  A slice index is
      at most the sum of two slice lengths, far below 2^63 for slices that
      fit in memory, and is not wrapped.
    - A goroutine is a tree of atomic accesses to the shared [Model]
      ([Prog]): each read or write of a weight, of the bias or of the
      counter, each lock and unlock is one access.  Goroutines run
      interleaved, one access at a time ([step], [exec]); [interp] runs one
      goroutine alone.  Logging and [time.Sleep] touch no modelled state and
      are left out.
    - The file system, the CSV reader, [strconv.ParseFloat] and
      [rand.Shuffle] are the environment: [loadData] takes the records read
      and a parsing function, the split takes the shuffled data (any
      permutation) and the split index. *)

From Stdlib Require Import ZArith List Lia ZifyBool Bool Floats Uint63.
From Stdlib Require Import FunctionalExtensionality.
From Stdlib Require Strings.String.
From stdpp Require Import base tactics option list gmap.

Local Open Scope Z_scope.

(** Go's [len] *)
Abbreviation len l := (Z.of_nat (length l)).

(** ** int64 wrap-around *)

Definition wrap64 (z : Z) : Z := (z + 2 ^ 63) mod 2 ^ 64 - 2 ^ 63.

Definition max_int64 : Z := 2 ^ 63 - 1.

(** ** Runtime panics *)

Inductive panic : Type :=
| IndexOutOfRange
| SliceBounds
| DivideByZero
| MakeLen
| UnlockOfUnlocked.

Inductive Res (A : Type) : Type :=
| Ok (a : A)
| Panicked (e : panic).
Arguments Ok {A} a.
Arguments Panicked {A} e.

#[global] Instance Res_ret : MRet Res := fun A a => Ok a.
#[global] Instance Res_bind : MBind Res := fun A B f r =>
  match r with
  | Ok a => f a
  | Panicked e => Panicked e
  end.

(** [s[i]] *)
Definition index {A} (s : list A) (i : Z) : Res A :=
  if 0 <=? i then
    match s !! Z.to_nat i with
    | Some x => Ok x
    | None => Panicked IndexOutOfRange
    end
  else Panicked IndexOutOfRange.

(** [s[lo:hi]] (the capacity of every slice sliced here is its length) *)
Definition slice {A} (s : list A) (lo hi : Z) : Res (list A) :=
  if (0 <=? lo) && (lo <=? hi) && (hi <=? len s)
  then Ok (take (Z.to_nat (hi - lo)) (drop (Z.to_nat lo) s))
  else Panicked SliceBounds.

(** [for i := i0; i < i0 + n; i++ { s = body i s }] where the body may panic *)
Fixpoint loopUpto {S} (n : nat) (i0 : Z) (body : Z -> S -> Res S) (s : S) : Res S :=
  match n with
  | O => Ok s
  | S n' => s' ← body i0 s; loopUpto n' (i0 + 1) body s'
  end.

(** ** float64 *)

Class Float64 (F : Type) : Type := {
  f0 : F;                  (* the constant 0.0 *)
  fadd : F -> F -> F;
  fsub : F -> F -> F;
  fmul : F -> F -> F;
  fdiv : F -> F -> F;
  pow2 : F -> F;           (* math.Pow(x, 2) *)
  of_int : Z -> F;         (* the conversion float64(n) *)
}.

(** [math.Pow(x, 2)] as Go computes it for an exponent of 2: [Frexp] splits
    [x] into a mantissa and an exponent, the mantissa is squared, and
    [Ldexp] scales the square, rounding a second time when the result is
    subnormal.  It is [x * x] wherever the square is a normal number, an
    infinity or a NaN, and on 0. *)
Definition pow2_binary64 (x : float) : float :=
  let (x1, xe) := Z.frexp x in Z.ldexp (PrimFloat.mul x1 x1) (2 * xe).

(** IEEE 754 binary64. *)
#[global] Instance Binary64 : Float64 float := {
  f0 := 0%float;
  fadd := PrimFloat.add;
  fsub := PrimFloat.sub;
  fmul := PrimFloat.mul;
  fdiv := PrimFloat.div;
  pow2 := pow2_binary64;
  of_int := fun n => PrimFloat.of_uint63 (Uint63.of_Z n);
}.

(** The operations of [normalize] besides those of [Float64]. *)
Class Float64Math (F : Type) : Type := {
  fsqrt : F -> F;          (* math.Sqrt *)
  fne0 : F -> bool;        (* x != 0 *)
}.

#[global] Instance Binary64Math : Float64Math float := {
  fsqrt := PrimFloat.sqrt;
  fne0 := fun x => negb (PrimFloat.eqb x 0%float);
}.

Section Trainer.

Context {F : Type} {FO : Float64 F}.

(** ** Data model *)

Record DataPoint : Type := mkDataPoint {
  Features : list F;
  Label : F;
}.

(** [StartTime] is never read and is left out. *)
Record Model : Type := mkModel {
  Weights : list F;
  Bias : F;
  mu : bool;              (* true when locked *)
  Updates : Z;
  Metrics : gmap Z F;
  MetricsMu : bool;
}.

(** The [Model] field of a worker is the one shared model. *)
Record Worker : Type := mkWorker {
  ID : Z;
  Data : list DataPoint;
  BatchSize : Z;
  GradientSum : Z;
}.

(** ** Goroutines as trees of atomic accesses *)

Inductive RdF : Type :=
| RdBias
| RdWeight (j : Z).

Inductive RdZ : Type :=
| RdLen                        (* len(m.Weights) *)
| RdUpdates.

Inductive Wr : Type :=
| WrWeight (j : Z) (v : F)
| WrBias (v : F)
| WrUpdates (u : Z)
| LockMu
| UnlockMu
| LockMetrics
| UnlockMetrics
| WrMetric (e : Z) (v : F).

Inductive Prog (A : Type) : Type :=
| Ret (a : A)
| Fail (e : panic)
| Spin                         (* a loop that never exits *)
| ReadF (r : RdF) (k : F -> Prog A)
| ReadZ (r : RdZ) (k : Z -> Prog A)
| Do (w : Wr) (k : Prog A).
Arguments Ret {A} a.
Arguments Fail {A} e.
Arguments Spin {A}.
Arguments ReadF {A} r k.
Arguments ReadZ {A} r k.
Arguments Do {A} w k.

Fixpoint bind {A B} (p : Prog A) (f : A -> Prog B) : Prog B :=
  match p with
  | Ret a => f a
  | Fail e => Fail e
  | Spin => Spin
  | ReadF r k => ReadF r (fun v => bind (k v) f)
  | ReadZ r k => ReadZ r (fun v => bind (k v) f)
  | Do w k => Do w (bind k f)
  end.

#[global] Instance Prog_ret : MRet Prog := fun A a => Ret a.
#[global] Instance Prog_bind : MBind Prog := fun A B f p => bind p f.

Definition readF (r : RdF) : Prog F := ReadF r Ret.
Definition readZ (r : RdZ) : Prog Z := ReadZ r Ret.
Definition act (w : Wr) : Prog unit := Do w (Ret tt).

Definition lift {A} (r : Res A) : Prog A :=
  match r with
  | Ok a => Ret a
  | Panicked e => Fail e
  end.

(** [for _, x := range xs { s = body x s }] over a local slice *)
Fixpoint forEach {X S} (xs : list X) (body : X -> S -> Prog S) (s : S) : Prog S :=
  match xs with
  | [] => Ret s
  | x :: xs' => s' ← body x s; forEach xs' body s'
  end.

(** [for j, x := range xs { s = body j x s }], [j] counting from [j0] *)
Fixpoint forRange {X S} (xs : list X) (j0 : Z) (body : Z -> X -> S -> Prog S) (s : S)
  : Prog S :=
  match xs with
  | [] => Ret s
  | x :: xs' => s' ← body j0 x s; forRange xs' (j0 + 1) body s'
  end.

(** [for j := j0; j < j0 + n; j++ { s = body j s }] *)
Fixpoint forUpto {S} (n : nat) (j0 : Z) (body : Z -> S -> Prog S) (s : S) : Prog S :=
  match n with
  | O => Ret s
  | S n' => s' ← body j0 s; forUpto n' (j0 + 1) body s'
  end.

(** ** The program *)

(** [func (m *Model) predict(features []float64) float64] *)
Definition predict (features : list F) : Prog F :=
  sum ← readF RdBias;
  n ← readZ RdLen;
  forUpto (Z.to_nat n) 0
    (fun i sum =>
       weight ← readF (RdWeight i);
       f ← lift (index features i);
       mret (fadd sum (fmul weight f)))
    sum.

(** The body of [for _, dp := range batch] in [trainWorker]; the state is
    [(weightGradients, biasGradient, batchError)]. *)
Definition accumulate (dp : DataPoint) (acc : list F * F * F) : Prog (list F * F * F) :=
  let '(weightGradients, biasGradient, batchError) := acc in
  prediction ← predict (Features dp);
  let error := fsub prediction (Label dp) in
  let batchError := fadd batchError (pow2 error) in
  weightGradients ←
    forRange (Features dp) 0
      (fun j feature wg =>
         g ← lift (index wg j);
         mret (<[Z.to_nat j := fadd g (fmul error feature)]> wg))
      weightGradients;
  mret (weightGradients, fadd biasGradient error, batchError).

(** The critical section of [trainWorker] (between [mu.Lock] and
    [mu.Unlock]); [n] is [len(batch)]. *)
Definition applyGradient (learningRate : F) (weightGradients : list F)
    (biasGradient : F) (n : Z) : Prog unit :=
  act LockMu;;
  l ← readZ RdLen;
  forUpto (Z.to_nat l) 0
    (fun j _ =>
       cur ← readF (RdWeight j);
       g ← lift (index weightGradients j);
       act (WrWeight j (fsub cur (fdiv (fmul learningRate g) (of_int n)))))
    tt;;
  b ← readF RdBias;
  act (WrBias (fsub b (fdiv (fmul learningRate biasGradient) (of_int n))));;
  u ← readZ RdUpdates;
  act (WrUpdates (wrap64 (u + 1)));;
  act UnlockMu.

(** One iteration of the batch loop, for the batch [batch]; the state is
    [(GradientSum, batchErrors)]. *)
Definition trainBatch (learningRate : F) (batch : list DataPoint) (st : Z * list F)
  : Prog (Z * list F) :=
  let '(gradientSum, batchErrors) := st in
  n ← readZ RdLen;
  '(weightGradients, biasGradient, batchError) ←
    forEach batch accumulate (replicate (Z.to_nat n) f0, f0, f0);
  let batchErrors := batchErrors ++ [fdiv batchError (of_int (len batch))] in
  applyGradient learningRate weightGradients biasGradient (len batch);;
  mret (wrap64 (gradientSum + 1), batchErrors).

(** [for i := 0; i < len(w.Data); i += w.BatchSize].  The loop runs at most
    [fuel] times; [Spin] stands for a loop that goes on.  With
    [batchSize >= 1] and [fuel = len(w.Data)] the bound is never reached
    (lemma [batchLoop_batches]); with [batchSize = 0] the Go loop never
    exits; with [batchSize < 0] the slice expression panics. *)
Fixpoint batchLoop (fuel : nat) (data : list DataPoint) (batchSize : Z)
    (learningRate : F) (i : Z) (st : Z * list F) : Prog (Z * list F) :=
  if i <? len data then
    match fuel with
    | O => Spin
    | S fuel' =>
        let end_ := i + batchSize in
        let end_ := if end_ >? len data then len data else end_ in
        batch ← lift (slice data i end_);
        st' ← trainBatch learningRate batch st;
        batchLoop fuel' data batchSize learningRate (i + batchSize) st'
    end
  else Ret st.

(** The average of [batchErrors] and its recording under [MetricsMu]. *)
Definition averageError (batchErrors : list F) : F :=
  fdiv (fold_left fadd batchErrors f0) (of_int (len batchErrors)).

Definition recordEpoch (epoch : Z) (batchErrors : list F) : Prog unit :=
  act LockMetrics;;
  act (WrMetric epoch (averageError batchErrors));;
  act UnlockMetrics.

(** The body of [for epoch := 0; epoch < epochs; epoch++]. *)
Definition trainEpoch (data : list DataPoint) (batchSize : Z) (learningRate : F)
    (epoch : Z) (gradientSum : Z) : Prog Z :=
  '(gradientSum, batchErrors) ←
    batchLoop (length data) data batchSize learningRate 0 (gradientSum, []);
  recordEpoch epoch batchErrors;;
  mret gradientSum.

(** [func (w *Worker) trainWorker(epochs int, learningRate float64, wg)];
    the result is the worker as the goroutine leaves it. *)
Definition trainWorker (w : Worker) (epochs : Z) (learningRate : F) : Prog Worker :=
  gradientSum ←
    forUpto (Z.to_nat epochs) 0
      (trainEpoch (Data w) (BatchSize w) learningRate) (GradientSum w);
  mret (mkWorker (ID w) (Data w) (BatchSize w) gradientSum).

(** ** [main]: partitioning and worker start-up

    [numWorkers], [batchSize], [epochs] and [learningRate] are local constants
    of [main] (4, 32, 10, 0.01); they are parameters here. *)

(** [workersData := make([][]DataPoint, numWorkers)] and the loop that fills
    it ([i] stays below [len(workersData)], so the assignment to
    [workersData[i]] is in range). *)
Definition partitionData (trainData : list DataPoint) (numWorkers : Z)
  : Res (list (list DataPoint)) :=
  if numWorkers <? 0 then Panicked MakeLen
  else
    let workersData : list (list DataPoint) := replicate (Z.to_nat numWorkers) [] in
    if numWorkers =? 0 then Panicked DivideByZero
    else
      let chunkSize := len trainData ÷ numWorkers in
      loopUpto (Z.to_nat numWorkers) 0
        (fun i workersData =>
           let start := i * chunkSize in
           let end_ := start + chunkSize in
           let end_ := if i =? numWorkers - 1 then len trainData else end_ in
           part ← slice trainData start end_;
           mret (<[Z.to_nat i := part]> workersData))
        workersData.

(** The cut points of the partitioning: worker [i] receives
    [trainData[cut i : cut (i+1)]]. *)
Definition cut (n numWorkers i : Z) : Z :=
  if i <? numWorkers then i * (n ÷ numWorkers) else n.

Definition chunkAt (trainData : list DataPoint) (numWorkers : Z) (i : nat)
  : list DataPoint :=
  let lo := cut (len trainData) numWorkers (Z.of_nat i) in
  let hi := cut (len trainData) numWorkers (Z.of_nat i + 1) in
  take (Z.to_nat (hi - lo)) (drop (Z.to_nat lo) trainData).

(** The program state: the shared model, the worker goroutines, and whether
    a goroutine has panicked (a panic ends the whole program). *)
Record World : Type := mkWorld {
  model : Model;
  goroutines : list (Prog Worker);
  crashed : option panic;
}.

Definition newModel (featureCount : nat) : Model :=
  mkModel (replicate featureCount f0) f0 false 0 ∅ false.

Definition newWorkers (workersData : list (list DataPoint)) (batchSize : Z)
  : list Worker :=
  imap (fun i d => mkWorker (Z.of_nat i) d batchSize 0) workersData.

(** [main] from the creation of the model up to the last [go] statement. *)
Definition startTraining (trainData : list DataPoint) (featureCount : nat)
    (numWorkers batchSize epochs : Z) (learningRate : F) : Res World :=
  let m := newModel featureCount in
  workersData ← partitionData trainData numWorkers;
  mret (mkWorld m
          (map (fun w => trainWorker w epochs learningRate)
               (newWorkers workersData batchSize))
          None).

(** ** Semantics of the accesses *)

Definition getF (m : Model) (r : RdF) : Res F :=
  match r with
  | RdBias => Ok (Bias m)
  | RdWeight j => index (Weights m) j
  end.

Definition getZ (m : Model) (r : RdZ) : Z :=
  match r with
  | RdLen => len (Weights m)
  | RdUpdates => Updates m
  end.

Inductive effect : Type :=
| Done (m : Model)
| Wait                         (* Lock on a locked mutex *)
| Crash (e : panic).

Definition perform (m : Model) (w : Wr) : effect :=
  match w with
  | WrWeight j v =>
      if (0 <=? j) && (j <? len (Weights m))
      then Done (mkModel (<[Z.to_nat j := v]> (Weights m)) (Bias m) (mu m)
                   (Updates m) (Metrics m) (MetricsMu m))
      else Crash IndexOutOfRange
  | WrBias v =>
      Done (mkModel (Weights m) v (mu m) (Updates m) (Metrics m) (MetricsMu m))
  | WrUpdates u =>
      Done (mkModel (Weights m) (Bias m) (mu m) u (Metrics m) (MetricsMu m))
  | LockMu =>
      if mu m then Wait
      else Done (mkModel (Weights m) (Bias m) true (Updates m) (Metrics m) (MetricsMu m))
  | UnlockMu =>
      if mu m
      then Done (mkModel (Weights m) (Bias m) false (Updates m) (Metrics m) (MetricsMu m))
      else Crash UnlockOfUnlocked
  | LockMetrics =>
      if MetricsMu m then Wait
      else Done (mkModel (Weights m) (Bias m) (mu m) (Updates m) (Metrics m) true)
  | UnlockMetrics =>
      if MetricsMu m
      then Done (mkModel (Weights m) (Bias m) (mu m) (Updates m) (Metrics m) false)
      else Crash UnlockOfUnlocked
  | WrMetric e v =>
      Done (mkModel (Weights m) (Bias m) (mu m) (Updates m)
              (<[e := v]> (Metrics m)) (MetricsMu m))
  end.

(** *** One goroutine alone *)

Inductive Run (A : Type) : Type :=
| Finished (a : A) (m : Model)
| Panics (e : panic)
| Blocks
| Diverges.
Arguments Finished {A} a m.
Arguments Panics {A} e.
Arguments Blocks {A}.
Arguments Diverges {A}.

Fixpoint interp {A} (p : Prog A) (m : Model) : Run A :=
  match p with
  | Ret a => Finished a m
  | Fail e => Panics e
  | Spin => Diverges
  | ReadF r k =>
      match getF m r with
      | Ok v => interp (k v) m
      | Panicked e => Panics e
      end
  | ReadZ r k => interp (k (getZ m r)) m
  | Do w k =>
      match perform m w with
      | Done m' => interp k m'
      | Wait => Blocks
      | Crash e => Panics e
      end
  end.

(** *** Goroutines interleaved *)

Inductive Access : Type :=
| LReadF (r : RdF) (v : F)
| LReadZ (r : RdZ) (z : Z)
| LDo (w : Wr)
| LPanic (e : panic).

Definition Event : Type := nat * Access.

Definition setGoroutine (W : World) (m : Model) (t : nat) (p : Prog Worker) : World :=
  mkWorld m (<[t := p]> (goroutines W)) (crashed W).

Definition panicWith (W : World) (e : panic) : World :=
  mkWorld (model W) (goroutines W) (Some e).

(** Goroutine [t] performs its next access.  [None]: it cannot run (the
    program has crashed, [t] has returned or is no goroutine, or [t] waits for
    a mutex). *)
Definition step (t : nat) (W : World) : option (Access * World) :=
  match crashed W with
  | Some _ => None
  | None =>
      match goroutines W !! t with
      | None => None
      | Some p =>
          match p with
          | Ret _ => None
          | Spin => None
          | Fail e => Some (LPanic e, panicWith W e)
          | ReadF r k =>
              match getF (model W) r with
              | Ok v => Some (LReadF r v, setGoroutine W (model W) t (k v))
              | Panicked e => Some (LPanic e, panicWith W e)
              end
          | ReadZ r k =>
              let z := getZ (model W) r in
              Some (LReadZ r z, setGoroutine W (model W) t (k z))
          | Do w k =>
              match perform (model W) w with
              | Done m' => Some (LDo w, setGoroutine W m' t k)
              | Wait => None
              | Crash e => Some (LPanic e, panicWith W e)
              end
          end
      end
  end.

(** The scheduler picks the goroutines of [sched] in turn; a pick that cannot
    run is skipped. *)
Fixpoint exec (sched : list nat) (W : World) : list Event * World :=
  match sched with
  | [] => ([], W)
  | t :: sched' =>
      match step t W with
      | None => exec sched' W
      | Some (l, W') =>
          let '(tr, W'') := exec sched' W' in ((t, l) :: tr, W'')
      end
  end.

Definition returned {A} (p : Prog A) : bool :=
  match p with
  | Ret _ => true
  | _ => false
  end.

(** [wg.Wait()] returns: every worker goroutine has returned. *)
Definition joined (W : World) : bool :=
  bool_decide (crashed W = None) && forallb returned (goroutines W).

Definition andThen {A B} (r : Run A) (f : A -> Model -> Run B) : Run B :=
  match r with
  | Finished a m => f a m
  | Panics e => Panics e
  | Blocks => Blocks
  | Diverges => Diverges
  end.

(** A program that performs no write, lock or unlock. *)
Fixpoint noWrites {A} (p : Prog A) : Prop :=
  match p with
  | Ret _ | Fail _ | Spin => True
  | ReadF _ k => forall v, noWrites (k v)
  | ReadZ _ k => forall z, noWrites (k z)
  | Do _ _ => False
  end.

(** ** The operations as the specification words them

    Sums run in slice order from the given start value, as float64 addition
    is not associative. *)

Definition sumFrom (a : F) (xs : list F) : F := fold_left fadd xs a.

(** bias plus dot product of weights and features *)
Definition spec_predict (m : Model) (features : list F) : F :=
  fold_left (fun acc wf => fadd acc (fmul (fst wf) (snd wf)))
            (zip (Weights m) features) (Bias m).

Definition spec_error (m : Model) (dp : DataPoint) : F :=
  fsub (spec_predict m (Features dp)) (Label dp).

(** for feature dimension [j], the sum over the batch of
    [(prediction - label) * feature_j] *)
Definition spec_weightGradient (m : Model) (batch : list DataPoint) (j : nat) : F :=
  sumFrom f0 (map (fun dp => fmul (spec_error m dp) (nth j (Features dp) f0)) batch).

(** the sum over the batch of [(prediction - label)] *)
Definition spec_biasGradient (m : Model) (batch : list DataPoint) : F :=
  sumFrom f0 (map (spec_error m) batch).

(** the mean squared batch error *)
Definition spec_batchError (m : Model) (batch : list DataPoint) : F :=
  fdiv (sumFrom f0 (map (fun dp => pow2 (spec_error m dp)) batch))
       (of_int (len batch)).

(** the arithmetic mean of the batch errors of an epoch: their sum over
    their number *)
Definition spec_epochError (batchErrors : list F) : F :=
  fdiv (sumFrom f0 batchErrors) (of_int (len batchErrors)).

(** [learningRate * gradient / batchSize] subtracted from [x] *)
Definition descend (learningRate : F) (n : Z) (x g : F) : F :=
  fsub x (fdiv (fmul learningRate g) (of_int n)).

(** applyGradient: the step on every weight and on the bias, and the update
    counter incremented by one *)
Definition spec_applyGradient (learningRate : F) (m : Model)
    (weightGradients : nat -> F) (biasGradient : F) (n : Z) : Model :=
  mkModel (imap (fun j w => descend learningRate n w (weightGradients j)) (Weights m))
          (descend learningRate n (Bias m) biasGradient)
          (mu m) (Updates m + 1) (Metrics m) (MetricsMu m).

(** Contiguous batches of a fixed size, the final batch possibly shorter. *)
Fixpoint chunks {A} (fuel : nat) (size : nat) (l : list A) : list (list A) :=
  match fuel with
  | O => []
  | S fuel' =>
      match l with
      | [] => []
      | _ :: _ => take size l :: chunks fuel' size (drop size l)
      end
  end.

Definition spec_batches (batchSize : Z) (data : list DataPoint) : list (list DataPoint) :=
  chunks (length data) (Z.to_nat batchSize) data.

(** Every value that [p] can return satisfies [Q]. *)
Fixpoint returns {A} (p : Prog A) (Q : A -> Prop) : Prop :=
  match p with
  | Ret a => Q a
  | Fail _ => True
  | Spin => True
  | ReadF _ k => forall v, returns (k v) Q
  | ReadZ _ k => forall z, returns (k z) Q
  | Do _ k => returns k Q
  end.

(** *** A worker on its own, as the specification words it *)

(** the model after the gradient of [batch] is applied *)
Definition spec_trainBatch (learningRate : F) (m : Model) (batch : list DataPoint)
  : Model :=
  mkModel
    (imap (fun j w => descend learningRate (len batch) w (spec_weightGradient m batch j))
          (Weights m))
    (descend learningRate (len batch) (Bias m) (spec_biasGradient m batch))
    (mu m) (wrap64 (Updates m + 1)) (Metrics m) (MetricsMu m).

(** the batches of an epoch in order: the model after them and the mean
    squared errors of the batches, each taken on the model as the batch
    found it *)
Fixpoint spec_trainBatches (learningRate : F) (batches : list (list DataPoint))
    (m : Model) (batchErrors : list F) : Model * list F :=
  match batches with
  | [] => (m, batchErrors)
  | batch :: batches' =>
      spec_trainBatches learningRate batches' (spec_trainBatch learningRate m batch)
        (batchErrors ++ [spec_batchError m batch])
  end.

Definition setMetric (m : Model) (epoch : Z) (v : F) : Model :=
  mkModel (Weights m) (Bias m) (mu m) (Updates m) (<[epoch := v]> (Metrics m))
          (MetricsMu m).

(** an epoch: its batches, then the mean of the batch errors recorded under
    the epoch index *)
Definition spec_trainEpoch (learningRate : F) (batches : list (list DataPoint))
    (epoch : Z) (m : Model) : Model :=
  let r := spec_trainBatches learningRate batches m [] in
  setMetric (fst r) epoch (spec_epochError (snd r)).

(** [n] epochs, numbered from [epoch] *)
Fixpoint spec_trainEpochs (learningRate : F) (batches : list (list DataPoint))
    (n : nat) (epoch : Z) (m : Model) : Model :=
  match n with
  | O => m
  | S n' =>
      spec_trainEpochs learningRate batches n' (epoch + 1)
        (spec_trainEpoch learningRate batches epoch m)
  end.

(** The metric writes of a trace, replayed in order on a store. *)
Definition replayMetrics (tr : list Event) (M : gmap Z F) : gmap Z F :=
  fold_left
    (fun M ev =>
       match ev with
       | (_, LDo (WrMetric e v)) => <[e := v]> M
       | _ => M
       end)
    tr M.

Definition writesMetric (e : Z) (ev : Event) : bool :=
  match ev with
  | (_, LDo (WrMetric e' _)) => e' =? e
  | _ => false
  end.

(** Every write, lock or unlock that [p] can perform satisfies [P]. *)
Fixpoint allWrites {A} (P : Wr -> Prop) (p : Prog A) : Prop :=
  match p with
  | Ret _ => True
  | Fail _ => True
  | Spin => True
  | ReadF _ k => forall v, allWrites P (k v)
  | ReadZ _ k => forall z, allWrites P (k z)
  | Do w k => P w /\ allWrites P k
  end.

(** A metric write has its key in [lo, hi). *)
Definition metricKeyIn (lo hi : Z) (w : Wr) : Prop :=
  match w with
  | WrMetric e _ => lo <= e < hi
  | _ => True
  end.

Definition accessOk (P : Wr -> Prop) (ev : Event) : Prop :=
  match ev with
  | (_, LDo w) => P w
  | _ => True
  end.

(** ** Locking discipline and update counting

    [wp p Q h c]: the goroutine [p], started with [c] counter increments
    behind it and the view [h] of [mu] ([None]: not held; [Some u]: held, with
    [Updates = u]), writes the model only while it holds [mu], writes
    [Updates] only as [u + 1], and on return satisfies [Q]. *)
Fixpoint wp {A} (p : Prog A) (Q : A -> option Z -> Z -> Prop) (h : option Z) (c : Z)
  : Prop :=
  match p with
  | Ret a => Q a h c
  | Fail _ => True
  | Spin => True
  | ReadF _ k => forall v, wp (k v) Q h c
  | ReadZ r k =>
      match r, h with
      | RdUpdates, Some u => wp (k u) Q h c
      | _, _ => forall z, wp (k z) Q h c
      end
  | Do w k =>
      match w with
      | LockMu => h = None /\ forall u, wp k Q (Some u) c
      | UnlockMu => is_Some h /\ wp k Q None c
      | WrUpdates v =>
          exists u, h = Some u /\ v = wrap64 (u + 1) /\ wp k Q (Some v) (c + 1)
      | WrWeight _ _ => is_Some h /\ wp k Q h c
      | WrBias _ => is_Some h /\ wp k Q h c
      | LockMetrics => wp k Q h c
      | UnlockMetrics => wp k Q h c
      | WrMetric _ _ => wp k Q h c
      end
  end.

(** The view of [mu] that goroutine [t] has when [holder] holds it. *)
Definition view (holder : option nat) (t : nat) (u : Z) : option Z :=
  if decide (holder = Some t) then Some u else None.

Definition sumZ (zs : list Z) : Z := foldr Z.add 0 zs.

(** The invariant of a run: [holder] is the goroutine that holds [mu],
    [cs] counts the increments each goroutine has made, and [Ps] says what
    each goroutine promises about its count when it returns. *)
Record Inv (Ps : list (Z -> Prop)) (W : World) (holder : option nat) (cs : list Z)
  : Prop := {
  inv_cs : length cs = length (goroutines W);
  inv_ns : length Ps = length (goroutines W);
  inv_mu : mu (model W) = bool_decide (is_Some holder);
  inv_wp : forall t p c P,
      goroutines W !! t = Some p -> cs !! t = Some c -> Ps !! t = Some P ->
      wp p (fun _ h' c' => h' = None /\ P c')
         (view holder t (Updates (model W))) c;
  inv_updates : Updates (model W) = wrap64 (sumZ cs);
}.

Definition writesModel (a : Access) : bool :=
  match a with
  | LDo (WrWeight _ _) | LDo (WrBias _) | LDo (WrUpdates _) => true
  | _ => false
  end.

(** A trace in which gradient applications do not interleave: [mu] is taken
    only when free and released only by its holder, and every write to the
    weights, the bias or the counter is made by the holder. *)
Fixpoint serial (holder : option nat) (tr : list Event) : Prop :=
  match tr with
  | [] => True
  | (t, a) :: tr' =>
      match a with
      | LDo LockMu => holder = None /\ serial (Some t) tr'
      | LDo UnlockMu => holder = Some t /\ serial None tr'
      | _ => (writesModel a = true -> holder = Some t) /\ serial holder tr'
      end
  end.

(** A goroutine reads a weight or the bias while another goroutine is between
    the first write of a gradient application and its unlock. *)
Fixpoint observesPartial (writer : option nat) (tr : list Event) : bool :=
  match tr with
  | [] => false
  | (t, a) :: tr' =>
      match a with
      | LDo (WrWeight _ _) => observesPartial (Some t) tr'
      | LDo (WrBias _) => observesPartial (Some t) tr'
      | LDo (WrUpdates _) => observesPartial (Some t) tr'
      | LDo UnlockMu => observesPartial None tr'
      | LReadF _ _ =>
          match writer with
          | Some t' => negb (Nat.eqb t t')
          | None => false
          end
          || observesPartial writer tr'
      | _ => observesPartial writer tr'
      end
  end.

(** What an access of goroutine [t] does to the holder of [mu]. *)
Definition ownerStep (holder : option nat) (t : nat) (a : Access)
    (holder' : option nat) : Prop :=
  match a with
  | LDo LockMu => holder = None /\ holder' = Some t
  | LDo UnlockMu => holder = Some t /\ holder' = None
  | _ => (writesModel a = true -> holder = Some t) /\ holder' = holder
  end.

(** The number of batches of a partition of [n] points: ceil(n / batchSize). *)
Definition batchCount (n batchSize : Z) : Z := (n + batchSize - 1) / batchSize.

Definition batchesFrom (n batchSize i : Z) : Z :=
  if i <? n then batchCount (n - i) batchSize else 0.

(** ** Safety of a run

    [safe fc p Q h]: in a model whose weight vector has [fc] components, the
    goroutine [p], started holding [h], never panics and never spins, reads
    and writes the weights in range, takes a mutex only while it holds none
    and releases only the one it holds, writes the weights, the bias and the
    counter only under [mu] and the metrics only under [MetricsMu], and on
    return satisfies [Q]. *)

Inductive Held : Type :=
| Free
| HoldsMu
| HoldsMetrics.

Fixpoint safe {A} (fc : nat) (p : Prog A) (Q : A -> Held -> Prop) (h : Held) : Prop :=
  match p with
  | Ret a => Q a h
  | Fail _ => False
  | Spin => False
  | ReadF r k =>
      match r with
      | RdBias => forall v, safe fc (k v) Q h
      | RdWeight j => 0 <= j < Z.of_nat fc /\ forall v, safe fc (k v) Q h
      end
  | ReadZ r k =>
      match r with
      | RdLen => safe fc (k (Z.of_nat fc)) Q h
      | RdUpdates => forall z, safe fc (k z) Q h
      end
  | Do w k =>
      match w with
      | LockMu => h = Free /\ safe fc k Q HoldsMu
      | UnlockMu => h = HoldsMu /\ safe fc k Q Free
      | LockMetrics => h = Free /\ safe fc k Q HoldsMetrics
      | UnlockMetrics => h = HoldsMetrics /\ safe fc k Q Free
      | WrWeight j _ => h = HoldsMu /\ 0 <= j < Z.of_nat fc /\ safe fc k Q h
      | WrBias _ => h = HoldsMu /\ safe fc k Q h
      | WrUpdates _ => h = HoldsMu /\ safe fc k Q h
      | WrMetric _ _ => h = HoldsMetrics /\ safe fc k Q h
      end
  end.

(** What goroutine [t] holds when [muH] holds [mu] and [meH] holds
    [MetricsMu]. *)
Definition heldBy (muH meH : option nat) (t : nat) : Held :=
  if decide (muH = Some t) then HoldsMu
  else if decide (meH = Some t) then HoldsMetrics
  else Free.

Record SafeInv (fc : nat) (W : World) (muH meH : option nat) : Prop := {
  si_crashed : crashed W = None;
  si_len : length (Weights (model W)) = fc;
  si_mu : mu (model W) = bool_decide (is_Some muH);
  si_me : MetricsMu (model W) = bool_decide (is_Some meH);
  si_distinct : forall t, muH = Some t -> meH <> Some t;
  si_mu_valid : forall t, muH = Some t -> is_Some (goroutines W !! t);
  si_me_valid : forall t, meH = Some t -> is_Some (goroutines W !! t);
  si_safe : forall t p,
      goroutines W !! t = Some p ->
      safe fc p (fun _ h => h = Free) (heldBy muH meH t);
}.

(** A trace that respects both mutexes: a goroutine locks a mutex only when
    the mutex is free and the goroutine holds no mutex, unlocks only what it
    holds, writes the weights, the bias and the counter only while it holds
    [mu] and the metrics only while it holds [MetricsMu]; and no goroutine
    panics. *)
Fixpoint exclusive (muH meH : option nat) (tr : list Event) : Prop :=
  match tr with
  | [] => True
  | (t, a) :: tr' =>
      match a with
      | LPanic _ => False
      | LDo LockMu =>
          muH = None /\ meH <> Some t /\ exclusive (Some t) meH tr'
      | LDo UnlockMu => muH = Some t /\ exclusive None meH tr'
      | LDo LockMetrics =>
          meH = None /\ muH <> Some t /\ exclusive muH (Some t) tr'
      | LDo UnlockMetrics => meH = Some t /\ exclusive muH None tr'
      | LDo (WrMetric _ _) => meH = Some t /\ exclusive muH meH tr'
      | LDo _ => muH = Some t /\ exclusive muH meH tr'
      | _ => exclusive muH meH tr'
      end
  end.

(** What an access of goroutine [t] does to the holders of the two
    mutexes. *)
Definition lockStep (muH meH : option nat) (t : nat) (a : Access)
    (muH' meH' : option nat) : Prop :=
  match a with
  | LPanic _ => False
  | LDo LockMu => muH = None /\ meH <> Some t /\ muH' = Some t /\ meH' = meH
  | LDo UnlockMu => muH = Some t /\ muH' = None /\ meH' = meH
  | LDo LockMetrics => meH = None /\ muH <> Some t /\ muH' = muH /\ meH' = Some t
  | LDo UnlockMetrics => meH = Some t /\ muH' = muH /\ meH' = None
  | LDo (WrMetric _ _) => meH = Some t /\ muH' = muH /\ meH' = meH
  | LDo _ => muH = Some t /\ muH' = muH /\ meH' = meH
  | _ => muH' = muH /\ meH' = meH
  end.

(** [wg.Wait()] cannot return yet and no goroutine can run. *)
Definition deadlocked (W : World) : Prop :=
  joined W = false /\ forall t, step t W = None.

(** On every path on which [p] returns, [p] has written the metric of
    epoch [e]. *)
Fixpoint mustWrite {A} (e : Z) (p : Prog A) : Prop :=
  match p with
  | Ret _ => False
  | Fail _ => True
  | Spin => True
  | ReadF _ k => forall v, mustWrite e (k v)
  | ReadZ _ k => forall z, mustWrite e (k z)
  | Do w k => (exists v, w = WrMetric e v) \/ mustWrite e k
  end.

(** ** Whole gradient applications

    A gradient application is what [trainWorker] does between [mu.Lock()] and
    [mu.Unlock()]: it writes the weights 0, 1, ... in order, then the bias,
    then the counter.  [Stage] says how far a goroutine is in one. *)

Inductive Stage : Type :=
| Outside                (* not in an application; [mu] not held *)
| AtWeight (j : nat)     (* [mu] held; the weights below [j] are written *)
| AtCounter              (* the weights and the bias are written *)
| AtUnlock.              (* the counter is written as well *)

(** [applies fc p Q s]: with [fc] weights, the goroutine [p], started at
    stage [s], takes [mu] only outside an application, then writes the
    weights 0 to [fc - 1] in order, each once, then the bias, then the
    counter, and only then releases [mu]; it writes no weight, bias or counter
    otherwise, and on return satisfies [Q]. *)
Fixpoint applies {A} (fc : nat) (p : Prog A) (Q : A -> Stage -> Prop) (s : Stage)
  : Prop :=
  match p with
  | Ret a => Q a s
  | Fail _ => True
  | Spin => True
  | ReadF _ k => forall v, applies fc (k v) Q s
  | ReadZ r k =>
      match r with
      | RdLen => applies fc (k (Z.of_nat fc)) Q s
      | RdUpdates => forall z, applies fc (k z) Q s
      end
  | Do w k =>
      match w with
      | LockMu => s = Outside /\ applies fc k Q (AtWeight 0)
      | WrWeight j _ =>
          exists i : nat,
            s = AtWeight i /\ j = Z.of_nat i /\ (i < fc)%nat /\
            applies fc k Q (AtWeight (S i))
      | WrBias _ => s = AtWeight fc /\ applies fc k Q AtCounter
      | WrUpdates _ => s = AtCounter /\ applies fc k Q AtUnlock
      | UnlockMu => s = AtUnlock /\ applies fc k Q Outside
      | LockMetrics => s = Outside /\ applies fc k Q s
      | UnlockMetrics => s = Outside /\ applies fc k Q s
      | WrMetric _ _ => s = Outside /\ applies fc k Q s
      end
  end.

(** A trace made of whole gradient applications, one at a time: [cur] is
    the goroutine that is applying a gradient and its stage.  From a
    [mu.Lock()] of goroutine [t] up to the next [mu.Unlock()], which is
    [t]'s, the writes to the model are [t]'s writes of the weights 0 to
    [fc - 1] in order, of the bias and of the counter, all of them, and no
    other goroutine writes a weight, the bias or the counter or takes [mu];
    outside such a stretch nothing writes them. *)
Fixpoint applications (fc : nat) (cur : option (nat * Stage)) (tr : list Event)
  : Prop :=
  match tr with
  | [] => True
  | (t, a) :: tr' =>
      match a with
      | LDo LockMu => cur = None /\ applications fc (Some (t, AtWeight 0)) tr'
      | LDo (WrWeight j _) =>
          exists i : nat,
            cur = Some (t, AtWeight i) /\ j = Z.of_nat i /\ (i < fc)%nat /\
            applications fc (Some (t, AtWeight (S i))) tr'
      | LDo (WrBias _) =>
          cur = Some (t, AtWeight fc) /\ applications fc (Some (t, AtCounter)) tr'
      | LDo (WrUpdates _) =>
          cur = Some (t, AtCounter) /\ applications fc (Some (t, AtUnlock)) tr'
      | LDo UnlockMu => cur = Some (t, AtUnlock) /\ applications fc None tr'
      | _ => applications fc cur tr'
      end
  end.

(** What an access of goroutine [t] does to [cur]. *)
Definition applyStep (fc : nat) (cur : option (nat * Stage)) (t : nat) (a : Access)
    (cur' : option (nat * Stage)) : Prop :=
  match a with
  | LDo LockMu => cur = None /\ cur' = Some (t, AtWeight 0)
  | LDo (WrWeight j _) =>
      exists i : nat,
        cur = Some (t, AtWeight i) /\ j = Z.of_nat i /\ (i < fc)%nat /\
        cur' = Some (t, AtWeight (S i))
  | LDo (WrBias _) => cur = Some (t, AtWeight fc) /\ cur' = Some (t, AtCounter)
  | LDo (WrUpdates _) => cur = Some (t, AtCounter) /\ cur' = Some (t, AtUnlock)
  | LDo UnlockMu => cur = Some (t, AtUnlock) /\ cur' = None
  | _ => cur' = cur
  end.

(** The stage of goroutine [t] when [cur] is applying. *)
Definition stageOf (cur : option (nat * Stage)) (t : nat) : Stage :=
  match cur with
  | Some (t', s) => if decide (t' = t) then s else Outside
  | None => Outside
  end.

Record ApplyInv (fc : nat) (W : World) (cur : option (nat * Stage)) : Prop := {
  ai_len : length (Weights (model W)) = fc;
  ai_mu : mu (model W) = bool_decide (is_Some cur);
  ai_applies : forall t p,
      goroutines W !! t = Some p ->
      applies fc p (fun _ s => s = Outside) (stageOf cur t);
}.

(** ** The quotients a worker computes

    [err] is the mean squared error of [batch] for some predictions, one per
    point: the sum of the squared differences over [float64(len(batch))]. *)
Definition batchErrorOf (batch : list DataPoint) (err : F) : Prop :=
  exists predictions : list F,
    length predictions = length batch /\
    err = fdiv (sumFrom f0 (zip_with (fun p dp => pow2 (fsub p (Label dp)))
                                     predictions batch))
               (of_int (len batch)).

(** [v] is some value less [learningRate * g / float64(len(batch))], for a
    batch of [batches]. *)
Definition descentOf (learningRate : F) (batches : list (list DataPoint)) (v : F)
  : Prop :=
  exists batch cur g,
    batch ∈ batches /\
    v = fsub cur (fdiv (fmul learningRate g) (of_int (len batch))).

(** What a worker with the batches [batches] writes: to a weight or the bias
    a descent step divided by the length of one of its batches; to the
    metrics the sum of one error per batch, each the mean squared error of the
    batch, over their number. *)
Definition quotients (learningRate : F) (batches : list (list DataPoint)) (w : Wr)
  : Prop :=
  match w with
  | WrWeight _ v => descentOf learningRate batches v
  | WrBias v => descentOf learningRate batches v
  | WrMetric _ v =>
      exists errs,
        Forall2 batchErrorOf batches errs /\
        v = fdiv (sumFrom f0 errs) (of_int (len errs))
  | _ => True
  end.

(** A metric write carries the mean of the batch errors of the epoch, one
    error per batch. *)
Definition epochMean (batches : list (list DataPoint)) (w : Wr) : Prop :=
  match w with
  | WrMetric _ v =>
      exists errs, Forall2 batchErrorOf batches errs /\ v = spec_epochError errs
  | _ => True
  end.

(** Every write, lock or unlock of goroutine [t] in the trace satisfies
    [Ps t]. *)
Definition accessOkAt (Ps : nat -> Wr -> Prop) (ev : Event) : Prop :=
  match ev with
  | (t, LDo w) => Ps t w
  | _ => True
  end.

(** ** [evaluate]

    [func evaluate(model *Model, testData []DataPoint) float64], called by
    [main] after [wg.Wait()].  The root of the result is only logged and is
    left out. *)

(** The body of [for i, dp := range testData]; the state is
    [(predictions, totalError)]. *)
Definition evaluatePoint (i : Z) (dp : DataPoint) (st : list F * F) : Prog (list F * F) :=
  let '(predictions, totalError) := st in
  prediction ← predict (Features dp);
  _ ← lift (index predictions i);
  let predictions := <[Z.to_nat i := prediction]> predictions in
  p ← lift (index predictions i);
  mret (predictions, fadd totalError (pow2 (fsub p (Label dp)))).

Definition evaluate (testData : list DataPoint) : Prog F :=
  '(_, totalError) ←
    forRange testData 0 evaluatePoint (replicate (length testData) f0, f0);
  mret (fdiv totalError (of_int (len testData))).

End Trainer.

Arguments Ret {F A} a.
Arguments Fail {F A} e.
Arguments Spin {F A}.
Arguments ReadF {F A} r k.
Arguments ReadZ {F A} r k.
Arguments Do {F A} w k.
Arguments Finished {F A} a m.
Arguments Panics {F A} e.
Arguments Blocks {F A}.
Arguments Diverges {F A}.

(** * Data preparation and the data flow of [main] *)

Section Preparation.

Context {F : Type} {FO : Float64 F} {FM : Float64Math F}.

(** [strconv.ParseFloat(s, 64)]: the value, or [None] when it returns an
    error. *)
Context (ParseFloat : String.string -> option F).

(** [for _, x := range xs { s = body x s }] where the body may panic *)
Fixpoint rangeOver {X S} (xs : list X) (body : X -> S -> Res S) (s : S) : Res S :=
  match xs with
  | [] => Ok s
  | x :: xs' => s' ← body x s; rangeOver xs' body s'
  end.

(** [for i, x := range xs { s = body i x s }], [i] counting from [i0] *)
Fixpoint rangeFrom {X S} (xs : list X) (i0 : Z) (body : Z -> X -> S -> Res S) (s : S)
  : Res S :=
  match xs with
  | [] => Ok s
  | x :: xs' => s' ← body i0 x s; rangeFrom xs' (i0 + 1) body s'
  end.

(** [s[i] = v] *)
Definition store {A} (s : list A) (i : Z) (v : A) : Res (list A) :=
  _ ← index s i; mret (<[Z.to_nat i := v]> s).

(** [r] does not panic, or panics with [e]. *)
Definition onlyPanic {A} (e : panic) (r : Res A) : Prop :=
  forall e', r = Panicked e' -> e' = e.

(** ** [loadData] *)

(** [for i := 1; i < len(record); i++] over the fields [record[1:]];
    [None] when a field does not parse ([return nil, err]). *)
Fixpoint parseFeatures (fields : list String.string) (features : list F)
  : option (list F) :=
  match fields with
  | [] => Some features
  | field :: fields' =>
      match ParseFloat field with
      | None => None
      | Some val => parseFeatures fields' (features ++ [val])
      end
  end.

(** The body of [for _, record := range records[1:]]: the features are
    parsed before the label [record[0]]. *)
Definition parseRecord (record : list String.string) : Res (option DataPoint) :=
  match parseFeatures (drop 1 record) [] with
  | None => Ok None
  | Some features =>
      field ← index record 0;
      match ParseFloat field with
      | None => Ok None
      | Some label => Ok (Some (mkDataPoint features label))
      end
  end.

Fixpoint parseRecords (records : list (list String.string)) (dataset : list DataPoint)
  : Res (option (list DataPoint)) :=
  match records with
  | [] => Ok (Some dataset)
  | record :: records' =>
      r ← parseRecord record;
      match r with
      | None => Ok None
      | Some dp => parseRecords records' (dataset ++ [dp])
      end
  end.

(** [func loadData(filepath string) ([]DataPoint, error)].  [file] is what
    [os.Open] and [reader.ReadAll] give: the records of the file, or [None]
    when one of the two returns an error.  The result is [Ok (Some dataset)]
    for [(dataset, nil)], [Ok None] for [(nil, err)]. *)
Definition loadData (file : option (list (list String.string)))
  : Res (option (list DataPoint)) :=
  match file with
  | None => Ok None
  | Some records =>
      rest ← slice records 1 (len records);
      parseRecords rest []
  end.

(** [record] is a row whose first field parses to the label of [dp] and
    whose other fields parse, in order, to the features of [dp]. *)
Definition parsesTo (record : list String.string) (dp : DataPoint) : Prop :=
  exists field fields,
    record = field :: fields /\
    ParseFloat field = Some (Label dp) /\
    Forall2 (fun s v => ParseFloat s = Some v) fields (Features dp).

(** ** [normalize] *)

(** [means[i]]: the inner loop of the first loop and the division. *)
Definition columnMean (data : list DataPoint) (i : Z) : Res F :=
  sum ← rangeOver data
           (fun dp sum => x ← index (Features dp) i; mret (fadd sum x)) f0;
  mret (fdiv sum (of_int (len data))).

(** [stds[i]]: the inner loop of the second loop, the division and the
    root. *)
Definition columnStd (data : list DataPoint) (means : list F) (i : Z) : Res F :=
  sumSquares ← rangeOver data
                  (fun dp sumSquares =>
                     x ← index (Features dp) i;
                     mean ← index means i;
                     mret (fadd sumSquares (pow2 (fsub x mean)))) f0;
  mret (fsqrt (fdiv sumSquares (of_int (len data)))).

(** The body of [for i, dp := range data] in the third loop. *)
Definition normalizePoint (featureCount : Z) (means stds : list F) (dp : DataPoint)
  : Res DataPoint :=
  normalizedFeatures ←
    loopUpto (Z.to_nat featureCount) 0
      (fun j normalizedFeatures =>
         std ← index stds j;
         if fne0 std then
           x ← index (Features dp) j;
           mean ← index means j;
           std ← index stds j;
           store normalizedFeatures j (fdiv (fsub x mean) std)
         else
           x ← index (Features dp) j;
           mean ← index means j;
           store normalizedFeatures j (fsub x mean))
      (replicate (Z.to_nat featureCount) f0);
  mret (mkDataPoint normalizedFeatures (Label dp)).

(** [func normalize(data []DataPoint) []DataPoint] *)
Definition normalize (data : list DataPoint) : Res (list DataPoint) :=
  first ← index data 0;
  let featureCount := len (Features first) in
  means ←
    loopUpto (Z.to_nat featureCount) 0
      (fun i means => mean ← columnMean data i; store means i mean)
      (replicate (Z.to_nat featureCount) f0);
  stds ←
    loopUpto (Z.to_nat featureCount) 0
      (fun i stds => std ← columnStd data means i; store stds i std)
      (replicate (Z.to_nat featureCount) f0);
  rangeFrom data 0
    (fun i dp normalizedData =>
       p ← normalizePoint featureCount means stds dp;
       store normalizedData i p)
    (replicate (length data) (mkDataPoint [] f0)).

(** *** [normalize] as a formula *)

Definition column (data : list DataPoint) (j : nat) : list F :=
  map (fun dp => nth j (Features dp) f0) data.

Definition spec_mean (data : list DataPoint) (j : nat) : F :=
  fdiv (sumFrom f0 (column data j)) (of_int (len data)).

(** the population standard deviation *)
Definition spec_std (data : list DataPoint) (j : nat) : F :=
  fsqrt (fdiv (sumFrom f0 (map (fun x => pow2 (fsub x (spec_mean data j)))
                               (column data j)))
              (of_int (len data))).

Definition spec_scale (data : list DataPoint) (j : nat) (x : F) : F :=
  if fne0 (spec_std data j)
  then fdiv (fsub x (spec_mean data j)) (spec_std data j)
  else fsub x (spec_mean data j).

Definition spec_normalize (featureCount : nat) (data : list DataPoint)
  : list DataPoint :=
  map (fun dp => mkDataPoint (imap (spec_scale data) (take featureCount (Features dp)))
                             (Label dp))
      data.

(** ** [main] from the split to the start of the workers

    [data] is the normalized data after [rand.Shuffle], [splitIndex] is
    [int(float64(len(data)) * trainRatio)].  The result is the program state
    after the last [go] statement and the test data. *)
Definition splitAndStart (data : list DataPoint)
    (splitIndex numWorkers batchSize epochs : Z) (learningRate : F)
  : Res (World * list DataPoint) :=
  trainData ← slice data 0 splitIndex;
  testData ← slice data splitIndex (len data);
  first ← index data 0;
  let featureCount := length (Features first) in
  W0 ← startTraining trainData featureCount numWorkers batchSize epochs learningRate;
  mret (W0, testData).

End Preparation.

(** * Concrete runs (IEEE binary64) *)

Module Examples.

Definition pt (a b l : float) : DataPoint := mkDataPoint [a; b] l.

Definition fourPoints : list DataPoint :=
  [pt 1 2 3; pt 2 1 1; pt 0 1 2; pt 1 1 1]%float.

Definition fourParts : list (list DataPoint) :=
  [[pt 1 2 3; pt 2 1 1]; [pt 0 1 2; pt 1 1 1]]%float.

(** two workers, batch size 1, one epoch, learning rate 0.5 *)
Definition fourWorld : World :=
  mkWorld (newModel 2)
    (map (fun w => trainWorker w 1 0.5%float) (newWorkers fourParts 1))
    None.

(** worker 0 to its end, then worker 1 *)
Definition seqSched : list nat := repeat 0%nat 40 ++ repeat 1%nat 40.

(** worker 0 up to its first weight write, then worker 1 through its first
    prediction, then both to their ends *)
Definition tornSched : list nat :=
  repeat 0%nat 9 ++ repeat 1%nat 5 ++ repeat 0%nat 40 ++ repeat 1%nat 40.

Definition tornParts : list (list DataPoint) := [[pt 1 2 3]; [pt 2 1 1]]%float.

Definition tornWorld : World :=
  mkWorld (newModel 2)
    (map (fun w => trainWorker w 1 0.5%float) (newWorkers tornParts 1))
    None.

Definition twoPoints : list DataPoint := [pt 1 2 3; pt 2 1 1]%float.

Definition elevenPoints : list DataPoint := replicate 11 (pt 1 2 3)%float.

Definition elevenParts : list (list DataPoint) :=
  [replicate 2 (pt 1 2 3); replicate 2 (pt 1 2 3); replicate 2 (pt 1 2 3);
   replicate 5 (pt 1 2 3)]%float.

(** one point whose feature and label are 2^700 *)
Definition hugeWorker : Worker :=
  mkWorker 0 [mkDataPoint [0x1p+700%float] 0x1p+700%float] 1 0.

Definition someModel : Model :=
  mkModel [0.5; 2]%float 1%float false 7 ∅ false.

(** a file of a header record and four data records of three fields; a
    field of [n] characters stands for the number [n], and the empty field
    does not parse *)
Definition field (n : nat) : String.string :=
  Nat.iter n (String.String Ascii.zero) String.EmptyString.

Definition parseLength (s : String.string) : option float :=
  match String.length s with
  | O => None
  | S n => Some (PrimFloat.of_uint63 (Uint63.of_Z (Z.of_nat (S n))))
  end.

Definition sampleRecords : list (list String.string) :=
  [[field 0; field 0; field 0];
   [field 3; field 1; field 2];
   [field 1; field 2; field 1];
   [field 2; field 1; field 1];
   [field 1; field 1; field 2]].

Definition rawPoints : list DataPoint :=
  [pt 1 2 3; pt 2 1 1; pt 1 1 2; pt 1 2 1]%float.

Definition normalizedPoints : list DataPoint := spec_normalize 2 rawPoints.

(** a point with three features, for a model of two weights *)
Definition widePoint : DataPoint := mkDataPoint [1; 2; 3]%float 1%float.

(** a point with one feature *)
Definition narrowPoint : DataPoint := mkDataPoint [1]%float 1%float.

End Examples.

(** * Properties *)

Section TrainerFacts.

Context {F : Type} {FO : Float64 F}.

Implicit Types (trainData data batch : list (@DataPoint F)) (m : @Model F).

(** ** Partitioning *)

Lemma slice_ok {A} (s : list A) (lo hi : Z) :
  0 <= lo -> lo <= hi -> hi <= len s ->
  slice s lo hi = Ok (take (Z.to_nat (hi - lo)) (drop (Z.to_nat lo) s)).
Proof.
  intros H1 H2 H3. unfold slice.
  destruct (0 <=? lo) eqn:E1; [|lia].
  destruct (lo <=? hi) eqn:E2; [|lia].
  destruct (hi <=? len s) eqn:E3; [|lia].
  reflexivity.
Qed.

Lemma cut_mono (n numWorkers i : Z) :
  1 <= numWorkers -> 0 <= n -> 0 <= i ->
  0 <= cut n numWorkers i <= cut n numWorkers (i + 1) /\ cut n numWorkers (i + 1) <= n.
Proof.
  intros HW Hn Hi. unfold cut.
  rewrite Z.quot_div_nonneg by lia.
  assert (Hq : 0 <= n / numWorkers) by (apply Z.div_pos; lia).
  assert (Hm : numWorkers * (n / numWorkers) <= n) by (apply Z.mul_div_le; lia).
  destruct (i <? numWorkers) eqn:E1; destruct (i + 1 <? numWorkers) eqn:E2; nia.
Qed.

Lemma partition_loop trainData (numWorkers : Z) (n : nat) :
  1 <= numWorkers ->
  forall (i : nat) (done : list (list (@DataPoint F))),
    length done = i ->
    (Z.of_nat i + Z.of_nat n = numWorkers) ->
    loopUpto n (Z.of_nat i)
      (fun i workersData =>
         let start := i * (len trainData ÷ numWorkers) in
         let end_ := start + len trainData ÷ numWorkers in
         let end_ := if i =? numWorkers - 1 then len trainData else end_ in
         part ← slice trainData start end_;
         mret (<[Z.to_nat i := part]> workersData))
      (done ++ replicate n [])
    = Ok (done ++ map (chunkAt trainData numWorkers) (seq i n)).
Proof.
  intros HW. induction n as [|n IH]; intros i done Hlen Hsum.
  - reflexivity.
  - cbn [loopUpto]. cbv zeta.
    pose proof (cut_mono (len trainData) numWorkers (Z.of_nat i) HW
                  ltac:(lia) ltac:(lia)) as Hc.
    assert (Hlo : Z.of_nat i * (len trainData ÷ numWorkers)
                  = cut (len trainData) numWorkers (Z.of_nat i)).
    { unfold cut. destruct (Z.of_nat i <? numWorkers) eqn:E; [reflexivity|lia]. }
    assert (Hhi : (if Z.of_nat i =? numWorkers - 1 then len trainData
                   else Z.of_nat i * (len trainData ÷ numWorkers)
                        + len trainData ÷ numWorkers)
                  = cut (len trainData) numWorkers (Z.of_nat i + 1)).
    { unfold cut. destruct (Z.of_nat i =? numWorkers - 1) eqn:E1;
        destruct (Z.of_nat i + 1 <? numWorkers) eqn:E2; lia. }
    rewrite Hhi, Hlo. rewrite slice_ok by lia.
    cbn [mbind Res_bind mret Res_ret].
    rewrite Nat2Z.id.
    replace (replicate (S n) []) with (@nil (@DataPoint F) :: replicate n []) by reflexivity.
    rewrite insert_app_r_alt by lia.
    rewrite Hlen, Nat.sub_diag. cbn [insert list_insert].
    replace (Z.of_nat i + 1) with (Z.of_nat (S i)) by lia.
    rewrite (cons_middle _ done), app_assoc.
    rewrite IH by (rewrite ?length_app; cbn; lia).
    rewrite <- app_assoc. cbn [seq map app]. unfold chunkAt at 2.
    replace (Z.of_nat i + 1) with (Z.of_nat (S i)) by lia. reflexivity.
Qed.

Lemma partition_spec trainData (numWorkers : Z) :
  1 <= numWorkers ->
  partitionData trainData numWorkers
  = Ok (map (chunkAt trainData numWorkers) (seq 0 (Z.to_nat numWorkers))).
Proof.
  intros HW. unfold partitionData.
  destruct (numWorkers <? 0) eqn:E1; [lia|].
  destruct (numWorkers =? 0) eqn:E2; [lia|].
  cbv zeta.
  apply (partition_loop trainData numWorkers (Z.to_nat numWorkers) HW 0%nat []);
    [reflexivity | lia].
Qed.

Lemma chunkAt_length trainData (numWorkers : Z) (i : nat) :
  1 <= numWorkers ->
  len (chunkAt trainData numWorkers i)
  = cut (len trainData) numWorkers (Z.of_nat i + 1)
    - cut (len trainData) numWorkers (Z.of_nat i).
Proof.
  intros HW. unfold chunkAt. cbv zeta.
  pose proof (cut_mono (len trainData) numWorkers (Z.of_nat i) HW
                ltac:(lia) ltac:(lia)) as Hc.
  rewrite length_take, length_drop. lia.
Qed.

Lemma cut_last (n numWorkers : Z) : cut n numWorkers numWorkers = n.
Proof. unfold cut. destruct (numWorkers <? numWorkers) eqn:E; lia. Qed.

Lemma cut_first (n numWorkers : Z) : 1 <= numWorkers -> cut n numWorkers 0 = 0.
Proof. intros HW. unfold cut. destruct (0 <? numWorkers) eqn:E; lia. Qed.

Lemma concat_chunks trainData (numWorkers : Z) (k : nat) :
  1 <= numWorkers ->
  concat (map (chunkAt trainData numWorkers) (seq 0 k))
  = take (Z.to_nat (cut (len trainData) numWorkers (Z.of_nat k))) trainData.
Proof.
  intros HW. induction k as [|k IH].
  - change (Z.of_nat 0) with 0. rewrite cut_first by lia. reflexivity.
  - rewrite seq_S, map_app, concat_app, IH. cbn [Nat.add map concat].
    rewrite app_nil_r. unfold chunkAt. cbv zeta.
    pose proof (cut_mono (len trainData) numWorkers (Z.of_nat k) HW
                  ltac:(lia) ltac:(lia)) as Hc.
    rewrite take_take_drop. f_equal.
    replace (Z.of_nat (S k)) with (Z.of_nat k + 1) by lia. lia.
Qed.

Lemma chunk_sizes trainData (numWorkers : Z) (i : nat) :
  1 <= numWorkers -> Z.of_nat i < numWorkers ->
  len (chunkAt trainData numWorkers i)
  = if Z.of_nat i =? numWorkers - 1
    then len trainData / numWorkers + len trainData mod numWorkers
    else len trainData / numWorkers.
Proof.
  intros HW Hi. rewrite chunkAt_length by lia. unfold cut.
  rewrite Z.quot_div_nonneg by lia.
  pose proof (Z.div_mod (len trainData) numWorkers ltac:(lia)) as Hdm.
  destruct (Z.of_nat i <? numWorkers) eqn:E1; [|lia].
  destruct (Z.of_nat i =? numWorkers - 1) eqn:E2;
    destruct (Z.of_nat i + 1 <? numWorkers) eqn:E3; try lia; nia.
Qed.

Lemma partition_lookup trainData (numWorkers : Z) parts (i : nat) part :
  1 <= numWorkers ->
  partitionData trainData numWorkers = Ok parts ->
  parts !! i = Some part ->
  Z.of_nat i < numWorkers /\ part = chunkAt trainData numWorkers i.
Proof.
  intros HW Hp Hi. rewrite partition_spec in Hp by lia.
  injection Hp as <-.
  rewrite list_lookup_fmap in Hi.
  destruct (seq 0 (Z.to_nat numWorkers) !! i) as [k|] eqn:Hk; [|discriminate].
  apply lookup_seq in Hk as [-> Hlt]. cbn in Hi. injection Hi as <-.
  split; [lia|reflexivity].
Qed.

(** C2 — for every worker count from 1 up (in particular up to the size of
    the training set) the partitioning returns [numWorkers] slices
    [trainData[cut i : cut (i+1)]] whose cut points start at 0, end at
    [len trainData] and never decrease, and whose concatenation is the
    training set: nothing is dropped or duplicated. *)
Theorem partition_complete trainData (numWorkers : Z) :
  1 <= numWorkers ->
  exists parts,
    partitionData trainData numWorkers = Ok parts /\
    length parts = Z.to_nat numWorkers /\
    concat parts = trainData /\
    cut (len trainData) numWorkers 0 = 0 /\
    cut (len trainData) numWorkers numWorkers = len trainData /\
    forall i : nat, Z.of_nat i < numWorkers ->
      let lo := cut (len trainData) numWorkers (Z.of_nat i) in
      let hi := cut (len trainData) numWorkers (Z.of_nat i + 1) in
      0 <= lo <= hi /\ hi <= len trainData /\
      parts !! i = Some (take (Z.to_nat (hi - lo)) (drop (Z.to_nat lo) trainData)).
Proof.
  intros HW. eexists. split; [apply partition_spec; lia|].
  split; [rewrite length_map, length_seq; reflexivity|].
  split.
  { rewrite concat_chunks by lia. rewrite Z2Nat.id by lia.
    rewrite cut_last. rewrite Nat2Z.id. apply firstn_all. }
  split; [apply cut_first; lia|].
  split; [apply cut_last|].
  intros i Hi lo hi.
  pose proof (cut_mono (len trainData) numWorkers (Z.of_nat i) HW
                ltac:(lia) ltac:(lia)) as Hc.
  split; [exact (proj1 Hc)|]. split; [exact (proj2 Hc)|].
  rewrite list_lookup_fmap, lookup_seq_lt by lia. reflexivity.
Qed.

(** C5, as the code has it — the first [numWorkers - 1] partitions hold
    [N / numWorkers] points each and the last one holds
    [N / numWorkers + N mod numWorkers]; two sizes differ by at most
    [N mod numWorkers]; 100 points across 4 workers give 25, 25, 25, 25. *)
Theorem partition_sizes trainData (numWorkers : Z) parts :
  1 <= numWorkers ->
  partitionData trainData numWorkers = Ok parts ->
  (forall (i : nat) part, parts !! i = Some part ->
     len part = if Z.of_nat i =? numWorkers - 1
                then len trainData / numWorkers + len trainData mod numWorkers
                else len trainData / numWorkers) /\
  (forall (i j : nat) pi pj, parts !! i = Some pi -> parts !! j = Some pj ->
     Z.abs (len pi - len pj) <= len trainData mod numWorkers) /\
  (len trainData = 100 -> numWorkers = 4 ->
   map (fun part => len part) parts = [25; 25; 25; 25]).
Proof.
  intros HW Hp.
  assert (Hsz : forall (i : nat) part, parts !! i = Some part ->
     len part = if Z.of_nat i =? numWorkers - 1
                then len trainData / numWorkers + len trainData mod numWorkers
                else len trainData / numWorkers).
  { intros i part Hi.
    destruct (partition_lookup _ _ _ _ _ HW Hp Hi) as [Hlt ->].
    apply chunk_sizes; lia. }
  split; [exact Hsz|]. split.
  - intros i j pi pj Hi Hj.
    rewrite (Hsz _ _ Hi), (Hsz _ _ Hj).
    pose proof (Z.mod_pos_bound (len trainData) numWorkers ltac:(lia)).
    destruct (Z.of_nat i =? numWorkers - 1); destruct (Z.of_nat j =? numWorkers - 1); lia.
  - intros Hn ->.
    rewrite partition_spec in Hp by lia. injection Hp as <-.
    cbn [Z.to_nat Pos.to_nat Pos.iter_op Nat.add seq map].
    rewrite !chunk_sizes by lia. rewrite Hn. reflexivity.
Qed.

(** C4, as the code has it — the trainer validates nothing and raises no
    configuration error.  With at least one worker it starts one goroutine
    per worker whatever the training-set size, the epoch count and the batch
    size are; when the workers outnumber the data points, every worker but
    the last starts on an empty partition.  With no worker it stops on the
    runtime panic of an integer division by zero ([len(trainData) /
    numWorkers]), with a negative worker count on that of [make] with a
    negative length, in both cases while partitioning, before any worker
    starts.
    Whenever the worker count lies between 1 and the training-set size, every
    worker receives at least one data point. *)
Theorem no_configuration_check trainData (featureCount : nat)
    (numWorkers batchSize epochs : Z) (learningRate : F) :
  (1 <= numWorkers ->
   exists parts,
     partitionData trainData numWorkers = Ok parts /\
     startTraining trainData featureCount numWorkers batchSize epochs learningRate
     = Ok (mkWorld (newModel featureCount)
             (map (fun w => trainWorker w epochs learningRate)
                  (newWorkers parts batchSize))
             None) /\
     length (newWorkers parts batchSize) = Z.to_nat numWorkers /\
     (len trainData < numWorkers ->
      forall i : nat, Z.of_nat i < numWorkers - 1 -> parts !! i = Some []) /\
     (numWorkers <= len trainData ->
      forall (i : nat) part, parts !! i = Some part -> 1 <= len part)) /\
  (numWorkers = 0 ->
   partitionData trainData numWorkers = Panicked DivideByZero /\
   startTraining trainData featureCount numWorkers batchSize epochs learningRate
   = Panicked DivideByZero) /\
  (numWorkers < 0 ->
   partitionData trainData numWorkers = Panicked MakeLen /\
   startTraining trainData featureCount numWorkers batchSize epochs learningRate
   = Panicked MakeLen).
Proof.
  split.
  - intros HW. eexists. split; [apply partition_spec; lia|].
    split; [unfold startTraining; rewrite partition_spec by lia; reflexivity|].
    split; [unfold newWorkers; rewrite length_imap, length_map, length_seq; reflexivity|].
    split.
    + intros Hlt i Hi.
      rewrite list_lookup_fmap, lookup_seq_lt by lia. cbn. f_equal.
      apply length_zero_iff_nil.
      pose proof (chunk_sizes trainData numWorkers i HW ltac:(lia)) as Hs.
      destruct (Z.of_nat i =? numWorkers - 1) eqn:E; [lia|].
      rewrite Z.div_small in Hs by lia. lia.
    + intros Hle i part Hi.
      rewrite list_lookup_fmap in Hi.
      destruct (seq 0 (Z.to_nat numWorkers) !! i) as [k|] eqn:Hk; [|discriminate].
      apply lookup_seq in Hk as [-> Hlt]. cbn in Hi. injection Hi as <-.
      rewrite chunk_sizes by lia.
      assert (1 <= len trainData / numWorkers) by (apply Z.div_le_lower_bound; lia).
      pose proof (Z.mod_pos_bound (len trainData) numWorkers ltac:(lia)).
      destruct (Z.of_nat i =? numWorkers - 1); lia.
  - split.
    + intros ->. split; reflexivity.
    + intros HW. unfold startTraining, partitionData.
      destruct (numWorkers <? 0) eqn:E1; [split; reflexivity|lia].
Qed.

(** ** One goroutine alone *)

Lemma interp_bind {A B} (p : @Prog F A) (f : A -> @Prog F B) m :
  interp (p ≫= f) m = andThen (interp p m) (fun a m' => interp (f a) m').
Proof.
  revert m. induction p as [a|e| |r k IH|r k IH|w k IH]; intros m; cbn.
  - reflexivity.
  - reflexivity.
  - reflexivity.
  - destruct (getF m r); [apply IH|reflexivity].
  - apply IH.
  - destruct (perform m w); [apply IH|reflexivity|reflexivity].
Qed.

Lemma interp_ret {A} (a : A) m : interp (mret a) m = Finished a m.
Proof. reflexivity. Qed.

Lemma interp_readF (r : RdF) m :
  interp (readF r) m
  = match getF m r with Ok v => Finished v m | Panicked e => Panics e end.
Proof. cbn. destruct (getF m r); reflexivity. Qed.

Lemma interp_readZ (r : RdZ) m : interp (readZ r) m = Finished (getZ m r) m.
Proof. reflexivity. Qed.

Lemma interp_act (w : Wr) m :
  interp (act w) m
  = match perform m w with
    | Done m' => Finished tt m'
    | Wait => Blocks
    | Crash e => Panics e
    end.
Proof. cbn. destruct (perform m w); reflexivity. Qed.

Lemma interp_lift {A} (r : Res A) m :
  interp (lift r) m = match r with Ok a => Finished a m | Panicked e => Panics e end.
Proof. destruct r; reflexivity. Qed.

Lemma noWrites_bind {A B} (p : @Prog F A) (f : A -> @Prog F B) :
  noWrites p -> (forall a, noWrites (f a)) -> noWrites (p ≫= f).
Proof.
  intros Hp Hf. induction p as [a|e| |r k IH|r k IH|w k IH]; cbn in *.
  - apply Hf.
  - exact I.
  - exact I.
  - intros v. apply IH, Hp.
  - intros z. apply IH, Hp.
  - contradiction.
Qed.

Lemma noWrites_lift {A} (r : Res A) : noWrites (@lift F A r).
Proof. destruct r; exact I. Qed.

Lemma noWrites_forUpto {S} (n : nat) (body : Z -> S -> @Prog F S) :
  (forall j s, noWrites (body j s)) ->
  forall j0 s, noWrites (forUpto n j0 body s).
Proof.
  intros Hb. induction n as [|n IH]; intros j0 s; cbn [forUpto].
  - exact I.
  - apply noWrites_bind; auto.
Qed.

Lemma noWrites_interp {A} (p : @Prog F A) m a m' :
  noWrites p -> interp p m = Finished a m' -> m' = m.
Proof.
  revert m. induction p as [b|e| |r k IH|r k IH|w k IH]; intros m Hp Hi; cbn in *.
  - congruence.
  - discriminate.
  - discriminate.
  - destruct (getF m r); [eauto|discriminate].
  - eauto.
  - contradiction.
Qed.

Lemma index_lookup {A} (s : list A) (i : nat) x :
  s !! i = Some x -> index s (Z.of_nat i) = Ok x.
Proof.
  intros H. unfold index. destruct (0 <=? Z.of_nat i) eqn:E; [|lia].
  rewrite Nat2Z.id, H. reflexivity.
Qed.

Lemma predict_noWrites (features : list F) : noWrites (predict features).
Proof.
  unfold predict. intros b n. cbn.
  apply noWrites_forUpto. intros j s w. cbn.
  apply (noWrites_bind (lift (index features j))); [apply noWrites_lift|].
  intros a. exact I.
Qed.

Lemma interp_predict_loop m (features : list F) (n : nat) :
  forall (j : nat) (acc : F),
    (j + n = length (Weights m))%nat ->
    (length (Weights m) <= length features)%nat ->
    interp (forUpto n (Z.of_nat j)
              (fun i sum =>
                 weight ← readF (RdWeight i);
                 f ← lift (index features i);
                 mret (fadd sum (fmul weight f))) acc) m
    = Finished (fold_left (fun acc wf => fadd acc (fmul (fst wf) (snd wf)))
                  (zip (drop j (Weights m)) (drop j features)) acc) m.
Proof.
  induction n as [|n IH]; intros j acc Hj Hlen.
  - cbn [forUpto interp]. rewrite (drop_ge (Weights m)) by lia. reflexivity.
  - destruct (lookup_lt_is_Some_2 (Weights m) j ltac:(lia)) as [w Hw].
    destruct (lookup_lt_is_Some_2 features j ltac:(lia)) as [f Hf].
    cbn [forUpto]. rewrite !interp_bind, interp_readF. cbn [getF].
    rewrite (index_lookup _ _ _ Hw). cbn [andThen].
    rewrite interp_bind, interp_lift, (index_lookup _ _ _ Hf). cbn [andThen].
    rewrite interp_ret. cbn [andThen].
    replace (Z.of_nat j + 1) with (Z.of_nat (S j)) by lia.
    rewrite IH by lia.
    rewrite (drop_S _ _ _ Hw), (drop_S _ _ _ Hf). reflexivity.
Qed.

Lemma interp_predict m (features : list F) :
  (length (Weights m) <= length features)%nat ->
  interp (predict features) m = Finished (spec_predict m features) m.
Proof.
  intros Hlen. unfold predict.
  rewrite interp_bind, interp_readF. cbn [getF andThen].
  rewrite interp_bind, interp_readZ. cbn [getZ andThen].
  rewrite Nat2Z.id.
  apply (interp_predict_loop m features (length (Weights m)) 0%nat (Bias m)); lia.
Qed.

(** C7 — [predict] returns the bias plus the dot product of the weights with
    the features, leaves the model as it found it, and is made of reads
    only. *)
Theorem predict_pure m (features : list F) :
  (length (Weights m) <= length features)%nat ->
  interp (predict features) m = Finished (spec_predict m features) m /\
  noWrites (predict features).
Proof.
  intros Hlen. split; [apply interp_predict; exact Hlen|apply predict_noWrites].
Qed.

(** ** The gradient of a batch *)

Lemma sumFrom_cons (a x : F) (xs : list F) :
  sumFrom a (x :: xs) = sumFrom (fadd a x) xs.
Proof. reflexivity. Qed.

Lemma interp_bump m (error : F) (features : list F) :
  forall (pre mid post : list F),
    length mid = length features ->
    interp (forRange features (len pre)
              (fun j feature wg =>
                 g ← lift (index wg j);
                 mret (<[Z.to_nat j := fadd g (fmul error feature)]> wg))
              (pre ++ mid ++ post)) m
    = Finished (pre ++ zip_with (fun g f => fadd g (fmul error f)) mid features ++ post) m.
Proof.
  induction features as [|f fs IH]; intros pre mid post Hlen.
  - destruct mid; [|discriminate]. reflexivity.
  - destruct mid as [|g mid]; [discriminate|].
    cbn [forRange]. rewrite !interp_bind, interp_lift.
    rewrite (index_lookup _ _ g) by (rewrite lookup_app_r, Nat.sub_diag by lia; reflexivity).
    cbn [andThen]. rewrite interp_ret. cbn [andThen].
    rewrite Nat2Z.id, insert_app_r_alt, Nat.sub_diag by lia.
    cbn [app insert list_insert].
    specialize (IH (pre ++ [fadd g (fmul error f)]) mid post).
    rewrite length_app in IH. cbn [length] in IH.
    replace (Z.of_nat (length pre + 1)) with (len pre + 1) in IH by lia.
    rewrite <- app_assoc in IH. cbn [app] in IH.
    rewrite IH by (cbn in Hlen; lia).
    rewrite <- app_assoc. reflexivity.
Qed.

Lemma interp_accumulate m (dp : DataPoint) (wg : list F) (bg be : F) :
  length (Features dp) = length (Weights m) ->
  length wg = length (Weights m) ->
  interp (accumulate dp (wg, bg, be)) m
  = Finished (zip_with (fun g f => fadd g (fmul (spec_error m dp) f)) wg (Features dp),
              fadd bg (spec_error m dp),
              fadd be (pow2 (spec_error m dp))) m.
Proof.
  intros Hf Hw. unfold accumulate.
  rewrite interp_bind, interp_predict by lia. cbn [andThen].
  rewrite interp_bind.
  pose proof (interp_bump m (fsub (spec_predict m (Features dp)) (Label dp))
                (Features dp) [] wg []) as Hb.
  change (len (@nil F)) with 0 in Hb. cbn [app] in Hb. rewrite !app_nil_r in Hb.
  rewrite Hb by lia. cbn [andThen]. rewrite interp_ret. reflexivity.
Qed.

Lemma interp_gradient m batch :
  Forall (fun dp => length (Features dp) = length (Weights m)) batch ->
  forall (wg : list F) (bg be : F),
    length wg = length (Weights m) ->
    interp (forEach batch accumulate (wg, bg, be)) m
    = Finished
        (imap (fun j g =>
                 sumFrom g (map (fun dp => fmul (spec_error m dp) (nth j (Features dp) f0))
                                batch)) wg,
         sumFrom bg (map (spec_error m) batch),
         sumFrom be (map (fun dp => pow2 (spec_error m dp)) batch)) m.
Proof.
  induction 1 as [|dp batch Hdp Hall IH]; intros wg bg be Hw.
  - cbn [forEach interp map sumFrom fold_left]. f_equal. f_equal. f_equal.
    apply list_eq. intros i. rewrite list_lookup_imap.
    destruct (wg !! i); reflexivity.
  - cbn [forEach]. rewrite interp_bind, interp_accumulate by lia. cbn [andThen].
    rewrite IH by (rewrite length_zip_with; lia).
    f_equal. f_equal. f_equal.
    apply list_eq. intros i. rewrite !list_lookup_imap, lookup_zip_with.
    destruct (wg !! i) as [g|] eqn:Hg; [|reflexivity]. cbn.
    destruct (lookup_lt_is_Some_2 (Features dp) i) as [f Hfi].
    { apply lookup_lt_Some in Hg. lia. }
    rewrite Hfi. cbn. rewrite (nth_lookup_Some _ _ _ _ Hfi). reflexivity.
Qed.

(** ** Applying a gradient *)

Lemma interp_descent (learningRate : F) (weightGradients : list F) (n : Z)
    (b : F) (u : Z) (M : gmap Z F) (Mm : bool) (rest : list F) :
  forall pre : list F,
    (length pre + length rest <= length weightGradients)%nat ->
    interp (forUpto (length rest) (len pre)
              (fun j _ =>
                 cur ← readF (RdWeight j);
                 g ← lift (index weightGradients j);
                 act (WrWeight j (fsub cur (fdiv (fmul learningRate g) (of_int n)))))
              tt)
           (mkModel (pre ++ rest) b true u M Mm)
    = Finished tt
        (mkModel (pre ++ zip_with (descend learningRate n) rest
                           (drop (length pre) weightGradients))
                 b true u M Mm).
Proof.
  induction rest as [|w rest IH]; intros pre Hlen.
  - reflexivity.
  - cbn [length] in Hlen.
    destruct (lookup_lt_is_Some_2 weightGradients (length pre) ltac:(lia)) as [g Hg].
    cbn [length forUpto]. rewrite !interp_bind, interp_readF. cbn [getF Weights].
    rewrite (index_lookup _ _ w) by (rewrite lookup_app_r, Nat.sub_diag by lia; reflexivity).
    cbn [andThen]. rewrite interp_bind, interp_lift, (index_lookup _ _ _ Hg).
    cbn [andThen]. rewrite interp_act. cbn [perform Weights].
    assert (Hin : (0 <=? len pre) && (len pre <? len (pre ++ w :: rest)) = true).
    { rewrite length_app. cbn [length]. lia. }
    rewrite Hin. cbn [andThen Bias mu Updates Metrics MetricsMu].
    rewrite Nat2Z.id, insert_app_r_alt, Nat.sub_diag by lia.
    cbn [insert list_insert].
    specialize (IH (pre ++ [fsub w (fdiv (fmul learningRate g) (of_int n))])).
    rewrite length_app in IH. cbn [length] in IH.
    replace (Z.of_nat (length pre + 1)) with (len pre + 1) in IH by lia.
    rewrite <- app_assoc in IH. cbn [app] in IH.
    rewrite IH by lia.
    rewrite <- app_assoc. cbn [app].
    rewrite (drop_S _ _ _ Hg). cbn [zip_with].
    replace (length pre + 1)%nat with (S (length pre)) by lia. reflexivity.
Qed.

Lemma interp_applyGradient (learningRate : F) (weightGradients : list F)
    (biasGradient : F) (n : Z) m :
  mu m = false ->
  (length (Weights m) <= length weightGradients)%nat ->
  interp (applyGradient learningRate weightGradients biasGradient n) m
  = Finished tt
      (mkModel (zip_with (descend learningRate n) (Weights m) weightGradients)
               (descend learningRate n (Bias m) biasGradient)
               false (wrap64 (Updates m + 1)) (Metrics m) (MetricsMu m)).
Proof.
  destruct m as [ws b l u M Mm]. cbn [mu Weights Bias Updates Metrics MetricsMu].
  intros -> Hlen. unfold applyGradient.
  rewrite interp_bind, interp_act. cbn [perform mu andThen Weights Bias Updates
                                         Metrics MetricsMu].
  rewrite interp_bind, interp_readZ. cbn [getZ andThen Weights].
  rewrite Nat2Z.id, interp_bind.
  pose proof (interp_descent learningRate weightGradients n b u M Mm ws []) as Hd.
  change (len (@nil F)) with 0 in Hd. cbn [app length drop] in Hd.
  rewrite Hd by (cbn; lia). cbn [andThen].
  rewrite interp_bind, interp_readF. cbn [getF Bias andThen].
  rewrite interp_bind, interp_act. cbn [perform andThen Weights Bias mu Updates
                                        Metrics MetricsMu].
  rewrite interp_bind, interp_readZ. cbn [getZ andThen Updates].
  rewrite interp_bind, interp_act. cbn [perform andThen Weights Bias mu Updates
                                        Metrics MetricsMu].
  rewrite interp_act. cbn [perform mu Weights Bias Updates Metrics MetricsMu].
  reflexivity.
Qed.

Lemma wrap64_id (z : Z) : - 2 ^ 63 <= z <= max_int64 -> wrap64 z = z.
Proof.
  unfold wrap64, max_int64. intros H.
  rewrite Z.mod_small by lia. lia.
Qed.

Lemma interp_trainBatch (learningRate : F) batch (gradientSum : Z)
    (batchErrors : list F) m :
  mu m = false ->
  Forall (fun dp => length (Features dp) = length (Weights m)) batch ->
  interp (trainBatch learningRate batch (gradientSum, batchErrors)) m
  = Finished (wrap64 (gradientSum + 1), batchErrors ++ [spec_batchError m batch])
      (mkModel
         (imap (fun j w => descend learningRate (len batch) w
                             (spec_weightGradient m batch j)) (Weights m))
         (descend learningRate (len batch) (Bias m) (spec_biasGradient m batch))
         false (wrap64 (Updates m + 1)) (Metrics m) (MetricsMu m)).
Proof.
  intros Hmu Hall. unfold trainBatch.
  rewrite interp_bind, interp_readZ. cbn [getZ andThen].
  rewrite Nat2Z.id, interp_bind.
  rewrite interp_gradient by (try rewrite length_replicate; auto).
  cbn [andThen].
  rewrite interp_bind, interp_applyGradient
    by (try rewrite length_imap, length_replicate; auto).
  cbn [andThen]. rewrite interp_ret. unfold spec_batchError.
  f_equal. f_equal.
  apply list_eq. intros i.
  rewrite lookup_zip_with, !list_lookup_imap.
  destruct (Weights m !! i) as [w|] eqn:Hw; [|reflexivity]. cbn.
  rewrite lookup_replicate_2 by (apply lookup_lt_Some in Hw; lia).
  reflexivity.
Qed.

(** C6 — for a batch the worker computes, for every feature dimension, the
    sum over the batch of [(prediction - label) * feature], the sum of
    [(prediction - label)] for the bias and the mean squared batch error
    (which it appends to the batch errors); applying the batch subtracts
    [learningRate * gradient / len(batch)] from every weight and from the
    bias and increments the update counter by one. *)
Theorem trainBatch_spec (learningRate : F) batch (gradientSum : Z)
    (batchErrors : list F) m :
  mu m = false ->
  Forall (fun dp => length (Features dp) = length (Weights m)) batch ->
  - 2 ^ 63 <= Updates m < max_int64 ->
  interp (trainBatch learningRate batch (gradientSum, batchErrors)) m
  = Finished (wrap64 (gradientSum + 1), batchErrors ++ [spec_batchError m batch])
      (spec_applyGradient learningRate m
         (spec_weightGradient m batch) (spec_biasGradient m batch) (len batch)).
Proof.
  intros Hmu Hall Hu. rewrite interp_trainBatch by assumption.
  unfold spec_applyGradient. rewrite Hmu.
  rewrite (wrap64_id (Updates m + 1)) by (unfold max_int64 in *; lia). reflexivity.
Qed.

(** ** The locking discipline of [trainWorker] *)

Lemma wp_bind {A B} (p : @Prog F A) (f : A -> @Prog F B) Q h c :
  wp p (fun a h' c' => wp (f a) Q h' c') h c -> wp (p ≫= f) Q h c.
Proof.
  revert h c. induction p as [a|e| |r k IH|r k IH|w k IH]; intros h c H.
  - exact H.
  - exact I.
  - exact I.
  - intros v. apply IH, H.
  - cbn in H |- *. destruct r, h as [u|]; try (intros z'; apply IH, H). apply IH, H.
  - cbn in H |- *. destruct w.
    + destruct H as [H1 H2]. split; [exact H1|apply IH, H2].
    + destruct H as [H1 H2]. split; [exact H1|apply IH, H2].
    + destruct H as (u0 & H1 & H2 & H3). exists u0.
      split; [exact H1|]. split; [exact H2|]. apply IH, H3.
    + destruct H as [H1 H2]. split; [exact H1|]. intros u0. apply IH, H2.
    + destruct H as [H1 H2]. split; [exact H1|apply IH, H2].
    + apply IH, H.
    + apply IH, H.
    + apply IH, H.
Qed.

Lemma wp_noWrites {A} (p : @Prog F A) Q h c :
  noWrites p -> (forall a, Q a h c) -> wp p Q h c.
Proof.
  intros Hp HQ. induction p as [a|e| |r k IH|r k IH|w k IH]; cbn in *.
  - apply HQ.
  - exact I.
  - exact I.
  - intros v. apply IH, Hp.
  - destruct r, h as [u|]; try (intros z'; apply IH, Hp). apply IH, Hp.
  - contradiction.
Qed.

Lemma wp_lift {A} (r : Res A) (Q : A -> option Z -> Z -> Prop) h c :
  (forall a, r = Ok a -> Q a h c) -> wp (@lift F A r) Q h c.
Proof. intros H. destruct r; cbn; [apply H; reflexivity|exact I]. Qed.

Lemma noWrites_forRange {X S} (xs : list X) (body : Z -> X -> S -> @Prog F S) :
  (forall j x s, noWrites (body j x s)) ->
  forall j0 s, noWrites (forRange xs j0 body s).
Proof.
  intros Hb. induction xs as [|x xs IH]; intros j0 s; cbn [forRange].
  - exact I.
  - apply noWrites_bind; auto.
Qed.

Lemma noWrites_forEach {X S} (xs : list X) (body : X -> S -> @Prog F S) :
  (forall x s, noWrites (body x s)) ->
  forall s, noWrites (forEach xs body s).
Proof.
  intros Hb. induction xs as [|x xs IH]; intros s; cbn [forEach].
  - exact I.
  - apply noWrites_bind; auto.
Qed.

Lemma accumulate_noWrites (dp : DataPoint) (acc : list F * F * F) :
  noWrites (accumulate dp acc).
Proof.
  destruct acc as [[wg bg] be]. unfold accumulate.
  apply noWrites_bind; [apply predict_noWrites|]. intros prediction.
  apply noWrites_bind; [|intros a; exact I].
  apply noWrites_forRange. intros j x s.
  apply noWrites_bind; [apply noWrites_lift|]. intros g. exact I.
Qed.

Lemma wp_descent (learningRate : F) (weightGradients : list F) (n : Z)
    (Q : unit -> option Z -> Z -> Prop) (u c : Z) (k : nat) :
  Q tt (Some u) c ->
  forall j0,
    wp (forUpto k j0
          (fun j _ =>
             cur ← readF (RdWeight j);
             g ← lift (index weightGradients j);
             act (WrWeight j (fsub cur (fdiv (fmul learningRate g) (of_int n)))))
          tt) Q (Some u) c.
Proof.
  intros HQ. induction k as [|k IH]; intros j0; cbn [forUpto].
  - exact HQ.
  - apply wp_bind. intros cur. apply wp_bind. apply wp_lift. intros g _.
    cbn. split; [eexists; reflexivity|]. apply IH.
Qed.

Lemma wp_applyGradient (learningRate : F) (weightGradients : list F)
    (biasGradient : F) (n : Z) (Q : unit -> option Z -> Z -> Prop) (c : Z) :
  Q tt None (c + 1) ->
  wp (applyGradient learningRate weightGradients biasGradient n) Q None c.
Proof.
  intros HQ. unfold applyGradient.
  apply wp_bind. cbn. split; [reflexivity|]. intros u l.
  apply wp_bind. apply wp_descent. intros b.
  cbn. split; [eexists; reflexivity|].
  exists u. split; [reflexivity|]. split; [reflexivity|].
  split; [eexists; reflexivity|]. exact HQ.
Qed.

Lemma wp_trainBatch (learningRate : F) batch (st : Z * list F)
    (Q : Z * list F -> option Z -> Z -> Prop) (c : Z) :
  (forall st', Q st' None (c + 1)) ->
  wp (trainBatch learningRate batch st) Q None c.
Proof.
  intros HQ. destruct st as [gradientSum batchErrors]. unfold trainBatch.
  apply wp_bind. intros n.
  apply wp_bind. apply wp_noWrites.
  { apply noWrites_forEach. apply accumulate_noWrites. }
  intros [[wg bg] be].
  apply wp_bind. apply wp_applyGradient. apply HQ.
Qed.

Lemma batchCount_0 (batchSize : Z) : 1 <= batchSize -> batchCount 0 batchSize = 0.
Proof. intros H. unfold batchCount. apply Z.div_small. lia. Qed.

Lemma batchesFrom_0 (n batchSize : Z) :
  1 <= batchSize -> 0 <= n -> batchesFrom n batchSize 0 = batchCount n batchSize.
Proof.
  intros Hb Hn. unfold batchesFrom. destruct (0 <? n) eqn:E.
  - rewrite Z.sub_0_r. reflexivity.
  - replace n with 0 by lia. symmetry. apply batchCount_0. lia.
Qed.

Lemma batchesFrom_step (n batchSize i : Z) :
  1 <= batchSize -> i < n ->
  batchesFrom n batchSize i = 1 + batchesFrom n batchSize (i + batchSize).
Proof.
  intros Hb Hi. unfold batchesFrom, batchCount.
  destruct (i <? n) eqn:E1; [|lia].
  destruct (i + batchSize <? n) eqn:E2.
  - replace (n - i + batchSize - 1) with (n - (i + batchSize) + batchSize - 1 + 1 * batchSize)
      by lia.
    rewrite Z.div_add by lia. lia.
  - symmetry. apply (Z.div_unique _ _ 1 (n - i - 1)); lia.
Qed.

Lemma wp_batchLoop (learningRate : F) data (batchSize : Z)
    (Q : Z * list F -> option Z -> Z -> Prop) :
  1 <= batchSize ->
  forall (fuel : nat) (i : Z) (st : Z * list F) (c : Z),
    (forall st', Q st' None (c + batchesFrom (len data) batchSize i)) ->
    wp (batchLoop fuel data batchSize learningRate i st) Q None c.
Proof.
  intros Hb. induction fuel as [|fuel IH]; intros i st c HQ; cbn [batchLoop].
  - destruct (i <? len data) eqn:E; [exact I|].
    cbn. specialize (HQ st). unfold batchesFrom in HQ. rewrite E, Z.add_0_r in HQ.
    exact HQ.
  - destruct (i <? len data) eqn:E.
    + apply wp_bind. apply wp_lift. intros batch _.
      apply wp_bind. apply wp_trainBatch. intros st'.
      apply IH. intros st''. specialize (HQ st'').
      rewrite (batchesFrom_step _ _ i) in HQ by lia.
      replace (c + 1 + batchesFrom (len data) batchSize (i + batchSize))
        with (c + (1 + batchesFrom (len data) batchSize (i + batchSize))) by lia.
      exact HQ.
    + cbn. specialize (HQ st). unfold batchesFrom in HQ. rewrite E, Z.add_0_r in HQ.
      exact HQ.
Qed.

Lemma wp_trainEpoch (learningRate : F) data (batchSize epoch gradientSum : Z)
    (Q : Z -> option Z -> Z -> Prop) (c : Z) :
  1 <= batchSize ->
  (forall g, Q g None (c + batchCount (len data) batchSize)) ->
  wp (trainEpoch data batchSize learningRate epoch gradientSum) Q None c.
Proof.
  intros Hb HQ. unfold trainEpoch.
  apply wp_bind. apply wp_batchLoop; [exact Hb|]. intros [g errs].
  rewrite batchesFrom_0 by lia.
  cbn. apply HQ.
Qed.

Lemma wp_epochs (learningRate : F) data (batchSize : Z)
    (Q : Z -> option Z -> Z -> Prop) :
  1 <= batchSize ->
  forall (n : nat) (j0 g c : Z),
    (forall g', Q g' None (c + Z.of_nat n * batchCount (len data) batchSize)) ->
    wp (forUpto n j0 (trainEpoch data batchSize learningRate) g) Q None c.
Proof.
  intros Hb. induction n as [|n IH]; intros j0 g c HQ; cbn [forUpto].
  - cbn. specialize (HQ g). rewrite Z.add_0_r in HQ. exact HQ.
  - apply wp_bind. apply wp_trainEpoch; [exact Hb|]. intros g'.
    apply IH. intros g''. specialize (HQ g'').
    replace (c + batchCount (len data) batchSize
             + Z.of_nat n * batchCount (len data) batchSize)
      with (c + Z.of_nat (S n) * batchCount (len data) batchSize) by lia.
    exact HQ.
Qed.

Lemma wp_trainWorker (w : Worker) (epochs : Z) (learningRate : F) :
  1 <= BatchSize w -> 0 <= epochs ->
  wp (trainWorker w epochs learningRate)
     (fun _ h c => h = None /\ c = epochs * batchCount (len (Data w)) (BatchSize w))
     None 0.
Proof.
  intros Hb He. unfold trainWorker.
  apply wp_bind. apply wp_epochs; [exact Hb|]. intros g.
  cbn. split; [reflexivity|]. rewrite Z2Nat.id by lia. lia.
Qed.

(** ** Goroutines interleaved: the invariant *)

Lemma sumZ_insert (cs : list Z) (t : nat) (c c' : Z) :
  cs !! t = Some c -> sumZ (<[t := c']> cs) = sumZ cs - c + c'.
Proof.
  unfold sumZ. revert t. induction cs as [|x cs IH]; intros t H.
  - destruct t; discriminate.
  - destruct t as [|t].
    + injection H as ->.
      change (<[0%nat := c']> (c :: cs)) with (c' :: cs). cbn [foldr]. lia.
    + change (<[S t := c']> (x :: cs)) with (x :: <[t := c']> cs).
      cbn [foldr]. rewrite (IH t) by exact H. lia.
Qed.

Lemma wrap64_succ (z : Z) : wrap64 (wrap64 z + 1) = wrap64 (z + 1).
Proof.
  unfold wrap64.
  replace ((z + 2 ^ 63) mod 2 ^ 64 - 2 ^ 63 + 1 + 2 ^ 63)
    with ((z + 2 ^ 63) mod 2 ^ 64 + 1) by lia.
  rewrite Zplus_mod_idemp_l. f_equal. f_equal. lia.
Qed.

Lemma view_Some (holder : option nat) (t : nat) (u v : Z) :
  view holder t u = Some v -> holder = Some t /\ v = u.
Proof.
  unfold view. destruct (decide (holder = Some t)); [|discriminate].
  intros [= <-]. auto.
Qed.

Lemma view_is_Some (holder : option nat) (t : nat) (u : Z) :
  is_Some (view holder t u) -> holder = Some t.
Proof. intros [v Hv]. apply view_Some in Hv. tauto. Qed.

Lemma view_holder (t : nat) (u : Z) : view (Some t) t u = Some u.
Proof. unfold view. destruct (decide (Some t = Some t)); [reflexivity|contradiction]. Qed.

Lemma view_other (holder : option nat) (t : nat) (u : Z) :
  holder <> Some t -> view holder t u = None.
Proof. intros H. unfold view. destruct (decide (holder = Some t)); [contradiction|reflexivity]. Qed.

Lemma view_None (holder : option nat) (t : nat) (u : Z) :
  view holder t u = None -> holder <> Some t.
Proof. unfold view. destruct (decide (holder = Some t)); [discriminate|auto]. Qed.

Lemma inv_update (Ps : list (Z -> Prop)) (W : @World F) holder (cs : list Z) (t : nat)
    (p : Prog Worker) (c : Z) (m' : Model) (p' : Prog Worker) holder' (c' : Z) :
  Inv Ps W holder cs ->
  goroutines W !! t = Some p ->
  cs !! t = Some c ->
  mu m' = bool_decide (is_Some holder') ->
  (forall P, Ps !! t = Some P ->
     wp p' (fun _ h' c'' => h' = None /\ P c'') (view holder' t (Updates m')) c') ->
  (forall t', t' <> t ->
     view holder' t' (Updates m') = view holder t' (Updates (model W))) ->
  Updates m' = wrap64 (sumZ (<[t := c']> cs)) ->
  Inv Ps (setGoroutine W m' t p') holder' (<[t := c']> cs).
Proof.
  intros [Hcs Hns Hmu Hwp Hupd] Hp Hc Hmu' Hp' Hview Hupd'.
  constructor; cbn [setGoroutine model goroutines].
  - rewrite !length_insert. exact Hcs.
  - rewrite length_insert. exact Hns.
  - exact Hmu'.
  - intros t' q c'' n Hq Hc'' Hn.
    destruct (decide (t' = t)) as [->|Hne].
    + rewrite list_lookup_insert_eq in Hq by (apply lookup_lt_Some in Hp; exact Hp).
      rewrite list_lookup_insert_eq in Hc'' by (apply lookup_lt_Some in Hc; exact Hc).
      injection Hq as <-. injection Hc'' as <-. apply Hp'. exact Hn.
    + rewrite list_lookup_insert_ne in Hq by auto.
      rewrite list_lookup_insert_ne in Hc'' by auto.
      rewrite Hview by exact Hne. eapply Hwp; eassumption.
  - exact Hupd'.
Qed.

Lemma step_weights_length (t : nat) (W W' : @World F) (a : Access) :
  step t W = Some (a, W') ->
  length (Weights (model W')) = length (Weights (model W)).
Proof.
  unfold step. intros Hs.
  destruct (crashed W); [discriminate|].
  destruct (goroutines W !! t) as [p|]; [|discriminate].
  destruct p as [x|e| |r k|r k|w k]; try discriminate.
  - injection Hs as <- <-. reflexivity.
  - destruct (getF (model W) r); injection Hs as <- <-; reflexivity.
  - injection Hs as <- <-. reflexivity.
  - destruct (perform (model W) w) as [m'| |e] eqn:Hp; try discriminate;
      injection Hs as <- <-; [|reflexivity].
    cbn [setGoroutine model].
    destruct w; cbn in Hp;
      repeat match type of Hp with
             | (if ?b then _ else _) = _ => destruct b; try discriminate
             end;
      injection Hp as <-; cbn [Weights]; try reflexivity.
    apply length_insert.
Qed.

Lemma step_inv (Ps : list (Z -> Prop)) (W W' : @World F) holder (cs : list Z) (t : nat)
    (a : Access) :
  Inv Ps W holder cs ->
  step t W = Some (a, W') ->
  (exists e, a = LPanic e /\ W' = panicWith W e) \/
  (crashed W' = None /\
   exists holder' cs',
     Inv Ps W' holder' cs' /\
     ownerStep holder t a holder' /\
     (Updates (model W') = Updates (model W) \/
      (exists v, a = LDo (WrUpdates v)) /\
      Updates (model W') = wrap64 (Updates (model W) + 1))).
Proof.
  intros HI Hs. unfold step in Hs.
  destruct (crashed W) eqn:Hcr; [discriminate|].
  destruct (goroutines W !! t) as [p|] eqn:Hp; [|discriminate].
  destruct (lookup_lt_is_Some_2 cs t) as [c Hc].
  { rewrite (inv_cs _ _ _ _ HI). apply lookup_lt_Some in Hp. exact Hp. }
  destruct (lookup_lt_is_Some_2 Ps t) as [n Hn].
  { rewrite (inv_ns _ _ _ _ HI). apply lookup_lt_Some in Hp. exact Hp. }
  pose proof (inv_wp _ _ _ _ HI t p c n Hp Hc Hn) as Hwp.
  pose proof (inv_updates _ _ _ _ HI) as Hupd.
  pose proof (inv_mu _ _ _ _ HI) as Hmu.
  assert (Hid : sumZ (<[t := c]> cs) = sumZ cs) by (rewrite list_insert_id; auto).
  destruct p as [x|e| |r k|r k|w k]; try discriminate.
  - injection Hs as <- <-. left. eauto.
  - destruct (getF (model W) r) as [v|e] eqn:Hg; injection Hs as <- <-.
    + right. split; [exact Hcr|]. exists holder, (<[t := c]> cs).
      split; [|split; [split; [discriminate|reflexivity]|left; reflexivity]].
      eapply inv_update; eauto.
      * intros n' Hn'. rewrite Hn in Hn'. injection Hn' as <-. apply Hwp.
      * rewrite Hid. exact Hupd.
    + left. eauto.
  - injection Hs as <- <-.
    right. split; [exact Hcr|]. exists holder, (<[t := c]> cs).
    split; [|split; [split; [discriminate|reflexivity]|left; reflexivity]].
    eapply inv_update; eauto.
    + intros n' Hn'. rewrite Hn in Hn'. injection Hn' as <-.
      cbn in Hwp. destruct r; [apply Hwp|].
      cbn [getZ]. destruct (view holder t (Updates (model W))) as [u|] eqn:Hv.
      * apply view_Some in Hv as [_ ->]. exact Hwp.
      * apply Hwp.
    + rewrite Hid. exact Hupd.
  - destruct (perform (model W) w) as [m'| |e] eqn:Hperf; try discriminate;
      injection Hs as <- <-; [|left; eauto].
    right. split; [exact Hcr|].
    destruct w as [j v|v|v| | | | |e v]; cbn in Hperf, Hwp.
    + (* WrWeight *)
      destruct ((0 <=? j) && (j <? len (Weights (model W)))); [|discriminate].
      injection Hperf as <-. destruct Hwp as [Hh Hk].
      exists holder, (<[t := c]> cs).
      split; [|split; [split; [intros _; eapply view_is_Some; exact Hh|reflexivity]
                      |left; reflexivity]].
      eapply inv_update; eauto.
      * intros n' Hn'. rewrite Hn in Hn'. injection Hn' as <-. exact Hk.
      * cbn. rewrite Hid. exact Hupd.
    + (* WrBias *)
      injection Hperf as <-. destruct Hwp as [Hh Hk].
      exists holder, (<[t := c]> cs).
      split; [|split; [split; [intros _; eapply view_is_Some; exact Hh|reflexivity]
                      |left; reflexivity]].
      eapply inv_update; eauto.
      * intros n' Hn'. rewrite Hn in Hn'. injection Hn' as <-. exact Hk.
      * cbn. rewrite Hid. exact Hupd.
    + (* WrUpdates *)
      injection Hperf as <-. destruct Hwp as (u & Hh & -> & Hk).
      apply view_Some in Hh as [Hh ->].
      exists holder, (<[t := c + 1]> cs).
      split; [|split; [split; [intros _; exact Hh|reflexivity]|right; split; [eauto|reflexivity]]].
      eapply inv_update; eauto.
      * intros n' Hn'. rewrite Hn in Hn'. injection Hn' as <-.
        cbn [Updates]. rewrite Hh, view_holder. exact Hk.
      * intros t' Hne. rewrite Hh, !view_other by congruence. reflexivity.
      * cbn [Updates]. rewrite (sumZ_insert _ _ c) by exact Hc.
        rewrite Hupd, wrap64_succ. f_equal. lia.
    + (* LockMu *)
      destruct (mu (model W)) eqn:Hl; [discriminate|]. injection Hperf as <-.
      destruct Hwp as [Hh Hk].
      assert (Hnone : holder = None).
      { destruct holder; [|reflexivity]. symmetry in Hmu.
        apply bool_decide_eq_false in Hmu. exfalso. apply Hmu. eauto. }
      exists (Some t), (<[t := c]> cs).
      split; [|split; [split; [exact Hnone|reflexivity]|left; reflexivity]].
      eapply inv_update; eauto.
      * intros n' Hn'. rewrite Hn in Hn'. injection Hn' as <-.
        rewrite view_holder. apply Hk.
      * intros t' Hne. rewrite Hnone, !view_other by congruence. reflexivity.
      * cbn. rewrite Hid. exact Hupd.
    + (* UnlockMu *)
      destruct (mu (model W)) eqn:Hl; [|discriminate]. injection Hperf as <-.
      destruct Hwp as [Hh Hk]. apply view_is_Some in Hh.
      exists None, (<[t := c]> cs).
      split; [|split; [split; [exact Hh|reflexivity]|left; reflexivity]].
      eapply inv_update; eauto.
      * intros n' Hn'. rewrite Hn in Hn'. injection Hn' as <-.
        rewrite view_other by discriminate. exact Hk.
      * intros t' Hne. rewrite Hh, !view_other by congruence. reflexivity.
      * cbn. rewrite Hid. exact Hupd.
    + (* LockMetrics *)
      destruct (MetricsMu (model W)); [discriminate|]. injection Hperf as <-.
      exists holder, (<[t := c]> cs).
      split; [|split; [split; [discriminate|reflexivity]|left; reflexivity]].
      eapply inv_update; eauto.
      * intros n' Hn'. rewrite Hn in Hn'. injection Hn' as <-. exact Hwp.
      * cbn. rewrite Hid. exact Hupd.
    + (* UnlockMetrics *)
      destruct (MetricsMu (model W)); [|discriminate]. injection Hperf as <-.
      exists holder, (<[t := c]> cs).
      split; [|split; [split; [discriminate|reflexivity]|left; reflexivity]].
      eapply inv_update; eauto.
      * intros n' Hn'. rewrite Hn in Hn'. injection Hn' as <-. exact Hwp.
      * cbn. rewrite Hid. exact Hupd.
    + (* WrMetric *)
      injection Hperf as <-.
      exists holder, (<[t := c]> cs).
      split; [|split; [split; [discriminate|reflexivity]|left; reflexivity]].
      eapply inv_update; eauto.
      * intros n' Hn'. rewrite Hn in Hn'. injection Hn' as <-. exact Hwp.
      * cbn. rewrite Hid. exact Hupd.
Qed.

(** The discipline alone, for any batch size and epoch count. *)

Lemma wp_batchLoop_any (learningRate : F) data (batchSize : Z)
    (Q : Z * list F -> option Z -> Z -> Prop) :
  (forall st' c', Q st' None c') ->
  forall (fuel : nat) (i : Z) (st : Z * list F) (c : Z),
    wp (batchLoop fuel data batchSize learningRate i st) Q None c.
Proof.
  intros HQ. induction fuel as [|fuel IH]; intros i st c; cbn [batchLoop].
  - destruct (i <? len data); [exact I|apply HQ].
  - destruct (i <? len data); [|apply HQ].
    apply wp_bind. apply wp_lift. intros batch _.
    apply wp_bind. apply wp_trainBatch. intros st'. apply IH.
Qed.

Lemma wp_epochs_any (learningRate : F) data (batchSize : Z)
    (Q : Z -> option Z -> Z -> Prop) :
  (forall g c', Q g None c') ->
  forall (n : nat) (j0 g c : Z),
    wp (forUpto n j0 (trainEpoch data batchSize learningRate) g) Q None c.
Proof.
  intros HQ. induction n as [|n IH]; intros j0 g c; cbn [forUpto].
  - apply HQ.
  - apply wp_bind. unfold trainEpoch at 1.
    apply wp_bind. apply wp_batchLoop_any. intros [g' errs] c'.
    cbn. apply IH.
Qed.

Lemma wp_trainWorker_any (w : Worker) (epochs : Z) (learningRate : F) :
  wp (trainWorker w epochs learningRate) (fun _ h c => h = None /\ True) None 0.
Proof.
  unfold trainWorker. apply wp_bind. apply wp_epochs_any. intros g c'.
  cbn. auto.
Qed.

(** ** Runs *)

Lemma exec_crashed (sched : list nat) (W : @World F) (e : panic) :
  crashed W = Some e -> exec sched W = ([], W).
Proof.
  intros Hc. induction sched as [|t sched IH]; cbn [exec]; [reflexivity|].
  unfold step. rewrite Hc. exact IH.
Qed.

Lemma exec_weights_length (sched : list nat) :
  forall W : @World F,
    length (Weights (model (exec sched W).2)) = length (Weights (model W)).
Proof.
  induction sched as [|t sched IH]; intros W; cbn [exec]; [reflexivity|].
  destruct (step t W) as [[a W']|] eqn:Hs; [|apply IH].
  specialize (IH W'). destruct (exec sched W') as [tr W'']. cbn [snd] in *.
  rewrite IH. eapply step_weights_length; eauto.
Qed.

Lemma exec_inv (Ps : list (Z -> Prop)) (sched : list nat) :
  forall (W : @World F) holder cs,
    Inv Ps W holder cs ->
    serial holder (exec sched W).1 /\
    (crashed (exec sched W).2 = None ->
     exists holder' cs', Inv Ps (exec sched W).2 holder' cs').
Proof.
  induction sched as [|t sched IH]; intros W holder cs HI; cbn [exec].
  - cbn. split; [exact I|]. eauto.
  - destruct (step t W) as [[a W']|] eqn:Hs; [|eapply IH; eauto].
    destruct (step_inv _ _ _ _ _ _ _ HI Hs)
      as [(e & -> & ->)|(Hc & holder' & cs' & HI' & Ho & _)].
    + rewrite (exec_crashed _ _ e) by reflexivity. cbn. split; [|congruence].
      split; [discriminate|exact I].
    + destruct (IH _ _ _ HI') as [Hser Hinv].
      destruct (exec sched W') as [tr W'']. cbn [fst snd] in *.
      split; [|exact Hinv].
      destruct a as [r v|r z|w|e]; cbn in Ho |- *;
        try (destruct Ho as [Ho ->]; split; [exact Ho|exact Hser]).
      destruct w; cbn in Ho |- *;
        destruct Ho as [Ho ->]; (split; [exact Ho|exact Hser]).
Qed.

Lemma sumZ_replicate_0 (n : nat) : sumZ (replicate n 0) = 0.
Proof. induction n as [|n IH]; [reflexivity|]. cbn. exact IH. Qed.

Lemma init_inv (workers : list Worker) (Pf : Worker -> Z -> Prop)
    (featureCount : nat) (epochs : Z) (learningRate : F) :
  (forall w, w ∈ workers ->
     wp (trainWorker w epochs learningRate) (fun _ h c => h = None /\ Pf w c) None 0) ->
  Inv (map Pf workers)
      (mkWorld (newModel featureCount)
         (map (fun w => trainWorker w epochs learningRate) workers) None)
      None (replicate (length workers) 0).
Proof.
  intros Hw. constructor; cbn [goroutines model newModel mu Updates].
  - rewrite length_replicate, length_map. reflexivity.
  - rewrite !length_map. reflexivity.
  - reflexivity.
  - intros t p c P Hp Hc HP.
    change (map Pf workers) with (Pf <$> workers) in HP.
    rewrite list_lookup_fmap in Hp. rewrite list_lookup_fmap in HP.
    destruct (workers !! t) as [w|] eqn:Hwt; [|discriminate].
    cbn in Hp, HP. injection Hp as <-. injection HP as <-.
    apply lookup_replicate in Hc as [-> _].
    rewrite view_other by discriminate.
    apply Hw. eapply list_elem_of_lookup_2; eauto.
  - rewrite sumZ_replicate_0. reflexivity.
Qed.

Lemma newWorkers_elem (parts : list (list (@DataPoint F))) (batchSize : Z) (w : Worker) :
  w ∈ newWorkers parts batchSize -> BatchSize w = batchSize.
Proof.
  intros Hw. apply list_elem_of_lookup_1 in Hw as [i Hi].
  unfold newWorkers in Hi. rewrite list_lookup_imap in Hi.
  destruct (parts !! i); [|discriminate]. cbn in Hi. injection Hi as <-. reflexivity.
Qed.

Lemma newWorkers_map {B} (g : list (@DataPoint F) -> Z -> B)
    (parts : list (list DataPoint)) (batchSize : Z) :
  map (fun w => g (Data w) (BatchSize w)) (newWorkers parts batchSize)
  = map (fun part => g part batchSize) parts.
Proof.
  apply list_eq. intros i.
  change (map ?f ?l) with (f <$> l).
  rewrite !list_lookup_fmap. unfold newWorkers. rewrite list_lookup_imap.
  destruct (parts !! i); reflexivity.
Qed.

Lemma sumZ_map_mul {A} (k : Z) (f : A -> Z) (l : list A) :
  sumZ (map (fun x => k * f x) l) = k * sumZ (map f l).
Proof.
  unfold sumZ. induction l as [|x l IH]; cbn [map foldr]; [lia|]. rewrite IH. lia.
Qed.

Lemma batchCount_nonneg (n batchSize : Z) :
  1 <= batchSize -> 0 <= n -> 0 <= batchCount n batchSize.
Proof. intros Hb Hn. unfold batchCount. apply Z.div_pos; lia. Qed.

(** [batchCount n batchSize] is ceil(n / batchSize). *)
Lemma batchCount_ceil (n batchSize : Z) :
  1 <= batchSize ->
  batchSize * (batchCount n batchSize - 1) < n <= batchSize * batchCount n batchSize.
Proof.
  intros Hb. unfold batchCount.
  pose proof (Z.div_mod (n + batchSize - 1) batchSize ltac:(lia)) as Hdm.
  pose proof (Z.mod_pos_bound (n + batchSize - 1) batchSize ltac:(lia)) as Hm.
  nia.
Qed.

Lemma sumZ_batchCount_nonneg (parts : list (list (@DataPoint F))) (batchSize : Z) :
  1 <= batchSize ->
  0 <= sumZ (map (fun part => batchCount (len part) batchSize) parts).
Proof.
  intros Hb. unfold sumZ. induction parts as [|part parts IH]; cbn [map foldr]; [lia|].
  pose proof (batchCount_nonneg (len part) batchSize Hb ltac:(lia)). lia.
Qed.

Lemma forallb_lookup {A} (f : A -> bool) (l : list A) (i : nat) (x : A) :
  forallb f l = true -> l !! i = Some x -> f x = true.
Proof.
  revert i. induction l as [|y l IH]; intros i Hall Hi; [destruct i; discriminate|].
  cbn [forallb] in Hall. apply andb_true_iff in Hall as [Hy Hl].
  destruct i as [|i]; [injection Hi as <-; exact Hy|]. eapply IH; eauto.
Qed.

Lemma joined_counts (ns : list Z) (W : @World F) holder (cs : list Z) :
  Inv (map (fun n c => c = n) ns) W holder cs ->
  joined W = true ->
  cs = ns.
Proof.
  intros HI HJ. unfold joined in HJ. apply andb_true_iff in HJ as [_ Hret].
  pose proof (inv_cs _ _ _ _ HI) as Hcs.
  pose proof (inv_ns _ _ _ _ HI) as Hns. rewrite length_map in Hns.
  apply list_eq. intros i.
  destruct (goroutines W !! i) as [p|] eqn:Hp.
  - destruct (lookup_lt_is_Some_2 cs i) as [c Hc].
    { rewrite Hcs. apply lookup_lt_Some in Hp. exact Hp. }
    destruct (lookup_lt_is_Some_2 ns i) as [n Hn].
    { rewrite Hns. apply lookup_lt_Some in Hp. exact Hp. }
    pose proof (forallb_lookup _ _ _ _ Hret Hp) as Hr.
    destruct p; try discriminate.
    assert (HP : map (fun n c => c = n) ns !! i = Some (fun c => c = n)).
    { change (map ?f ?l) with (f <$> l). rewrite list_lookup_fmap, Hn. reflexivity. }
    pose proof (inv_wp _ _ _ _ HI i _ c _ Hp Hc HP) as Hwp.
    cbn in Hwp. destruct Hwp as [_ ->]. rewrite Hc, Hn. reflexivity.
  - apply lookup_ge_None in Hp.
    rewrite (proj2 (lookup_ge_None cs i)) by lia.
    rewrite (proj2 (lookup_ge_None ns i)) by lia. reflexivity.
Qed.

Lemma start_world trainData (featureCount : nat) (numWorkers batchSize epochs : Z)
    (learningRate : F) parts (W0 : World) :
  partitionData trainData numWorkers = Ok parts ->
  startTraining trainData featureCount numWorkers batchSize epochs learningRate = Ok W0 ->
  W0 = mkWorld (newModel featureCount)
         (map (fun w => trainWorker w epochs learningRate) (newWorkers parts batchSize))
         None.
Proof.
  intros Hp Hs. unfold startTraining in Hs. rewrite Hp in Hs.
  cbn in Hs. injection Hs as <-. reflexivity.
Qed.

Lemma wrap64_range (z : Z) : - 2 ^ 63 <= wrap64 z <= max_int64.
Proof.
  unfold wrap64, max_int64.
  pose proof (Z.mod_pos_bound (z + 2 ^ 63) (2 ^ 64) ltac:(lia)). lia.
Qed.

Lemma start_inv trainData (featureCount : nat) (numWorkers batchSize epochs : Z)
    (learningRate : F) (W0 : World) :
  startTraining trainData featureCount numWorkers batchSize epochs learningRate = Ok W0 ->
  exists Ps cs,
    Inv Ps W0 None cs /\ length (Weights (model W0)) = featureCount.
Proof.
  intros Hs.
  destruct (partitionData trainData numWorkers) as [parts|e] eqn:Hp.
  2:{ unfold startTraining in Hs. rewrite Hp in Hs. discriminate. }
  rewrite (start_world _ _ _ _ _ _ _ _ Hp Hs).
  eexists _, _. split.
  - apply (init_inv _ (fun _ _ => True)). intros w _. apply wp_trainWorker_any.
  - cbn. apply length_replicate.
Qed.

(** C9 — in every run of the trainer no access changes the length of the
    weight vector, which stays the feature count the model was built with;
    the update counter changes only by the counter write of a gradient
    application, which adds one: short of the int64 maximum the counter never
    decreases.  A gradient application run on its own adds exactly one and
    keeps the length. *)
Theorem model_invariants trainData (featureCount : nat)
    (numWorkers batchSize epochs : Z) (learningRate : F) (W0 W1 : World)
    (sched : list nat) (t : nat) (a : Access) :
  startTraining trainData featureCount numWorkers batchSize epochs learningRate = Ok W0 ->
  step t (exec sched W0).2 = Some (a, W1) ->
  let W := (exec sched W0).2 in
  length (Weights (model W)) = featureCount /\
  length (Weights (model W1)) = featureCount /\
  (Updates (model W1) = Updates (model W) \/
   (exists v, a = LDo (WrUpdates v)) /\
   Updates (model W1) = wrap64 (Updates (model W) + 1)) /\
  (Updates (model W) < max_int64 ->
   Updates (model W) <= Updates (model W1) <= Updates (model W) + 1) /\
  (forall (lr : F) (weightGradients : list F) (biasGradient : F) (n : Z) m,
     mu m = false ->
     (length (Weights m) <= length weightGradients)%nat ->
     exists m',
       interp (applyGradient lr weightGradients biasGradient n) m = Finished tt m' /\
       length (Weights m') = length (Weights m) /\
       Updates m' = wrap64 (Updates m + 1)).
Proof.
  intros Hs Hstep W.
  destruct (start_inv _ _ _ _ _ _ _ Hs) as (Ps & cs & HI & Hlen).
  assert (HlenW : length (Weights (model W)) = featureCount).
  { unfold W. rewrite exec_weights_length. exact Hlen. }
  split; [exact HlenW|].
  split; [rewrite (step_weights_length _ _ _ _ Hstep); exact HlenW|].
  assert (Hcr : crashed W = None).
  { unfold step in Hstep. fold W in Hstep. destruct (crashed W); [discriminate|reflexivity]. }
  destruct (proj2 (exec_inv _ sched _ _ _ HI) Hcr) as (holder & cs' & HI').
  fold W in HI'.
  assert (Hupd : Updates (model W1) = Updates (model W) \/
            (exists v, a = LDo (WrUpdates v)) /\
            Updates (model W1) = wrap64 (Updates (model W) + 1)).
  { destruct (step_inv _ _ _ _ _ _ _ HI' Hstep)
      as [(e & -> & ->)|(_ & _ & _ & _ & _ & Hu)]; [left; reflexivity|exact Hu]. }
  split; [exact Hupd|]. split.
  - intros Hmax.
    pose proof (wrap64_range (sumZ cs')) as Hr.
    rewrite <- (inv_updates _ _ _ _ HI') in Hr.
    destruct Hupd as [->|[_ ->]]; [lia|].
    rewrite wrap64_id by (unfold max_int64 in *; lia). lia.
  - intros lr wg bg n m Hmu Hl. eexists. split; [apply interp_applyGradient; assumption|].
    cbn [Weights Updates]. split; [|reflexivity].
    rewrite length_zip_with. lia.
Qed.

(** ** The batches of an epoch *)

Lemma chunks_nonempty {A} (size : nat) (fuel : nat) :
  (1 <= size)%nat ->
  forall l : list A, Forall (fun b => 1 <= len b) (chunks fuel size l).
Proof.
  intros Hs. induction fuel as [|fuel IH]; intros l; cbn [chunks]; [constructor|].
  destruct l as [|x l]; constructor; [|apply IH].
  rewrite length_take. cbn [length]. lia.
Qed.

Lemma chunks_length_pos {A} (size fuel : nat) (l : list A) :
  l <> [] -> (1 <= fuel)%nat -> 1 <= len (chunks fuel size l).
Proof.
  intros Hl Hf. destruct fuel as [|fuel]; [lia|].
  destruct l as [|x l]; [contradiction|]. cbn [chunks length]. lia.
Qed.

Lemma chunks_concat {A} (size : nat) (fuel : nat) :
  (1 <= size)%nat ->
  forall l : list A, (length l <= fuel)%nat -> concat (chunks fuel size l) = l.
Proof.
  intros Hs. induction fuel as [|fuel IH]; intros l Hf; cbn [chunks].
  - destruct l; [reflexivity|cbn in Hf; lia].
  - destruct l as [|x l]; [reflexivity|].
    cbn [concat]. rewrite IH; [apply take_drop|].
    rewrite length_drop. cbn [length] in *. lia.
Qed.

Lemma batchLoop_chunks (learningRate : F) data (batchSize : Z) :
  1 <= batchSize ->
  forall (fuel i : nat) (st : Z * list F),
    (length data - i <= fuel)%nat ->
    batchLoop fuel data batchSize learningRate (Z.of_nat i) st
    = forEach (chunks fuel (Z.to_nat batchSize) (drop i data))
        (trainBatch learningRate) st.
Proof.
  intros Hb. induction fuel as [|fuel IH]; intros i st Hf; cbn [batchLoop chunks].
  - destruct (Z.of_nat i <? len data) eqn:E; [lia|reflexivity].
  - destruct (Z.of_nat i <? len data) eqn:E.
    + destruct (drop i data) as [|x rest] eqn:Hd.
      { apply (f_equal length) in Hd. rewrite length_drop in Hd. cbn in Hd. lia. }
      rewrite <- Hd. rewrite slice_ok
        by (destruct (Z.of_nat i + batchSize >? len data) eqn:E2; lia).
      cbn [lift mbind Prog_bind bind forEach].
      replace (take (Z.to_nat ((if Z.of_nat i + batchSize >? len data
                                then len data else Z.of_nat i + batchSize)
                               - Z.of_nat i))
                    (drop (Z.to_nat (Z.of_nat i)) data))
        with (take (Z.to_nat batchSize) (drop i data)).
      2:{ rewrite Nat2Z.id.
          destruct (Z.of_nat i + batchSize >? len data) eqn:E2.
          - rewrite !take_ge by (rewrite length_drop; lia). reflexivity.
          - f_equal. lia. }
      f_equal. apply functional_extensionality. intros st'.
      replace (Z.of_nat i + batchSize) with (Z.of_nat (i + Z.to_nat batchSize)) by lia.
      rewrite IH by lia. rewrite drop_drop. reflexivity.
    + rewrite drop_ge by lia. reflexivity.
Qed.

Lemma batchLoop_batches (learningRate : F) data (batchSize : Z) (st : Z * list F) :
  1 <= batchSize ->
  batchLoop (length data) data batchSize learningRate 0 st
  = forEach (spec_batches batchSize data) (trainBatch learningRate) st.
Proof.
  intros Hb. unfold spec_batches.
  exact (batchLoop_chunks learningRate data batchSize Hb (length data) 0%nat st
           ltac:(lia)).
Qed.

Lemma returns_bind {A B} (p : @Prog F A) (f : A -> @Prog F B) (Q : A -> Prop)
    (R : B -> Prop) :
  returns p Q -> (forall a, Q a -> returns (f a) R) -> returns (p ≫= f) R.
Proof.
  intros Hp Hf. induction p as [a|e| |r k IH|r k IH|w k IH]; cbn in *.
  - apply Hf, Hp.
  - exact I.
  - exact I.
  - intros v. apply IH, Hp.
  - intros z. apply IH, Hp.
  - apply IH, Hp.
Qed.

Lemma returns_mono {A} (p : @Prog F A) (Q R : A -> Prop) :
  returns p Q -> (forall a, Q a -> R a) -> returns p R.
Proof.
  intros Hp HQ. induction p as [a|e| |r k IH|r k IH|w k IH]; cbn in *; auto.
Qed.

Lemma returns_any {A} (p : @Prog F A) : returns p (fun _ => True).
Proof. induction p; cbn; auto. Qed.

Lemma returns_trainBatch (learningRate : F) batch (gradientSum : Z)
    (batchErrors : list F) :
  returns (trainBatch learningRate batch (gradientSum, batchErrors))
    (fun st => length (snd st) = S (length batchErrors)).
Proof.
  unfold trainBatch.
  eapply returns_bind; [apply returns_any|]. intros n _.
  eapply returns_bind; [apply returns_any|]. intros [[wg bg] be] _.
  eapply returns_bind; [apply returns_any|]. intros [] _.
  cbn. rewrite length_app. cbn. lia.
Qed.

Lemma returns_batches (learningRate : F) (batches : list (list (@DataPoint F))) :
  forall st : Z * list F,
    returns (forEach batches (trainBatch learningRate) st)
      (fun st' => length (snd st') = (length (snd st) + length batches)%nat).
Proof.
  induction batches as [|b batches IH]; intros [g errs]; cbn [forEach].
  - cbn. lia.
  - eapply returns_bind; [apply returns_trainBatch|].
    intros st' Hst'. cbn beta in Hst'.
    eapply returns_mono; [apply IH|]. intros st'' Hst''. cbn in *. lia.
Qed.

(** ** A worker on its own *)

Lemma chunks_Forall {A} (P : A -> Prop) (size fuel : nat) :
  forall l : list A, Forall P l -> Forall (Forall P) (chunks fuel size l).
Proof.
  induction fuel as [|fuel IH]; intros l Hl; cbn [chunks]; [constructor|].
  destruct l as [|x l]; constructor.
  - apply Forall_take. exact Hl.
  - apply IH. apply Forall_drop. exact Hl.
Qed.

Lemma interp_batches (learningRate : F) (batches : list (list (@DataPoint F))) :
  forall m (gradientSum : Z) (batchErrors : list F),
    mu m = false ->
    Forall (Forall (fun dp => length (Features dp) = length (Weights m))) batches ->
    exists g,
      interp (forEach batches (trainBatch learningRate) (gradientSum, batchErrors)) m
      = Finished (g, snd (spec_trainBatches learningRate batches m batchErrors))
          (fst (spec_trainBatches learningRate batches m batchErrors)).
Proof.
  induction batches as [|b batches IH]; intros m g errs Hmu Hall.
  - exists g. reflexivity.
  - apply Forall_cons in Hall as [Hb Hall].
    cbn [forEach spec_trainBatches]. rewrite interp_bind.
    rewrite interp_trainBatch by assumption. cbn [andThen].
    replace (mkModel
               (imap (fun j w => descend learningRate (len b) w (spec_weightGradient m b j))
                     (Weights m))
               (descend learningRate (len b) (Bias m) (spec_biasGradient m b))
               false (wrap64 (Updates m + 1)) (Metrics m) (MetricsMu m))
      with (spec_trainBatch learningRate m b)
      by (unfold spec_trainBatch; rewrite Hmu; reflexivity).
    apply IH.
    + unfold spec_trainBatch. cbn. exact Hmu.
    + unfold spec_trainBatch. cbn [Weights]. rewrite length_imap. exact Hall.
Qed.

Lemma spec_trainBatches_frame (learningRate : F) (batches : list (list (@DataPoint F))) :
  forall m (batchErrors : list F),
    let m' := fst (spec_trainBatches learningRate batches m batchErrors) in
    mu m' = mu m /\ MetricsMu m' = MetricsMu m /\ Metrics m' = Metrics m /\
    length (Weights m') = length (Weights m).
Proof.
  induction batches as [|b batches IH]; intros m errs; cbn [spec_trainBatches].
  - cbn. auto.
  - specialize (IH (spec_trainBatch learningRate m b) (errs ++ [spec_batchError m b])).
    cbn zeta in IH |- *. destruct IH as (H1 & H2 & H3 & H4).
    rewrite H1, H2, H3, H4. unfold spec_trainBatch. cbn.
    rewrite length_imap. auto.
Qed.

Lemma interp_recordEpoch (epoch : Z) (batchErrors : list F) m :
  MetricsMu m = false ->
  interp (recordEpoch epoch batchErrors) m
  = Finished tt (setMetric m epoch (averageError batchErrors)).
Proof.
  destruct m as [ws b l u M Mm]. cbn [MetricsMu]. intros ->.
  unfold recordEpoch.
  rewrite interp_bind, interp_act. cbn [perform MetricsMu andThen Weights Bias mu
                                         Updates Metrics].
  rewrite interp_bind, interp_act. cbn [perform MetricsMu andThen Weights Bias mu
                                         Updates Metrics].
  rewrite interp_act. reflexivity.
Qed.

Lemma interp_trainEpoch (learningRate : F) data (batchSize epoch gradientSum : Z) m :
  1 <= batchSize ->
  mu m = false -> MetricsMu m = false ->
  Forall (fun dp => length (Features dp) = length (Weights m)) data ->
  exists g,
    interp (trainEpoch data batchSize learningRate epoch gradientSum) m
    = Finished g (spec_trainEpoch learningRate (spec_batches batchSize data) epoch m).
Proof.
  intros Hb Hmu HMm Hall. unfold trainEpoch.
  rewrite batchLoop_batches by exact Hb.
  destruct (interp_batches learningRate (spec_batches batchSize data) m gradientSum []
              Hmu) as [g Hg].
  { apply chunks_Forall. exact Hall. }
  exists g. rewrite interp_bind, Hg. cbn [andThen].
  destruct (spec_trainBatches_frame learningRate (spec_batches batchSize data) m [])
    as (H1 & H2 & H3 & H4).
  rewrite interp_bind, interp_recordEpoch by (rewrite H2; exact HMm).
  cbn [andThen]. rewrite interp_ret. reflexivity.
Qed.

Lemma spec_trainEpoch_frame (learningRate : F) (batches : list (list (@DataPoint F)))
    (epoch : Z) m :
  let m' := spec_trainEpoch learningRate batches epoch m in
  mu m' = mu m /\ MetricsMu m' = MetricsMu m /\
  length (Weights m') = length (Weights m) /\
  (forall e, e <> epoch -> Metrics m' !! e = Metrics m !! e) /\
  Metrics m' !! epoch
  = Some (spec_epochError (snd (spec_trainBatches learningRate batches m []))).
Proof.
  destruct (spec_trainBatches_frame learningRate batches m []) as (H1 & H2 & H3 & H4).
  cbn zeta. unfold spec_trainEpoch, setMetric. cbn.
  repeat split; auto.
  - intros e He. rewrite lookup_insert_ne by auto. rewrite H3. reflexivity.
  - apply lookup_insert_eq.
Qed.

Lemma interp_epochs (learningRate : F) data (batchSize : Z) :
  1 <= batchSize ->
  forall (n : nat) (epoch gradientSum : Z) m,
    mu m = false -> MetricsMu m = false ->
    Forall (fun dp => length (Features dp) = length (Weights m)) data ->
    exists g,
      interp (forUpto n epoch (trainEpoch data batchSize learningRate) gradientSum) m
      = Finished g
          (spec_trainEpochs learningRate (spec_batches batchSize data) n epoch m).
Proof.
  intros Hb. induction n as [|n IH]; intros epoch g m Hmu HMm Hall.
  - exists g. reflexivity.
  - cbn [forUpto spec_trainEpochs].
    destruct (interp_trainEpoch learningRate data batchSize epoch g m Hb Hmu HMm Hall)
      as [g' Hg'].
    rewrite interp_bind, Hg'. cbn [andThen].
    destruct (spec_trainEpoch_frame learningRate (spec_batches batchSize data) epoch m)
      as (H1 & H2 & H3 & _).
    apply IH.
    + rewrite H1. exact Hmu.
    + rewrite H2. exact HMm.
    + rewrite H3. exact Hall.
Qed.

Lemma spec_trainEpochs_older (learningRate : F) (batches : list (list (@DataPoint F)))
    (n : nat) :
  forall (epoch : Z) m (e : Z),
    e < epoch ->
    Metrics (spec_trainEpochs learningRate batches n epoch m) !! e = Metrics m !! e.
Proof.
  induction n as [|n IH]; intros epoch m e He; cbn [spec_trainEpochs]; [reflexivity|].
  rewrite IH by lia.
  destruct (spec_trainEpoch_frame learningRate batches epoch m) as (_ & _ & _ & H & _).
  apply H. lia.
Qed.

Lemma spec_trainEpochs_metric (learningRate : F) (batches : list (list (@DataPoint F)))
    (n : nat) :
  forall (epoch : Z) m (k : nat),
    (k < n)%nat ->
    Metrics (spec_trainEpochs learningRate batches n epoch m) !! (epoch + Z.of_nat k)
    = Some (spec_epochError
              (snd (spec_trainBatches learningRate batches
                      (spec_trainEpochs learningRate batches k epoch m) []))).
Proof.
  induction n as [|n IH]; intros epoch m k Hk; [lia|].
  cbn [spec_trainEpochs]. destruct k as [|k].
  - rewrite Z.add_0_r, spec_trainEpochs_older by lia.
    destruct (spec_trainEpoch_frame learningRate batches epoch m) as (_ & _ & _ & _ & H).
    exact H.
  - replace (epoch + Z.of_nat (S k)) with (epoch + 1 + Z.of_nat k) by lia.
    rewrite IH by lia. reflexivity.
Qed.

(** ** The metrics store *)

Lemma step_metrics (t : nat) (W W' : @World F) (a : Access) :
  step t W = Some (a, W') ->
  Metrics (model W') = replayMetrics [(t, a)] (Metrics (model W)).
Proof.
  unfold step. intros Hs.
  destruct (crashed W); [discriminate|].
  destruct (goroutines W !! t) as [p|]; [|discriminate].
  destruct p as [x|e| |r k|r k|w k]; try discriminate.
  - injection Hs as <- <-. reflexivity.
  - destruct (getF (model W) r); injection Hs as <- <-; reflexivity.
  - injection Hs as <- <-. reflexivity.
  - destruct (perform (model W) w) as [m'| |e] eqn:Hp; try discriminate;
      injection Hs as <- <-; [|reflexivity].
    cbn [setGoroutine model].
    destruct w; cbn in Hp;
      repeat match type of Hp with
             | (if ?b then _ else _) = _ => destruct b; try discriminate
             end;
      injection Hp as <-; reflexivity.
Qed.

Lemma exec_metrics (sched : list nat) :
  forall W : @World F,
    Metrics (model (exec sched W).2)
    = replayMetrics (exec sched W).1 (Metrics (model W)).
Proof.
  induction sched as [|t sched IH]; intros W; cbn [exec]; [reflexivity|].
  destruct (step t W) as [[a W']|] eqn:Hs; [|apply IH].
  specialize (IH W'). destruct (exec sched W') as [tr W'']. cbn [fst snd] in *.
  rewrite IH, (step_metrics _ _ _ _ Hs). reflexivity.
Qed.

Lemma replay_other (e : Z) (tr : list (@Event F)) :
  forall M : gmap Z F,
    forallb (fun ev => negb (writesMetric e ev)) tr = true ->
    replayMetrics tr M !! e = M !! e.
Proof.
  induction tr as [|[t a] tr IH]; intros M Hno; [reflexivity|].
  cbn [forallb] in Hno. apply andb_true_iff in Hno as [Ha Hno].
  unfold replayMetrics in *. cbn [fold_left]. rewrite IH by exact Hno.
  destruct a as [r v|r z|w|x]; try reflexivity.
  destruct w; try reflexivity.
  cbn in Ha. apply lookup_insert_ne. lia.
Qed.

Lemma replay_last (tr1 tr2 : list (@Event F)) (t : nat) (e : Z) (v : F)
    (M : gmap Z F) :
  forallb (fun ev => negb (writesMetric e ev)) tr2 = true ->
  replayMetrics (tr1 ++ (t, LDo (WrMetric e v)) :: tr2) M !! e = Some v.
Proof.
  intros Hno.
  replace (replayMetrics (tr1 ++ (t, LDo (WrMetric e v)) :: tr2) M)
    with (replayMetrics tr2 (<[e := v]> (replayMetrics tr1 M)))
    by (unfold replayMetrics; rewrite fold_left_app; reflexivity).
  rewrite replay_other by exact Hno. apply lookup_insert_eq.
Qed.

(** ** Runs that complete *)

Lemma exec_app (sched1 sched2 : list nat) :
  forall W : @World F,
    (exec (sched1 ++ sched2) W).2 = (exec sched2 (exec sched1 W).2).2.
Proof.
  induction sched1 as [|t sched1 IH]; intros W; cbn [app exec]; [reflexivity|].
  destruct (step t W) as [[a W']|]; [|apply IH].
  specialize (IH W').
  destruct (exec (sched1 ++ sched2) W') as [tr1 W1].
  destruct (exec sched1 W') as [tr2 W2]. exact IH.
Qed.

Lemma exec_solo (t : nat) (p : Prog Worker) :
  forall (m m' : @Model F) (a : Worker) (gs : list (Prog Worker)),
    interp p m = Finished a m' ->
    gs !! t = Some p ->
    exists n, (exec (repeat t n) (mkWorld m gs None)).2
              = mkWorld m' (<[t := Ret a]> gs) None.
Proof.
  induction p as [b|e| |r k IH|r k IH|w k IH]; intros m m' a gs Hi Hg; cbn in Hi.
  - injection Hi as <- <-. exists 0%nat. cbn. rewrite list_insert_id by exact Hg.
    reflexivity.
  - discriminate.
  - discriminate.
  - destruct (getF m r) as [v|e] eqn:Hr; [|discriminate].
    destruct (IH v m m' a (<[t := k v]> gs) Hi) as [n Hn].
    { apply list_lookup_insert_eq. apply lookup_lt_Some in Hg. exact Hg. }
    exists (S n). cbn [repeat exec]. unfold step. cbn [crashed goroutines model].
    rewrite Hg, Hr. unfold setGoroutine. cbn [crashed goroutines model].
    destruct (exec (repeat t n) (mkWorld m (<[t := k v]> gs) None)) as [tr W'].
    cbn [snd] in *. rewrite Hn, list_insert_insert_eq. reflexivity.
  - destruct (IH (getZ m r) m m' a (<[t := k (getZ m r)]> gs) Hi) as [n Hn].
    { apply list_lookup_insert_eq. apply lookup_lt_Some in Hg. exact Hg. }
    exists (S n). cbn [repeat exec]. unfold step. cbn [crashed goroutines model].
    rewrite Hg. unfold setGoroutine. cbn [crashed goroutines model].
    destruct (exec (repeat t n) (mkWorld m (<[t := k (getZ m r)]> gs) None)) as [tr W'].
    cbn [snd] in *. rewrite Hn, list_insert_insert_eq. reflexivity.
  - destruct (perform m w) as [m1| |e] eqn:Hw; try discriminate.
    destruct (IH m1 m' a (<[t := k]> gs) Hi) as [n Hn].
    { apply list_lookup_insert_eq. apply lookup_lt_Some in Hg. exact Hg. }
    exists (S n). cbn [repeat exec]. unfold step. cbn [crashed goroutines model].
    rewrite Hg, Hw. unfold setGoroutine. cbn [crashed goroutines model].
    destruct (exec (repeat t n) (mkWorld m1 (<[t := k]> gs) None)) as [tr W'].
    cbn [snd] in *. rewrite Hn, list_insert_insert_eq. reflexivity.
Qed.

Lemma spec_trainEpochs_frame (learningRate : F) (batches : list (list (@DataPoint F)))
    (n : nat) :
  forall (epoch : Z) m,
    let m' := spec_trainEpochs learningRate batches n epoch m in
    mu m' = mu m /\ MetricsMu m' = MetricsMu m /\
    length (Weights m') = length (Weights m).
Proof.
  induction n as [|n IH]; intros epoch m; cbn [spec_trainEpochs]; [cbn; auto|].
  specialize (IH (epoch + 1) (spec_trainEpoch learningRate batches epoch m)).
  cbn zeta in IH |- *. destruct IH as (H1 & H2 & H3).
  destruct (spec_trainEpoch_frame learningRate batches epoch m) as (G1 & G2 & G3 & _).
  rewrite H1, H2, H3. auto.
Qed.

Lemma interp_trainWorker (w : Worker) (epochs : Z) (learningRate : F) m :
  1 <= BatchSize w -> mu m = false -> MetricsMu m = false ->
  Forall (fun dp => length (Features dp) = length (Weights m)) (Data w) ->
  exists w',
    interp (trainWorker w epochs learningRate) m
    = Finished w'
        (spec_trainEpochs learningRate (spec_batches (BatchSize w) (Data w))
           (Z.to_nat epochs) 0 m).
Proof.
  intros Hb Hmu HMm Hall. unfold trainWorker.
  destruct (interp_epochs learningRate (Data w) (BatchSize w) Hb (Z.to_nat epochs)
              0 (GradientSum w) m Hmu HMm Hall) as [g Hg].
  eexists. rewrite interp_bind, Hg. cbn [andThen]. rewrite interp_ret. reflexivity.
Qed.

Lemma workers_complete (epochs : Z) (learningRate : F) (workers : list Worker) :
  forall (finished : list (Prog Worker)) m,
    forallb returned finished = true ->
    mu m = false -> MetricsMu m = false ->
    Forall (fun w => 1 <= BatchSize w /\
                     Forall (fun dp => length (Features dp) = length (Weights m))
                            (Data w)) workers ->
    exists sched,
      joined (exec sched
                (mkWorld m
                   (finished ++ map (fun w => trainWorker w epochs learningRate) workers)
                   None)).2 = true.
Proof.
  induction workers as [|w workers IH]; intros finished m Hfin Hmu HMm Hall.
  - exists []. cbn [map exec snd]. rewrite app_nil_r. unfold joined. cbn [crashed goroutines].
    rewrite Hfin. reflexivity.
  - apply Forall_cons in Hall as [[Hb Hw] Hall].
    destruct (interp_trainWorker w epochs learningRate m Hb Hmu HMm Hw) as [w' Hi].
    set (m1 := spec_trainEpochs learningRate (spec_batches (BatchSize w) (Data w))
                 (Z.to_nat epochs) 0 m) in *.
    destruct (spec_trainEpochs_frame learningRate (spec_batches (BatchSize w) (Data w))
                (Z.to_nat epochs) 0 m) as (H1 & H2 & H3).
    fold m1 in H1, H2, H3.
    destruct (exec_solo (length finished) _ m m1 w'
                (finished ++ map (fun w => trainWorker w epochs learningRate)
                                 (w :: workers)) Hi) as [n Hn].
    { rewrite lookup_app_r, Nat.sub_diag by lia. reflexivity. }
    destruct (IH (finished ++ [Ret w']) m1) as [sched Hs].
    + rewrite forallb_app, Hfin. reflexivity.
    + rewrite H1. exact Hmu.
    + rewrite H2. exact HMm.
    + eapply Forall_impl; [exact Hall|]. intros x [Hx1 Hx2]. split; [exact Hx1|].
      rewrite H3. exact Hx2.
    + exists (repeat (length finished) n ++ sched).
      rewrite exec_app, Hn. cbn [map].
      rewrite insert_app_r_alt, Nat.sub_diag by lia. cbn [insert list_insert].
      rewrite <- app_assoc in Hs. exact Hs.
Qed.

Lemma chunkAt_Forall (P : @DataPoint F -> Prop) trainData (numWorkers : Z) (i : nat) :
  Forall P trainData -> Forall P (chunkAt trainData numWorkers i).
Proof. intros H. unfold chunkAt. cbv zeta. apply Forall_take, Forall_drop, H. Qed.

Lemma run_completes trainData (featureCount : nat) (numWorkers batchSize epochs : Z)
    (learningRate : F) (W0 : World) :
  1 <= batchSize ->
  Forall (fun dp => length (Features dp) = featureCount) trainData ->
  startTraining trainData featureCount numWorkers batchSize epochs learningRate = Ok W0 ->
  exists sched, joined (exec sched W0).2 = true.
Proof.
  intros Hb Hwf Hs.
  destruct (partitionData trainData numWorkers) as [parts|e] eqn:Hp.
  2:{ unfold startTraining in Hs. rewrite Hp in Hs. discriminate. }
  rewrite (start_world _ _ _ _ _ _ _ _ Hp Hs).
  assert (HW : 1 <= numWorkers).
  { unfold partitionData in Hp.
    destruct (numWorkers <? 0) eqn:E1; [discriminate|].
    destruct (numWorkers =? 0) eqn:E2; [discriminate|]. lia. }
  apply (workers_complete epochs learningRate (newWorkers parts batchSize) []
           (newModel featureCount)); try reflexivity.
  apply Forall_forall. intros w Hw.
  split; [rewrite (newWorkers_elem _ _ _ Hw); exact Hb|].
  apply list_elem_of_lookup_1 in Hw as [i Hi].
  unfold newWorkers in Hi. rewrite list_lookup_imap in Hi.
  destruct (parts !! i) as [part|] eqn:Hpi; [|discriminate].
  cbn in Hi. injection Hi as <-. cbn [Data newModel Weights].
  rewrite length_replicate.
  destruct (partition_lookup _ _ _ _ _ HW Hp Hpi) as [_ ->].
  apply chunkAt_Forall. exact Hwf.
Qed.

(** C1 — when every worker has returned, the update counter is the number of
    batches processed: [epochs] times the sum over the partitions of
    [batchCount], which is ceil(partition size / batchSize), whatever the
    training set, the worker count and the interleaving of the workers are
    (the total being an int64); and when the data points all have
    [featureCount] features, the workers can all return. *)
Theorem update_count trainData (featureCount : nat)
    (numWorkers batchSize epochs : Z) (learningRate : F)
    parts (W0 : World) :
  1 <= batchSize ->
  0 <= epochs ->
  partitionData trainData numWorkers = Ok parts ->
  startTraining trainData featureCount numWorkers batchSize epochs learningRate = Ok W0 ->
  epochs * sumZ (map (fun part => batchCount (len part) batchSize) parts) <= max_int64 ->
  (Forall (fun dp => length (Features dp) = featureCount) trainData ->
   exists sched, joined (exec sched W0).2 = true) /\
  (forall sched : list nat,
     joined (exec sched W0).2 = true ->
     Updates (model (exec sched W0).2)
     = epochs * sumZ (map (fun part => batchCount (len part) batchSize) parts)) /\
  (forall n : Z,
     batchSize * (batchCount n batchSize - 1) < n <= batchSize * batchCount n batchSize).
Proof.
  intros Hb He Hp Hs Hmax. split.
  { intros Hwf. eapply run_completes; eauto. }
  split; [|intros n; apply batchCount_ceil; exact Hb].
  intros sched HJ.
  rewrite (start_world _ _ _ _ _ _ _ _ Hp Hs) in *.
  pose (ns := map (fun w => epochs * batchCount (len (Data w)) (BatchSize w))
                  (newWorkers parts batchSize)).
  assert (HI : Inv (map (fun n c => c = n) ns)
                 (mkWorld (newModel featureCount)
                    (map (fun w => trainWorker w epochs learningRate)
                         (newWorkers parts batchSize)) None)
                 None (replicate (length (newWorkers parts batchSize)) 0)).
  { unfold ns. rewrite map_map.
    apply (init_inv _ (fun w c => c = epochs * batchCount (len (Data w)) (BatchSize w))).
    intros w Hw. apply wp_trainWorker; [|exact He].
    rewrite (newWorkers_elem _ _ _ Hw). exact Hb. }
  destruct (exec_inv _ sched _ _ _ HI) as [_ Hend].
  destruct Hend as (holder & cs & HI').
  { unfold joined in HJ. apply andb_true_iff in HJ as [Hc _].
    apply bool_decide_eq_true in Hc. exact Hc. }
  rewrite (inv_updates _ _ _ _ HI').
  rewrite (joined_counts _ _ _ _ HI' HJ).
  unfold ns.
  rewrite (newWorkers_map (fun part bs => epochs * batchCount (len part) bs)).
  rewrite sumZ_map_mul.
  pose proof (sumZ_batchCount_nonneg parts batchSize Hb).
  apply wrap64_id. unfold max_int64 in *. nia.
Qed.

(** ** The keys of the metric writes *)

Lemma allWrites_bind {A B} (P : Wr -> Prop) (p : @Prog F A) (f : A -> @Prog F B) :
  allWrites P p -> (forall a, allWrites P (f a)) -> allWrites P (p ≫= f).
Proof.
  intros Hp Hf. induction p as [a|e| |r k IH|r k IH|w k IH]; cbn in *.
  - apply Hf.
  - exact I.
  - exact I.
  - intros v. apply IH, Hp.
  - intros z. apply IH, Hp.
  - split; [apply Hp|apply IH, Hp].
Qed.

Lemma allWrites_noWrites {A} (P : Wr -> Prop) (p : @Prog F A) :
  noWrites p -> allWrites P p.
Proof.
  intros Hp. induction p as [a|e| |r k IH|r k IH|w k IH]; cbn in *; auto.
  contradiction.
Qed.

Lemma allWrites_forUpto {St} (P : Wr -> Prop) (body : Z -> St -> @Prog F St)
    (n : nat) :
  forall (j0 : Z) (s : St),
    (forall (k : nat) s', (k < n)%nat -> allWrites P (body (j0 + Z.of_nat k) s')) ->
    allWrites P (forUpto n j0 body s).
Proof.
  induction n as [|n IH]; intros j0 s Hb; cbn [forUpto]; [exact I|].
  apply allWrites_bind.
  - specialize (Hb 0%nat s ltac:(lia)). rewrite Z.add_0_r in Hb. exact Hb.
  - intros s'. apply IH. intros k s'' Hk.
    specialize (Hb (S k) s'' ltac:(lia)).
    replace (j0 + 1 + Z.of_nat k) with (j0 + Z.of_nat (S k)) by lia. exact Hb.
Qed.

Lemma allWrites_applyGradient (lo hi : Z) (learningRate : F)
    (weightGradients : list F) (biasGradient : F) (n : Z) :
  allWrites (metricKeyIn lo hi)
    (applyGradient learningRate weightGradients biasGradient n).
Proof.
  unfold applyGradient.
  apply allWrites_bind; [cbn; auto|]. intros _.
  apply allWrites_bind; [cbn; auto|]. intros l.
  apply allWrites_bind.
  { apply allWrites_forUpto. intros k s' _.
    apply allWrites_bind; [cbn; auto|]. intros cur.
    apply allWrites_bind; [apply allWrites_noWrites, noWrites_lift|]. intros g.
    cbn. auto. }
  intros _. apply allWrites_bind; [cbn; auto|]. intros b.
  apply allWrites_bind; [cbn; auto|]. intros _.
  apply allWrites_bind; [cbn; auto|]. intros u.
  apply allWrites_bind; [cbn; auto|]. intros _. cbn. auto.
Qed.

Lemma allWrites_trainBatch (lo hi : Z) (learningRate : F) batch (st : Z * list F) :
  allWrites (metricKeyIn lo hi) (trainBatch learningRate batch st).
Proof.
  destruct st as [g errs]. unfold trainBatch.
  apply allWrites_bind; [cbn; auto|]. intros n.
  apply allWrites_bind.
  { apply allWrites_noWrites, noWrites_forEach, accumulate_noWrites. }
  intros [[wg bg] be].
  apply allWrites_bind; [apply allWrites_applyGradient|]. intros _. exact I.
Qed.

Lemma allWrites_batchLoop (lo hi : Z) (learningRate : F) data (batchSize : Z)
    (fuel : nat) :
  forall (i : Z) (st : Z * list F),
    allWrites (metricKeyIn lo hi) (batchLoop fuel data batchSize learningRate i st).
Proof.
  induction fuel as [|fuel IH]; intros i st; cbn [batchLoop].
  - destruct (i <? len data); exact I.
  - destruct (i <? len data); [|exact I].
    apply allWrites_bind; [apply allWrites_noWrites, noWrites_lift|]. intros batch.
    apply allWrites_bind; [apply allWrites_trainBatch|]. intros st'. apply IH.
Qed.

Lemma allWrites_trainEpoch (lo hi : Z) (learningRate : F) data
    (batchSize epoch gradientSum : Z) :
  lo <= epoch < hi ->
  allWrites (metricKeyIn lo hi)
    (trainEpoch data batchSize learningRate epoch gradientSum).
Proof.
  intros He. unfold trainEpoch.
  apply allWrites_bind; [apply allWrites_batchLoop|]. intros [g errs].
  cbn. auto.
Qed.

Lemma allWrites_trainWorker (w : Worker) (epochs : Z) (learningRate : F) :
  allWrites (metricKeyIn 0 epochs) (trainWorker w epochs learningRate).
Proof.
  unfold trainWorker. apply allWrites_bind; [|intros g; exact I].
  apply allWrites_forUpto. intros k s' Hk.
  apply allWrites_trainEpoch. lia.
Qed.

Lemma step_allWrites (P : Wr -> Prop) (t : nat) (W W' : @World F) (a : Access) :
  Forall (allWrites P) (goroutines W) ->
  step t W = Some (a, W') ->
  accessOk P (t, a) /\ Forall (allWrites P) (goroutines W').
Proof.
  intros Hall Hs. unfold step in Hs.
  destruct (crashed W); [discriminate|].
  destruct (goroutines W !! t) as [p|] eqn:Hp; [|discriminate].
  pose proof (Forall_lookup_1 _ _ _ _ Hall Hp) as Hpw.
  destruct p as [x|e| |r k|r k|w k]; try discriminate.
  - injection Hs as <- <-. split; [exact I|exact Hall].
  - destruct (getF (model W) r); injection Hs as <- <-.
    + split; [exact I|]. cbn. apply Forall_insert; [exact Hall|apply Hpw].
    + split; [exact I|exact Hall].
  - injection Hs as <- <-. split; [exact I|].
    cbn. apply Forall_insert; [exact Hall|apply Hpw].
  - destruct (perform (model W) w); try discriminate; injection Hs as <- <-.
    + split; [apply Hpw|]. cbn. apply Forall_insert; [exact Hall|apply Hpw].
    + split; [exact I|exact Hall].
Qed.

Lemma exec_allWrites (P : Wr -> Prop) (sched : list nat) :
  forall W : @World F,
    Forall (allWrites P) (goroutines W) ->
    Forall (accessOk P) (exec sched W).1.
Proof.
  induction sched as [|t sched IH]; intros W Hall; cbn [exec]; [constructor|].
  destruct (step t W) as [[a W']|] eqn:Hs; [|apply IH; exact Hall].
  destruct (step_allWrites P t W W' a Hall Hs) as [Ha Hall'].
  specialize (IH W' Hall'). destruct (exec sched W') as [tr W''].
  cbn [fst] in *. constructor; assumption.
Qed.

Lemma start_metric_keys trainData (featureCount : nat)
    (numWorkers batchSize epochs : Z) (learningRate : F) (W0 : World)
    (sched : list nat) :
  startTraining trainData featureCount numWorkers batchSize epochs learningRate = Ok W0 ->
  Forall (accessOk (metricKeyIn 0 epochs)) (exec sched W0).1.
Proof.
  intros Hs.
  destruct (partitionData trainData numWorkers) as [parts|e] eqn:Hp.
  2:{ unfold startTraining in Hs. rewrite Hp in Hs. discriminate. }
  rewrite (start_world _ _ _ _ _ _ _ _ Hp Hs).
  apply exec_allWrites. cbn [goroutines].
  apply Forall_forall. intros p Hin.
  change (map ?f ?l) with (f <$> l) in Hin.
  apply list_elem_of_fmap in Hin as (w & -> & _).
  apply allWrites_trainWorker.
Qed.

End TrainerFacts.

(** * Further properties of the trainer *)

Section TrainerSafety.

Context {F : Type} {FO : Float64 F}.

Implicit Types (trainData data batch : list (@DataPoint F)) (m : @Model F).

(** ** The discipline [safe] of [trainWorker] *)

Lemma safe_bind {A B} (fc : nat) (p : @Prog F A) (f : A -> @Prog F B) Q h :
  safe fc p (fun a h' => safe fc (f a) Q h') h -> safe fc (p ≫= f) Q h.
Proof.
  revert h. induction p as [a|e| |r k IH|r k IH|w k IH]; intros h H; cbn in H |- *.
  - exact H.
  - exact H.
  - exact H.
  - destruct r.
    + intros v. apply IH, H.
    + destruct H as [Hj H]. split; [exact Hj|]. intros v. apply IH, H.
  - destruct r.
    + apply IH, H.
    + intros z. apply IH, H.
  - destruct w.
    + destruct H as (H1 & H2 & H3).
      split; [exact H1|]. split; [exact H2|]. apply IH, H3.
    + destruct H as [H1 H2]. split; [exact H1|apply IH, H2].
    + destruct H as [H1 H2]. split; [exact H1|apply IH, H2].
    + destruct H as [H1 H2]. split; [exact H1|apply IH, H2].
    + destruct H as [H1 H2]. split; [exact H1|apply IH, H2].
    + destruct H as [H1 H2]. split; [exact H1|apply IH, H2].
    + destruct H as [H1 H2]. split; [exact H1|apply IH, H2].
    + destruct H as [H1 H2]. split; [exact H1|apply IH, H2].
Qed.

Lemma safe_mono {A} (fc : nat) (p : @Prog F A) (Q R : A -> Held -> Prop) h :
  (forall a h', Q a h' -> R a h') -> safe fc p Q h -> safe fc p R h.
Proof.
  intros HQ. revert h.
  induction p as [a|e| |r k IH|r k IH|w k IH]; intros h H; cbn in H |- *.
  - apply HQ, H.
  - exact H.
  - exact H.
  - destruct r.
    + intros v. apply IH, H.
    + destruct H as [Hj H]. split; [exact Hj|]. intros v. apply IH, H.
  - destruct r.
    + apply IH, H.
    + intros z. apply IH, H.
  - destruct w.
    + destruct H as (H1 & H2 & H3).
      split; [exact H1|]. split; [exact H2|]. apply IH, H3.
    + destruct H as [H1 H2]. split; [exact H1|apply IH, H2].
    + destruct H as [H1 H2]. split; [exact H1|apply IH, H2].
    + destruct H as [H1 H2]. split; [exact H1|apply IH, H2].
    + destruct H as [H1 H2]. split; [exact H1|apply IH, H2].
    + destruct H as [H1 H2]. split; [exact H1|apply IH, H2].
    + destruct H as [H1 H2]. split; [exact H1|apply IH, H2].
    + destruct H as [H1 H2]. split; [exact H1|apply IH, H2].
Qed.

Lemma safe_index {A} (fc : nat) (s : list A) (i : nat) (Q : A -> Held -> Prop) h :
  (i < length s)%nat ->
  (forall x, s !! i = Some x -> Q x h) ->
  safe fc (@lift F A (index s (Z.of_nat i))) Q h.
Proof.
  intros Hi HQ. destruct (lookup_lt_is_Some_2 s i Hi) as [x Hx].
  rewrite (index_lookup _ _ _ Hx). cbn. apply HQ, Hx.
Qed.

Lemma safe_predict_loop (fc : nat) (features : list F) (Q : F -> Held -> Prop) h
    (k : nat) :
  (fc <= length features)%nat ->
  (forall v, Q v h) ->
  forall (j : nat) (acc : F),
    (j + k = fc)%nat ->
    safe fc (forUpto k (Z.of_nat j)
               (fun i sum =>
                  weight ← readF (RdWeight i);
                  f ← lift (index features i);
                  mret (fadd sum (fmul weight f))) acc) Q h.
Proof.
  intros Hlen HQ. induction k as [|k IH]; intros j acc Hj; cbn [forUpto].
  - cbn. apply HQ.
  - apply safe_bind. cbn. split; [lia|]. intros w.
    apply safe_bind. apply safe_index; [lia|]. intros f _. cbn.
    replace (Z.of_nat j + 1) with (Z.of_nat (S j)) by lia.
    apply IH. lia.
Qed.

Lemma safe_predict (fc : nat) (features : list F) (Q : F -> Held -> Prop) h :
  (fc <= length features)%nat ->
  (forall v, Q v h) ->
  safe fc (predict features) Q h.
Proof.
  intros Hlen HQ. unfold predict. cbn. intros b. rewrite Nat2Z.id.
  apply (safe_predict_loop fc features Q h fc Hlen HQ 0%nat b). lia.
Qed.

Lemma safe_bump (fc : nat) (error : F) (Q : list F -> Held -> Prop) h
    (features : list F) :
  (forall wg, length wg = fc -> Q wg h) ->
  forall (j : nat) (wg : list F),
    length wg = fc -> (j + length features <= fc)%nat ->
    safe (F := F) fc
         (forRange features (Z.of_nat j)
               (fun j feature wg =>
                  g ← lift (index wg j);
                  mret (<[Z.to_nat j := fadd g (fmul error feature)]> wg)) wg) Q h.
Proof.
  intros HQ. induction features as [|f fs IH]; intros j wg Hwg Hj; cbn [forRange].
  - cbn. apply HQ, Hwg.
  - cbn [length] in Hj. apply safe_bind.
    apply safe_bind. apply safe_index; [lia|]. intros g _. cbn.
    replace (Z.of_nat j + 1) with (Z.of_nat (S j)) by lia.
    apply IH; [rewrite length_insert; exact Hwg|lia].
Qed.

Lemma safe_accumulate (fc : nat) (dp : @DataPoint F) (wg : list F) (bg be : F)
    (Q : list F * F * F -> Held -> Prop) h :
  length (Features dp) = fc ->
  length wg = fc ->
  (forall wg' bg' be', length wg' = fc -> Q (wg', bg', be') h) ->
  safe fc (accumulate dp (wg, bg, be)) Q h.
Proof.
  intros Hf Hwg HQ. unfold accumulate.
  apply safe_bind. apply safe_predict; [lia|]. intros prediction.
  apply safe_bind.
  apply (safe_bump fc _ _ h (Features dp)) with (j := 0%nat); [|exact Hwg|lia].
  intros wg' Hwg'. cbn. apply HQ, Hwg'.
Qed.

Lemma safe_gradient (fc : nat) batch (Q : list F * F * F -> Held -> Prop) h :
  Forall (fun dp => length (Features dp) = fc) batch ->
  (forall wg' bg' be', length wg' = fc -> Q (wg', bg', be') h) ->
  forall (wg : list F) (bg be : F),
    length wg = fc ->
    safe fc (forEach batch accumulate (wg, bg, be)) Q h.
Proof.
  intros Hall HQ. induction Hall as [|dp batch Hdp Hall IH]; intros wg bg be Hwg;
    cbn [forEach].
  - cbn. apply HQ, Hwg.
  - apply safe_bind. apply safe_accumulate; [exact Hdp|exact Hwg|].
    intros wg' bg' be' Hwg'. apply IH, Hwg'.
Qed.

Lemma safe_descent (fc : nat) (learningRate : F) (weightGradients : list F) (n : Z)
    (Q : unit -> Held -> Prop) (k : nat) :
  length weightGradients = fc ->
  Q tt HoldsMu ->
  forall j : nat,
    (j + k = fc)%nat ->
    safe fc (forUpto k (Z.of_nat j)
               (fun j _ =>
                  cur ← readF (RdWeight j);
                  g ← lift (index weightGradients j);
                  act (WrWeight j (fsub cur (fdiv (fmul learningRate g) (of_int n)))))
               tt) Q HoldsMu.
Proof.
  intros Hwg HQ. induction k as [|k IH]; intros j Hj; cbn [forUpto].
  - exact HQ.
  - apply safe_bind. cbn. split; [lia|]. intros cur.
    apply safe_bind. apply safe_index; [lia|]. intros g _.
    cbn. split; [reflexivity|]. split; [lia|].
    replace (Z.of_nat j + 1) with (Z.of_nat (S j)) by lia. apply IH. lia.
Qed.

Lemma safe_applyGradient (fc : nat) (learningRate : F) (weightGradients : list F)
    (biasGradient : F) (n : Z) (Q : unit -> Held -> Prop) :
  length weightGradients = fc ->
  Q tt Free ->
  safe fc (applyGradient learningRate weightGradients biasGradient n) Q Free.
Proof.
  intros Hwg HQ. unfold applyGradient.
  apply safe_bind. cbn. split; [reflexivity|]. rewrite Nat2Z.id.
  apply safe_bind.
  apply (safe_descent fc learningRate weightGradients n _ fc Hwg) with (j := 0%nat);
    [|lia].
  cbn. intros b. split; [reflexivity|]. intros u. split; [reflexivity|].
  split; [reflexivity|]. exact HQ.
Qed.

Lemma safe_trainBatch (fc : nat) (learningRate : F) batch (st : Z * list F)
    (Q : Z * list F -> Held -> Prop) :
  Forall (fun dp => length (Features dp) = fc) batch ->
  (forall st', Q st' Free) ->
  safe fc (trainBatch learningRate batch st) Q Free.
Proof.
  intros Hall HQ. destruct st as [g errs]. unfold trainBatch.
  cbn [mbind Prog_bind bind readZ safe]. rewrite Nat2Z.id.
  apply safe_bind. apply safe_gradient; [exact Hall| |apply length_replicate].
  intros wg bg be Hwg.
  apply safe_bind. apply safe_applyGradient; [exact Hwg|]. cbn. apply HQ.
Qed.

Lemma safe_batches (fc : nat) (learningRate : F)
    (batches : list (list (@DataPoint F))) (Q : Z * list F -> Held -> Prop) :
  Forall (Forall (fun dp => length (Features dp) = fc)) batches ->
  (forall st', Q st' Free) ->
  forall st, safe fc (forEach batches (trainBatch learningRate) st) Q Free.
Proof.
  intros Hall HQ. induction Hall as [|b batches Hb Hall IH]; intros st; cbn [forEach].
  - cbn. apply HQ.
  - apply safe_bind. apply safe_trainBatch; [exact Hb|]. intros st'. apply IH.
Qed.

Lemma safe_trainEpoch (fc : nat) (learningRate : F) data
    (batchSize epoch gradientSum : Z) (Q : Z -> Held -> Prop) :
  1 <= batchSize ->
  Forall (fun dp => length (Features dp) = fc) data ->
  (forall g, Q g Free) ->
  safe fc (trainEpoch data batchSize learningRate epoch gradientSum) Q Free.
Proof.
  intros Hb Hall HQ. unfold trainEpoch. rewrite batchLoop_batches by exact Hb.
  apply safe_bind. apply safe_batches; [apply chunks_Forall; exact Hall|].
  intros [g errs]. cbn. split; [reflexivity|]. split; [reflexivity|].
  split; [reflexivity|]. apply HQ.
Qed.

Lemma safe_epochs (fc : nat) (learningRate : F) data (batchSize : Z)
    (Q : Z -> Held -> Prop) :
  1 <= batchSize ->
  Forall (fun dp => length (Features dp) = fc) data ->
  (forall g, Q g Free) ->
  forall (n : nat) (j0 g : Z),
    safe fc (forUpto n j0 (trainEpoch data batchSize learningRate) g) Q Free.
Proof.
  intros Hb Hall HQ. induction n as [|n IH]; intros j0 g; cbn [forUpto].
  - cbn. apply HQ.
  - apply safe_bind. apply safe_trainEpoch; auto.
Qed.

Lemma safe_trainWorker (fc : nat) (w : Worker) (epochs : Z) (learningRate : F) :
  1 <= BatchSize w ->
  Forall (fun dp => length (Features dp) = fc) (Data w) ->
  safe fc (trainWorker w epochs learningRate) (fun _ h => h = Free) Free.
Proof.
  intros Hb Hall. unfold trainWorker.
  apply safe_bind. apply safe_epochs; [exact Hb|exact Hall|].
  intros g. cbn. reflexivity.
Qed.

(** ** The invariant [SafeInv] *)

Lemma heldBy_mu (meH : option nat) (t : nat) : heldBy (Some t) meH t = HoldsMu.
Proof. unfold heldBy. destruct (decide (Some t = Some t)); [reflexivity|contradiction]. Qed.

Lemma heldBy_HoldsMu (muH meH : option nat) (t : nat) :
  heldBy muH meH t = HoldsMu -> muH = Some t.
Proof.
  unfold heldBy. destruct (decide (muH = Some t)); [auto|].
  destruct (decide (meH = Some t)); discriminate.
Qed.

Lemma heldBy_HoldsMetrics (muH meH : option nat) (t : nat) :
  heldBy muH meH t = HoldsMetrics -> muH <> Some t /\ meH = Some t.
Proof.
  unfold heldBy. destruct (decide (muH = Some t)); [discriminate|].
  destruct (decide (meH = Some t)); [auto|discriminate].
Qed.

Lemma heldBy_Free (muH meH : option nat) (t : nat) :
  heldBy muH meH t = Free <-> muH <> Some t /\ meH <> Some t.
Proof.
  unfold heldBy. destruct (decide (muH = Some t)).
  - split; [discriminate|tauto].
  - destruct (decide (meH = Some t)); split; try discriminate; tauto.
Qed.

Lemma heldBy_metrics (muH : option nat) (t : nat) :
  muH <> Some t -> heldBy muH (Some t) t = HoldsMetrics.
Proof.
  intros H. unfold heldBy. destruct (decide (muH = Some t)); [contradiction|].
  destruct (decide (Some t = Some t)); [reflexivity|contradiction].
Qed.

Lemma heldBy_other (muH meH muH' meH' : option nat) (t t' : nat) :
  t' <> t ->
  (muH' = muH \/ (muH' = Some t /\ muH = None) \/ (muH' = None /\ muH = Some t)) ->
  (meH' = meH \/ (meH' = Some t /\ meH = None) \/ (meH' = None /\ meH = Some t)) ->
  heldBy muH' meH' t' = heldBy muH meH t'.
Proof.
  intros Hne H1 H2. unfold heldBy.
  destruct H1 as [->|[[-> ->]|[-> ->]]]; destruct H2 as [->|[[-> ->]|[-> ->]]];
    repeat match goal with
           | |- context [decide (?x = ?y)] => destruct (decide (x = y))
           end; congruence.
Qed.

Lemma index_in_range {A} (s : list A) (j : Z) :
  0 <= j < len s -> exists x, index s j = Ok x.
Proof.
  intros Hj. destruct (lookup_lt_is_Some_2 s (Z.to_nat j) ltac:(lia)) as [x Hx].
  exists x. rewrite <- (Z2Nat.id j) by lia. apply index_lookup, Hx.
Qed.

Lemma si_update (fc : nat) (W : @World F) (muH meH muH' meH' : option nat)
    (t : nat) (p p' : Prog Worker) (m' : Model) :
  SafeInv fc W muH meH ->
  goroutines W !! t = Some p ->
  length (Weights m') = fc ->
  mu m' = bool_decide (is_Some muH') ->
  MetricsMu m' = bool_decide (is_Some meH') ->
  (muH' = muH \/ (muH' = Some t /\ muH = None) \/ (muH' = None /\ muH = Some t)) ->
  (meH' = meH \/ (meH' = Some t /\ meH = None) \/ (meH' = None /\ meH = Some t)) ->
  (muH' = Some t -> meH' <> Some t) ->
  safe fc p' (fun _ h => h = Free) (heldBy muH' meH' t) ->
  SafeInv fc (setGoroutine W m' t p') muH' meH'.
Proof.
  intros [Hc Hl Hmu Hme Hd Hv1 Hv2 Hs] Hp Hl' Hmu' Hme' H1 H2 Hd' Hp'.
  assert (Hlt : (t < length (goroutines W))%nat) by (eapply lookup_lt_Some; eauto).
  constructor; cbn [setGoroutine crashed model goroutines]; auto.
  - intros t0 E1 E2.
    destruct (decide (t0 = t)) as [->|Hne]; [exact (Hd' E1 E2)|].
    destruct H1 as [->|[[-> _]|[-> _]]]; destruct H2 as [->|[[-> _]|[-> _]]];
      try congruence. exact (Hd t0 E1 E2).
  - intros t0 E. apply lookup_lt_is_Some. rewrite length_insert.
    destruct H1 as [->|[[-> _]|[-> _]]]; try discriminate.
    + apply lookup_lt_is_Some, Hv1, E.
    + injection E as <-. exact Hlt.
  - intros t0 E. apply lookup_lt_is_Some. rewrite length_insert.
    destruct H2 as [->|[[-> _]|[-> _]]]; try discriminate.
    + apply lookup_lt_is_Some, Hv2, E.
    + injection E as <-. exact Hlt.
  - intros t0 q Hq. destruct (decide (t0 = t)) as [->|Hne].
    + rewrite list_lookup_insert_eq in Hq by exact Hlt. injection Hq as <-. exact Hp'.
    + rewrite list_lookup_insert_ne in Hq by auto.
      rewrite (heldBy_other muH meH muH' meH' t t0 Hne H1 H2). apply Hs, Hq.
Qed.

Lemma safe_step (fc : nat) (W W' : @World F) (muH meH : option nat) (t : nat)
    (a : Access) :
  SafeInv fc W muH meH ->
  step t W = Some (a, W') ->
  exists muH' meH',
    SafeInv fc W' muH' meH' /\ lockStep muH meH t a muH' meH'.
Proof.
  intros HI Hs. unfold step in Hs. rewrite (si_crashed _ _ _ _ HI) in Hs.
  destruct (goroutines W !! t) as [p|] eqn:Hp; [|discriminate].
  pose proof (si_safe _ _ _ _ HI t p Hp) as Hsafe.
  pose proof (si_len _ _ _ _ HI) as Hlen.
  pose proof (si_mu _ _ _ _ HI) as Hmu.
  pose proof (si_me _ _ _ _ HI) as Hme.
  pose proof (si_distinct _ _ _ _ HI t) as Hdis.
  destruct p as [x|e| |r k|r k|w k]; try discriminate; cbn in Hsafe.
  - contradiction.
  - assert (Hk : forall v, safe fc (k v) (fun _ h => h = Free) (heldBy muH meH t))
      by (destruct r; [exact Hsafe|exact (proj2 Hsafe)]).
    assert (Hv : exists v, getF (model W) r = Ok v).
    { destruct r as [|j]; [eexists; reflexivity|].
      apply index_in_range. rewrite Hlen. exact (proj1 Hsafe). }
    destruct Hv as [v Hv]. rewrite Hv in Hs. injection Hs as <- <-.
    exists muH, meH. split; [|split; reflexivity].
    apply (si_update fc W muH meH muH meH t _ (k v) (model W) HI Hp); auto.
  - injection Hs as <- <-. exists muH, meH. split; [|split; reflexivity].
    apply (si_update fc W muH meH muH meH t _ (k (getZ (model W) r)) (model W) HI Hp);
      auto.
    destruct r; cbn [getZ]; [rewrite Hlen; exact Hsafe|apply Hsafe].
  - destruct (perform (model W) w) as [m'| |e] eqn:Hperf; try discriminate.
    + injection Hs as <- <-.
      destruct w as [j v|v|v| | | | |e v]; cbn in Hperf, Hsafe.
      * destruct Hsafe as (Hh & Hj & Hk).
        destruct ((0 <=? j) && (j <? len (Weights (model W)))); [|discriminate].
        injection Hperf as <-. exists muH, meH.
        split; [|split; [exact (heldBy_HoldsMu _ _ _ Hh)|split; reflexivity]].
        apply (si_update fc W muH meH muH meH t _ k _ HI Hp); auto.
        cbn. rewrite length_insert. exact Hlen.
      * destruct Hsafe as (Hh & Hk). injection Hperf as <-. exists muH, meH.
        split; [|split; [exact (heldBy_HoldsMu _ _ _ Hh)|split; reflexivity]].
        apply (si_update fc W muH meH muH meH t _ k _ HI Hp); auto.
      * destruct Hsafe as (Hh & Hk). injection Hperf as <-. exists muH, meH.
        split; [|split; [exact (heldBy_HoldsMu _ _ _ Hh)|split; reflexivity]].
        apply (si_update fc W muH meH muH meH t _ k _ HI Hp); auto.
      * destruct Hsafe as (Hh & Hk). apply heldBy_Free in Hh as [Hh1 Hh2].
        destruct (mu (model W)) eqn:Hl; [discriminate|]. injection Hperf as <-.
        assert (Hnone : muH = None).
        { destruct muH; [|reflexivity]. symmetry in Hmu.
          apply bool_decide_eq_false in Hmu. exfalso. apply Hmu. eauto. }
        assert (Hk' : safe fc k (fun _ h => h = Free) (heldBy (Some t) meH t))
          by (rewrite heldBy_mu; exact Hk).
        exists (Some t), meH. split; [|cbn; auto].
        apply (si_update fc W muH meH (Some t) meH t _ k _ HI Hp); auto.
      * destruct Hsafe as (Hh & Hk). pose proof (heldBy_HoldsMu _ _ _ Hh) as Hh'.
        destruct (mu (model W)) eqn:Hl; [|discriminate]. injection Hperf as <-.
        assert (Hk' : safe fc k (fun _ h => h = Free) (heldBy None meH t)).
        { replace (heldBy None meH t) with Free; [exact Hk|].
          symmetry. apply heldBy_Free. split; [discriminate|]. apply Hdis, Hh'. }
        exists None, meH. split; [|cbn; auto].
        apply (si_update fc W muH meH None meH t _ k _ HI Hp); auto.
      * destruct Hsafe as (Hh & Hk). apply heldBy_Free in Hh as [Hh1 Hh2].
        destruct (MetricsMu (model W)) eqn:Hl; [discriminate|]. injection Hperf as <-.
        assert (Hnone : meH = None).
        { destruct meH; [|reflexivity]. symmetry in Hme.
          apply bool_decide_eq_false in Hme. exfalso. apply Hme. eauto. }
        assert (Hk' : safe fc k (fun _ h => h = Free) (heldBy muH (Some t) t))
          by (rewrite heldBy_metrics by exact Hh1; exact Hk).
        exists muH, (Some t). split; [|cbn; auto].
        apply (si_update fc W muH meH muH (Some t) t _ k _ HI Hp); auto.
      * destruct Hsafe as (Hh & Hk). apply heldBy_HoldsMetrics in Hh as [Hh1 Hh2].
        destruct (MetricsMu (model W)) eqn:Hl; [|discriminate]. injection Hperf as <-.
        assert (Hk' : safe fc k (fun _ h => h = Free) (heldBy muH None t)).
        { replace (heldBy muH None t) with Free; [exact Hk|].
          symmetry. apply heldBy_Free. split; [exact Hh1|discriminate]. }
        exists muH, None. split; [|cbn; auto].
        apply (si_update fc W muH meH muH None t _ k _ HI Hp); auto.
      * destruct Hsafe as (Hh & Hk). injection Hperf as <-. exists muH, meH.
        split; [|split; [exact (proj2 (heldBy_HoldsMetrics _ _ _ Hh))|split; reflexivity]].
        apply (si_update fc W muH meH muH meH t _ k _ HI Hp); auto.
    + exfalso. injection Hs as <- <-.
      destruct w as [j v|v|v| | | | |e' v]; cbn in Hperf, Hsafe.
      * destruct Hsafe as (Hh & Hj & Hk).
        replace ((0 <=? j) && (j <? len (Weights (model W)))) with true in Hperf by lia.
        discriminate.
      * discriminate.
      * discriminate.
      * destruct (mu (model W)); discriminate.
      * destruct Hsafe as (Hh & Hk). apply heldBy_HoldsMu in Hh.
        rewrite Hmu, Hh in Hperf. cbn in Hperf. discriminate.
      * destruct (MetricsMu (model W)); discriminate.
      * destruct Hsafe as (Hh & Hk). apply heldBy_HoldsMetrics in Hh as [_ Hh].
        rewrite Hme, Hh in Hperf. cbn in Hperf. discriminate.
      * discriminate.
Qed.

Lemma exclusive_cons (muH meH muH' meH' : option nat) (t : nat) (a : @Access F)
    (tr : list (@Event F)) :
  lockStep muH meH t a muH' meH' ->
  exclusive muH' meH' tr ->
  exclusive muH meH ((t, a) :: tr).
Proof.
  intros H Htr. cbn [exclusive].
  destruct a as [r v|r z|w|e]; cbn [lockStep] in H.
  - destruct H as [-> ->]. exact Htr.
  - destruct H as [-> ->]. exact Htr.
  - destruct w; cbn in H |- *.
    + destruct H as (H1 & -> & ->). auto.
    + destruct H as (H1 & -> & ->). auto.
    + destruct H as (H1 & -> & ->). auto.
    + destruct H as (H1 & H2 & -> & ->). auto.
    + destruct H as (H1 & -> & ->). auto.
    + destruct H as (H1 & H2 & -> & ->). auto.
    + destruct H as (H1 & -> & ->). auto.
    + destruct H as (H1 & -> & ->). auto.
  - contradiction.
Qed.

Lemma exec_safe (fc : nat) (sched : list nat) :
  forall (W : @World F) (muH meH : option nat),
    SafeInv fc W muH meH ->
    exclusive muH meH (exec sched W).1 /\
    exists muH' meH', SafeInv fc (exec sched W).2 muH' meH'.
Proof.
  induction sched as [|t sched IH]; intros W muH meH HI; cbn [exec].
  - split; [exact I|eauto].
  - destruct (step t W) as [[a W']|] eqn:Hs; [|apply IH, HI].
    destruct (safe_step _ _ _ _ _ _ _ HI Hs) as (muH' & meH' & HI' & Hl).
    destruct (IH W' muH' meH' HI') as [Hex Hinv].
    destruct (exec sched W') as [tr W'']. cbn [fst snd] in *.
    split; [exact (exclusive_cons _ _ _ _ _ _ _ Hl Hex)|exact Hinv].
Qed.

(** A goroutine that has not returned can run, unless it waits for a mutex
    that another goroutine holds. *)
Lemma safe_can_step (fc : nat) (W : @World F) (muH meH : option nat) (t : nat)
    (p : Prog Worker) :
  SafeInv fc W muH meH ->
  goroutines W !! t = Some p ->
  returned p = false ->
  muH = Some t \/ meH = Some t \/ (muH = None /\ meH = None) ->
  is_Some (step t W).
Proof.
  intros HI Hp Hret Hfree. unfold step.
  rewrite (si_crashed _ _ _ _ HI), Hp.
  pose proof (si_safe _ _ _ _ HI t p Hp) as Hsafe.
  destruct p as [x|e| |r k|r k|w k]; cbn in Hsafe; try contradiction.
  - discriminate.
  - destruct (getF (model W) r); eauto.
  - eauto.
  - destruct (perform (model W) w) as [m'| |e] eqn:Hperf; eauto.
    exfalso. destruct w as [j v|v|u| | | | |e v]; cbn in Hperf, Hsafe.
    + destruct ((0 <=? j) && (j <? len (Weights (model W)))); discriminate.
    + discriminate.
    + discriminate.
    + destruct Hsafe as [Hh _]. apply heldBy_Free in Hh as [Hh1 Hh2].
      destruct Hfree as [E|[E|[E1 E2]]]; try contradiction.
      rewrite (si_mu _ _ _ _ HI), E1 in Hperf. cbn in Hperf. discriminate.
    + destruct (mu (model W)); discriminate.
    + destruct Hsafe as [Hh _]. apply heldBy_Free in Hh as [Hh1 Hh2].
      destruct Hfree as [E|[E|[E1 E2]]]; try contradiction.
      rewrite (si_me _ _ _ _ HI), E2 in Hperf. cbn in Hperf. discriminate.
    + destruct (MetricsMu (model W)); discriminate.
    + discriminate.
Qed.

Lemma holder_not_returned (fc : nat) (W : @World F) (muH meH : option nat) (t : nat)
    (p : Prog Worker) :
  SafeInv fc W muH meH ->
  goroutines W !! t = Some p ->
  muH = Some t \/ meH = Some t ->
  returned p = false.
Proof.
  intros HI Hp Hh. pose proof (si_safe _ _ _ _ HI t p Hp) as Hsafe.
  destruct p; try reflexivity. cbn in Hsafe. apply heldBy_Free in Hsafe. tauto.
Qed.

Lemma forallb_false_lookup {A} (f : A -> bool) (l : list A) :
  forallb f l = false -> exists i x, l !! i = Some x /\ f x = false.
Proof.
  induction l as [|y l IH]; [discriminate|]. cbn [forallb]. intros H.
  destruct (f y) eqn:Hy.
  - destruct (IH H) as (i & x & Hi & Hx). exists (S i), x. auto.
  - exists 0%nat, y. auto.
Qed.

Lemma safe_progress (fc : nat) (W : @World F) (muH meH : option nat) :
  SafeInv fc W muH meH ->
  joined W = false ->
  exists t, is_Some (step t W).
Proof.
  intros HI Hj. unfold joined in Hj. rewrite (si_crashed _ _ _ _ HI) in Hj.
  rewrite bool_decide_eq_true_2 in Hj by reflexivity. cbn [andb] in Hj.
  destruct (forallb_false_lookup _ _ Hj) as (t & p & Hp & Hret).
  destruct muH as [t0|] eqn:E0.
  - destruct (si_mu_valid _ _ _ _ HI t0 eq_refl) as [p0 Hp0]. exists t0.
    apply (safe_can_step fc W (Some t0) meH t0 p0 HI Hp0); [|auto].
    apply (holder_not_returned fc W (Some t0) meH t0 p0 HI Hp0). auto.
  - destruct meH as [t1|] eqn:E1.
    + destruct (si_me_valid _ _ _ _ HI t1 eq_refl) as [p1 Hp1]. exists t1.
      apply (safe_can_step fc W None (Some t1) t1 p1 HI Hp1); [|auto].
      apply (holder_not_returned fc W None (Some t1) t1 p1 HI Hp1). auto.
    + exists t. apply (safe_can_step fc W None None t p HI Hp Hret). auto.
Qed.

Lemma start_partition trainData (featureCount : nat) (numWorkers batchSize epochs : Z)
    (learningRate : F) (W0 : World) :
  startTraining trainData featureCount numWorkers batchSize epochs learningRate = Ok W0 ->
  1 <= numWorkers /\
  exists parts,
    partitionData trainData numWorkers = Ok parts /\
    W0 = mkWorld (newModel featureCount)
           (map (fun w => trainWorker w epochs learningRate) (newWorkers parts batchSize))
           None.
Proof.
  intros Hs.
  destruct (partitionData trainData numWorkers) as [parts|e] eqn:Hp.
  2:{ unfold startTraining in Hs. rewrite Hp in Hs. discriminate. }
  split.
  - unfold partitionData in Hp.
    destruct (numWorkers <? 0) eqn:E1; [discriminate|].
    destruct (numWorkers =? 0) eqn:E2; [discriminate|]. lia.
  - exists parts. split; [reflexivity|]. exact (start_world _ _ _ _ _ _ _ _ Hp Hs).
Qed.

Lemma start_workers trainData (numWorkers batchSize : Z) parts (w : Worker) :
  1 <= numWorkers ->
  partitionData trainData numWorkers = Ok parts ->
  w ∈ newWorkers parts batchSize ->
  BatchSize w = batchSize /\ GradientSum w = 0 /\
  exists i : nat, Z.of_nat i < numWorkers /\ Data w = chunkAt trainData numWorkers i.
Proof.
  intros HW Hp Hw. split; [exact (newWorkers_elem _ _ _ Hw)|].
  apply list_elem_of_lookup_1 in Hw as [i Hi].
  unfold newWorkers in Hi. rewrite list_lookup_imap in Hi.
  destruct (parts !! i) as [part|] eqn:Hpi; [|discriminate].
  cbn in Hi. injection Hi as <-. cbn [Data GradientSum].
  split; [reflexivity|]. exists i. exact (partition_lookup _ _ _ _ _ HW Hp Hpi).
Qed.

Lemma start_safe trainData (featureCount : nat) (numWorkers batchSize epochs : Z)
    (learningRate : F) (W0 : World) :
  1 <= batchSize ->
  Forall (fun dp => length (Features dp) = featureCount) trainData ->
  startTraining trainData featureCount numWorkers batchSize epochs learningRate = Ok W0 ->
  SafeInv featureCount W0 None None.
Proof.
  intros Hb Hwf Hs.
  destruct (start_partition _ _ _ _ _ _ _ Hs) as (HW & parts & Hp & ->).
  constructor; cbn [crashed model goroutines newModel Weights mu MetricsMu];
    try reflexivity; try discriminate.
  - apply length_replicate.
  - intros t p Hl.
    change (map ?f ?l) with (f <$> l) in Hl. rewrite list_lookup_fmap in Hl.
    destruct (newWorkers parts batchSize !! t) as [w|] eqn:Hw; [|discriminate].
    cbn in Hl. injection Hl as <-.
    apply list_elem_of_lookup_2 in Hw.
    destruct (start_workers _ _ _ _ _ HW Hp Hw) as (Hbs & _ & i & _ & Hd).
    apply safe_trainWorker; [rewrite Hbs; exact Hb|].
    rewrite Hd. apply chunkAt_Forall, Hwf.
Qed.

(** ** Runs on well-formed data

    The training set is well formed when every data point has as many
    features as the model has weights; [main] builds both from
    [len(data[0].Features)], and [normalize] gives every point that many
    features. *)

(** X1 — After any schedule of a run on well-formed data with a positive batch
    size, no goroutine has panicked: every index into the weights, the
    features and the gradient slices is in range, every batch slice is in
    bounds and no mutex is unlocked that is not locked. *)
Theorem training_never_panics trainData (featureCount : nat)
    (numWorkers batchSize epochs : Z) (learningRate : F) (W0 : World)
    (sched : list nat) :
  1 <= batchSize ->
  Forall (fun dp => length (Features dp) = featureCount) trainData ->
  startTraining trainData featureCount numWorkers batchSize epochs learningRate = Ok W0 ->
  crashed (exec sched W0).2 = None.
Proof.
  intros Hb Hwf Hs.
  destruct (exec_safe featureCount sched W0 None None (start_safe _ _ _ _ _ _ _ Hb Hwf Hs))
    as (_ & muH & meH & HI).
  exact (si_crashed _ _ _ _ HI).
Qed.

(** X2 — After any schedule of such a run the program is not deadlocked: either
    every worker has returned, so that [wg.Wait()] returns, or some worker
    can perform its next access.  (A worker takes a mutex only while it
    holds none, so the holder of a mutex is never waiting.) *)
Theorem training_never_deadlocks trainData (featureCount : nat)
    (numWorkers batchSize epochs : Z) (learningRate : F) (W0 : World)
    (sched : list nat) :
  1 <= batchSize ->
  Forall (fun dp => length (Features dp) = featureCount) trainData ->
  startTraining trainData featureCount numWorkers batchSize epochs learningRate = Ok W0 ->
  ~ deadlocked (exec sched W0).2.
Proof.
  intros Hb Hwf Hs [Hj Hstuck].
  destruct (exec_safe featureCount sched W0 None None (start_safe _ _ _ _ _ _ _ Hb Hwf Hs))
    as (_ & muH & meH & HI).
  destruct (safe_progress _ _ _ _ HI Hj) as [t [x Hx]].
  rewrite Hstuck in Hx. discriminate.
Qed.

(** X3 — Every trace of such a run respects both mutexes: [mu.Lock] and
    [MetricsMu.Lock] succeed only on a free mutex and are performed by a
    goroutine that holds neither mutex, every unlock is performed by the
    holder, the weights, the bias and [Updates] are written only by the holder
    of [mu], and the map [Metrics] is written only by the holder of
    [MetricsMu]. *)
Theorem mutexes_respected trainData (featureCount : nat)
    (numWorkers batchSize epochs : Z) (learningRate : F) (W0 : World)
    (sched : list nat) :
  1 <= batchSize ->
  Forall (fun dp => length (Features dp) = featureCount) trainData ->
  startTraining trainData featureCount numWorkers batchSize epochs learningRate = Ok W0 ->
  exclusive None None (exec sched W0).1.
Proof.
  intros Hb Hwf Hs.
  exact (proj1 (exec_safe featureCount sched W0 None None
                  (start_safe _ _ _ _ _ _ _ Hb Hwf Hs))).
Qed.


End TrainerSafety.

(** * What the workers leave behind *)

Section TrainerResults.

Context {F : Type} {FO : Float64 F}.

Implicit Types (trainData data batch : list (@DataPoint F)) (m : @Model F).

(** ** [GradientSum] *)

Lemma wrap64_add_l (a b : Z) : wrap64 (wrap64 a + b) = wrap64 (a + b).
Proof.
  unfold wrap64.
  replace ((a + 2 ^ 63) mod 2 ^ 64 - 2 ^ 63 + b + 2 ^ 63)
    with ((a + 2 ^ 63) mod 2 ^ 64 + b) by lia.
  rewrite Z.add_mod_idemp_l by lia.
  replace (a + 2 ^ 63 + b) with (a + b + 2 ^ 63) by lia. reflexivity.
Qed.

Lemma returns_trainBatch_sum (learningRate : F) batch (gradientSum : Z)
    (batchErrors : list F) :
  returns (trainBatch learningRate batch (gradientSum, batchErrors))
    (fun st => fst st = wrap64 (gradientSum + 1)).
Proof.
  unfold trainBatch.
  eapply returns_bind; [apply returns_any|]. intros n _.
  eapply returns_bind; [apply returns_any|]. intros [[wg bg] be] _.
  eapply returns_bind; [apply returns_any|]. intros [] _.
  cbn. reflexivity.
Qed.

Lemma returns_lift {A} (r : Res A) (Q : A -> Prop) :
  (forall a, r = Ok a -> Q a) -> returns (@lift F A r) Q.
Proof. intros H. destruct r; cbn; [apply H; reflexivity|exact I]. Qed.

Lemma returns_batchLoop_sum (learningRate : F) data (batchSize g0 : Z) :
  1 <= batchSize ->
  forall (fuel : nat) (i : Z) (st : Z * list F) (n : Z),
    fst st = wrap64 (g0 + n) ->
    returns (batchLoop fuel data batchSize learningRate i st)
      (fun st' => fst st' = wrap64 (g0 + (n + batchesFrom (len data) batchSize i))).
Proof.
  intros Hb. induction fuel as [|fuel IH]; intros i st n Hst; cbn [batchLoop].
  - destruct (i <? len data) eqn:E; [exact I|].
    cbn. unfold batchesFrom. rewrite E, Z.add_0_r. exact Hst.
  - destruct (i <? len data) eqn:E.
    + eapply returns_bind; [apply returns_any|]. intros batch _.
      destruct st as [g errs]. cbn [fst] in Hst.
      eapply returns_bind; [apply returns_trainBatch_sum|].
      intros st' Hst'. cbn beta in Hst'.
      rewrite (batchesFrom_step _ _ i) by lia.
      replace (n + (1 + batchesFrom (len data) batchSize (i + batchSize)))
        with (n + 1 + batchesFrom (len data) batchSize (i + batchSize)) by lia.
      apply IH. rewrite Hst', Hst, wrap64_add_l. f_equal. lia.
    + cbn. unfold batchesFrom. rewrite E, Z.add_0_r. exact Hst.
Qed.

Lemma returns_trainEpoch_sum (learningRate : F) data (batchSize epoch g g0 n : Z) :
  1 <= batchSize ->
  g = wrap64 (g0 + n) ->
  returns (trainEpoch data batchSize learningRate epoch g)
    (fun g' => g' = wrap64 (g0 + (n + batchCount (len data) batchSize))).
Proof.
  intros Hb Hg. unfold trainEpoch.
  eapply returns_bind.
  { apply (returns_batchLoop_sum learningRate data batchSize g0 Hb _ 0 (g, []) n).
    exact Hg. }
  intros [g' errs] Hg'. cbn [fst] in Hg'.
  rewrite batchesFrom_0 in Hg' by lia.
  eapply returns_bind; [apply returns_any|]. intros [] _. cbn. exact Hg'.
Qed.

Lemma returns_epochs_sum (learningRate : F) data (batchSize g0 : Z) :
  1 <= batchSize ->
  forall (k : nat) (j0 g n : Z),
    g = wrap64 (g0 + n) ->
    returns (forUpto k j0 (trainEpoch data batchSize learningRate) g)
      (fun g' => g' = wrap64 (g0 + (n + Z.of_nat k * batchCount (len data) batchSize))).
Proof.
  intros Hb. induction k as [|k IH]; intros j0 g n Hg; cbn [forUpto].
  - cbn. rewrite Hg. f_equal. lia.
  - eapply returns_bind; [apply (returns_trainEpoch_sum _ _ _ _ _ g0 n Hb Hg)|].
    intros g' Hg'.
    eapply returns_mono; [apply (IH _ _ _ Hg')|].
    intros g'' ->. f_equal. lia.
Qed.

Lemma returns_trainWorker (w : Worker) (epochs : Z) (learningRate : F) :
  1 <= BatchSize w ->
  GradientSum w = 0 ->
  returns (trainWorker w epochs learningRate)
    (fun w' =>
       ID w' = ID w /\ Data w' = Data w /\ BatchSize w' = BatchSize w /\
       GradientSum w'
       = wrap64 (Z.max 0 epochs * batchCount (len (Data w)) (BatchSize w))).
Proof.
  intros Hb Hg. unfold trainWorker.
  eapply returns_bind.
  { apply (returns_epochs_sum learningRate (Data w) (BatchSize w) 0 Hb
             (Z.to_nat epochs) 0 (GradientSum w) 0).
    rewrite Hg. reflexivity. }
  intros g ->. cbn. repeat split.
  f_equal. replace (Z.of_nat (Z.to_nat epochs)) with (Z.max 0 epochs) by lia. lia.
Qed.

(** What the goroutines return is kept by every step. *)
Lemma step_returns (Qs : nat -> Worker -> Prop) (t : nat) (W W' : @World F)
    (a : Access) :
  (forall t' p, goroutines W !! t' = Some p -> returns p (Qs t')) ->
  step t W = Some (a, W') ->
  forall t' p, goroutines W' !! t' = Some p -> returns p (Qs t').
Proof.
  intros Hall Hs. unfold step in Hs.
  destruct (crashed W); [discriminate|].
  destruct (goroutines W !! t) as [p|] eqn:Hp; [|discriminate].
  pose proof (Hall t p Hp) as Hpw.
  assert (Hset : forall m' p', returns p' (Qs t) ->
            forall t' q, goroutines (setGoroutine W m' t p') !! t' = Some q ->
                         returns q (Qs t')).
  { intros m' p' Hp' t' q Hq. cbn [setGoroutine goroutines] in Hq.
    destruct (decide (t' = t)) as [->|Hne].
    - rewrite list_lookup_insert_eq in Hq by (eapply lookup_lt_Some; eauto).
      injection Hq as <-. exact Hp'.
    - rewrite list_lookup_insert_ne in Hq by auto. apply Hall, Hq. }
  destruct p as [x|e| |r k|r k|w k]; try discriminate.
  - injection Hs as <- <-. exact Hall.
  - destruct (getF (model W) r); injection Hs as <- <-.
    + apply Hset. apply Hpw.
    + exact Hall.
  - injection Hs as <- <-. apply Hset. apply Hpw.
  - destruct (perform (model W) w); try discriminate; injection Hs as <- <-.
    + apply Hset. apply Hpw.
    + exact Hall.
Qed.

Lemma exec_returns (Qs : nat -> Worker -> Prop) (sched : list nat) :
  forall W : @World F,
    (forall t p, goroutines W !! t = Some p -> returns p (Qs t)) ->
    forall t p, goroutines (exec sched W).2 !! t = Some p -> returns p (Qs t).
Proof.
  induction sched as [|t0 sched IH]; intros W Hall; cbn [exec]; [exact Hall|].
  destruct (step t0 W) as [[a W']|] eqn:Hs; [|apply IH; exact Hall].
  specialize (IH W' (step_returns Qs t0 W W' a Hall Hs)).
  destruct (exec sched W') as [tr W'']. exact IH.
Qed.

Lemma start_lookup trainData (numWorkers batchSize epochs : Z) (learningRate : F)
    parts (t : nat) (p : Prog Worker) :
  1 <= numWorkers ->
  partitionData trainData numWorkers = Ok parts ->
  map (fun w => trainWorker w epochs learningRate) (newWorkers parts batchSize) !! t
  = Some p ->
  p = trainWorker (mkWorker (Z.of_nat t) (chunkAt trainData numWorkers t) batchSize 0)
        epochs learningRate.
Proof.
  intros HW Hp Hl.
  change (map ?f ?l) with (f <$> l) in Hl. rewrite list_lookup_fmap in Hl.
  unfold newWorkers in Hl. rewrite list_lookup_imap in Hl.
  destruct (parts !! t) as [part|] eqn:Hpt; [|discriminate].
  cbn in Hl. injection Hl as <-.
  destruct (partition_lookup _ _ _ _ _ HW Hp Hpt) as [_ ->]. reflexivity.
Qed.

Lemma worker_result_aux trainData (featureCount : nat)
    (numWorkers batchSize epochs : Z) (learningRate : F) (W0 : World)
    (sched : list nat) (t : nat) (w' : Worker) :
  1 <= batchSize ->
  startTraining trainData featureCount numWorkers batchSize epochs learningRate = Ok W0 ->
  goroutines (exec sched W0).2 !! t = Some (Ret w') ->
  ID w' = Z.of_nat t /\
  Data w' = chunkAt trainData numWorkers t /\
  BatchSize w' = batchSize /\
  GradientSum w'
  = wrap64 (Z.max 0 epochs * batchCount (len (chunkAt trainData numWorkers t)) batchSize).
Proof.
  intros Hb Hs Hret.
  destruct (start_partition _ _ _ _ _ _ _ Hs) as (HW & parts & Hp & ->).
  pose (Qs := fun (t : nat) (w' : Worker) =>
    ID w' = Z.of_nat t /\
    Data w' = chunkAt trainData numWorkers t /\
    BatchSize w' = batchSize /\
    GradientSum w'
    = wrap64 (Z.max 0 epochs
              * batchCount (len (chunkAt trainData numWorkers t)) batchSize)).
  refine (exec_returns Qs sched _ _ t (Ret w') Hret).
  intros t0 p Hl. cbn [goroutines] in Hl.
  rewrite (start_lookup _ _ _ _ _ _ _ _ HW Hp Hl).
  eapply returns_mono; [apply returns_trainWorker; [exact Hb|reflexivity]|].
  intros w'' H. exact H.
Qed.

(** X4 — Whenever a worker has returned, in any run with a positive batch size,
    its [ID], [Data] and [BatchSize] are as [main] set them, and its
    [GradientSum] is the number of batches it has trained on: the number of
    epochs times ceil(partition size / batchSize), as an int64. *)
Theorem worker_result trainData (featureCount : nat)
    (numWorkers batchSize epochs : Z) (learningRate : F) (W0 : World)
    (sched : list nat) (t : nat) (w' : Worker) :
  1 <= batchSize ->
  startTraining trainData featureCount numWorkers batchSize epochs learningRate = Ok W0 ->
  goroutines (exec sched W0).2 !! t = Some (Ret w') ->
  ID w' = Z.of_nat t /\
  Data w' = chunkAt trainData numWorkers t /\
  BatchSize w' = batchSize /\
  GradientSum w'
  = wrap64 (Z.max 0 epochs * batchCount (len (chunkAt trainData numWorkers t)) batchSize).
Proof. apply worker_result_aux. Qed.

Lemma wp_trainWorker_max (w : Worker) (epochs : Z) (learningRate : F) :
  1 <= BatchSize w ->
  wp (trainWorker w epochs learningRate)
     (fun _ h c => h = None /\ c = Z.max 0 epochs * batchCount (len (Data w)) (BatchSize w))
     None 0.
Proof.
  intros Hb. unfold trainWorker.
  apply wp_bind. apply wp_epochs; [exact Hb|]. intros g.
  cbn. split; [reflexivity|].
  replace (Z.of_nat (Z.to_nat epochs)) with (Z.max 0 epochs) by lia. lia.
Qed.

Lemma returned_all (gs : list (@Prog F (@Worker F))) :
  forallb returned gs = true -> exists ws, gs = map Ret ws.
Proof.
  induction gs as [|p gs IH]; intros H; [exists []; reflexivity|].
  cbn [forallb] in H. apply andb_true_iff in H as [Hp Hgs].
  destruct (IH Hgs) as [ws ->]. destruct p; try discriminate.
  exists (a :: ws). reflexivity.
Qed.

Lemma wrap64_sum (gs ns : list Z) :
  Forall2 (fun g n => g = wrap64 n) gs ns ->
  wrap64 (sumZ gs) = wrap64 (sumZ ns).
Proof.
  induction 1 as [|g n gs ns Hg _ IH]; [reflexivity|].
  unfold sumZ in *. cbn [foldr]. subst g.
  rewrite wrap64_add_l.
  rewrite (Z.add_comm n (foldr Z.add 0 gs)), (Z.add_comm n (foldr Z.add 0 ns)).
  rewrite <- (wrap64_add_l (foldr Z.add 0 gs)), <- (wrap64_add_l (foldr Z.add 0 ns)).
  rewrite IH. reflexivity.
Qed.

(** X5 — When every worker has returned, in any run with a positive batch size,
    the update counter of the model is the sum of the workers'
    [GradientSum]s (as an int64): every batch a worker counts has been
    applied to the model exactly once. *)
Theorem updates_sum_gradientSums trainData (featureCount : nat)
    (numWorkers batchSize epochs : Z) (learningRate : F) (W0 : World)
    (sched : list nat) :
  1 <= batchSize ->
  startTraining trainData featureCount numWorkers batchSize epochs learningRate = Ok W0 ->
  joined (exec sched W0).2 = true ->
  exists workers,
    goroutines (exec sched W0).2 = map Ret workers /\
    length workers = Z.to_nat numWorkers /\
    Updates (model (exec sched W0).2) = wrap64 (sumZ (map GradientSum workers)).
Proof.
  intros Hb Hs HJ.
  pose proof (fun t w' => worker_result_aux trainData featureCount numWorkers batchSize
                epochs learningRate W0 sched t w' Hb Hs) as Hres.
  destruct (start_partition _ _ _ _ _ _ _ Hs) as (HW & parts & Hp & HW0).
  rewrite HW0 in *.
  pose (ns := map (fun w => Z.max 0 epochs * batchCount (len (Data w)) (BatchSize w))
                  (newWorkers parts batchSize)).
  assert (HI : Inv (map (fun n c => c = n) ns)
                 (mkWorld (newModel featureCount)
                    (map (fun w => trainWorker w epochs learningRate)
                         (newWorkers parts batchSize)) None)
                 None (replicate (length (newWorkers parts batchSize)) 0)).
  { unfold ns. rewrite map_map.
    apply (init_inv _ (fun w c => c = Z.max 0 epochs
                                      * batchCount (len (Data w)) (BatchSize w))).
    intros w Hw. apply wp_trainWorker_max.
    rewrite (newWorkers_elem _ _ _ Hw). exact Hb. }
  destruct (exec_inv _ sched _ _ _ HI) as [_ Hend].
  destruct Hend as (holder & cs & HI').
  { unfold joined in HJ. apply andb_true_iff in HJ as [Hc _].
    apply bool_decide_eq_true in Hc. exact Hc. }
  pose proof (joined_counts _ _ _ _ HI' HJ) as Hcs. subst cs.
  pose proof HJ as HJ'. unfold joined in HJ'. apply andb_true_iff in HJ' as [_ Hall].
  destruct (returned_all _ Hall) as [ws Hws].
  exists ws. split; [exact Hws|].
  assert (Hlen : length ws = length ns).
  { pose proof (inv_cs _ _ _ _ HI') as Hl. rewrite Hws, length_map in Hl. lia. }
  assert (Hparts : length parts = Z.to_nat numWorkers).
  { rewrite (partition_spec _ _ HW) in Hp. injection Hp as <-.
    rewrite length_map, length_seq. reflexivity. }
  split.
  { rewrite Hlen. unfold ns, newWorkers. rewrite length_map, length_imap. exact Hparts. }
  rewrite (inv_updates _ _ _ _ HI'). symmetry. apply wrap64_sum.
  apply Forall2_fmap_l. apply Forall2_same_length_lookup. split; [exact Hlen|].
  intros t w' n Hw' Hn.
  assert (Hg : goroutines (exec sched
                 (mkWorld (newModel featureCount)
                    (map (fun w => trainWorker w epochs learningRate)
                         (newWorkers parts batchSize)) None)).2 !! t = Some (Ret w')).
  { rewrite Hws. change (map ?f ?l) with (f <$> l).
    rewrite list_lookup_fmap, Hw'. reflexivity. }
  cbn [compose]. unfold compose.
  destruct (Hres t w' Hg) as (_ & Hd & _ & ->). f_equal.
  unfold ns in Hn. change (map ?f ?l) with (f <$> l) in Hn.
  rewrite list_lookup_fmap in Hn. unfold newWorkers in Hn.
  rewrite list_lookup_imap in Hn.
  destruct (parts !! t) as [part|] eqn:Hpt; [|discriminate].
  cbn in Hn. injection Hn as <-.
  destruct (partition_lookup _ _ _ _ _ HW Hp Hpt) as [_ ->]. reflexivity.
Qed.

(** ** The recorded metrics *)

Lemma mustWrite_bind_l {A B} (e : Z) (p : @Prog F A) (f : A -> @Prog F B) :
  mustWrite e p -> mustWrite e (p ≫= f).
Proof.
  induction p as [a|e'| |r k IH|r k IH|w k IH]; cbn; intros H.
  - contradiction.
  - exact I.
  - exact I.
  - intros v. apply IH, H.
  - intros z. apply IH, H.
  - destruct H as [H|H]; [left; exact H|right; apply IH, H].
Qed.

Lemma mustWrite_bind_r {A B} (e : Z) (p : @Prog F A) (f : A -> @Prog F B) :
  (forall a, mustWrite e (f a)) -> mustWrite e (p ≫= f).
Proof.
  intros H. induction p as [a|e'| |r k IH|r k IH|w k IH]; cbn.
  - apply H.
  - exact I.
  - exact I.
  - intros v. apply IH.
  - intros z. apply IH.
  - right. apply IH.
Qed.

Lemma mustWrite_trainEpoch (learningRate : F) data (batchSize epoch gradientSum : Z) :
  mustWrite epoch (trainEpoch data batchSize learningRate epoch gradientSum).
Proof.
  unfold trainEpoch. apply mustWrite_bind_r. intros [g errs].
  apply mustWrite_bind_l. cbn. right. left. eexists. reflexivity.
Qed.

Lemma mustWrite_epochs (learningRate : F) data (batchSize e : Z) :
  forall (k : nat) (j0 g : Z),
    j0 <= e < j0 + Z.of_nat k ->
    mustWrite e (forUpto k j0 (trainEpoch data batchSize learningRate) g).
Proof.
  induction k as [|k IH]; intros j0 g He; cbn [forUpto]; [lia|].
  destruct (decide (e = j0)) as [->|Hne].
  - apply mustWrite_bind_l. apply mustWrite_trainEpoch.
  - apply mustWrite_bind_r. intros g'. apply IH. lia.
Qed.

Lemma mustWrite_trainWorker (w : Worker) (epochs e : Z) (learningRate : F) :
  0 <= e < epochs -> mustWrite e (trainWorker w epochs learningRate).
Proof.
  intros He. unfold trainWorker. apply mustWrite_bind_l.
  apply mustWrite_epochs. lia.
Qed.

Lemma perform_metrics (m m' : @Model F) (w : Wr) (e : Z) :
  perform m w = Done m' ->
  (is_Some (Metrics m !! e) -> is_Some (Metrics m' !! e)) /\
  ((exists v, w = WrMetric e v) -> is_Some (Metrics m' !! e)).
Proof.
  intros H. destruct w as [j v|v|u| | | | |e' v]; cbn in H;
    repeat match type of H with
           | (if ?c then _ else _) = _ => destruct c
           end; try discriminate; injection H as <-; cbn [Metrics];
    (split; [auto|intros [v0 Hv]; try discriminate]).
  - intros Hm. destruct (decide (e' = e)) as [->|Hne].
    + rewrite lookup_insert_eq. eauto.
    + rewrite lookup_insert_ne by auto. exact Hm.
  - injection Hv as -> _. rewrite lookup_insert_eq. eauto.
Qed.

Lemma step_mustWrite (e : Z) (t : nat) (W W' : @World F) (a : Access) :
  (forall t' p, goroutines W !! t' = Some p ->
     is_Some (Metrics (model W) !! e) \/ mustWrite e p) ->
  step t W = Some (a, W') ->
  length (goroutines W') = length (goroutines W) /\
  forall t' p, goroutines W' !! t' = Some p ->
    is_Some (Metrics (model W') !! e) \/ mustWrite e p.
Proof.
  intros Hall Hs. unfold step in Hs.
  destruct (crashed W); [discriminate|].
  destruct (goroutines W !! t) as [p|] eqn:Hp; [|discriminate].
  pose proof (Hall t p Hp) as Hpw.
  assert (Hset : forall m' p',
            (is_Some (Metrics (model W) !! e) -> is_Some (Metrics m' !! e)) ->
            is_Some (Metrics m' !! e) \/ mustWrite e p' ->
            length (goroutines (setGoroutine W m' t p')) = length (goroutines W) /\
            forall t' q, goroutines (setGoroutine W m' t p') !! t' = Some q ->
                         is_Some (Metrics (model (setGoroutine W m' t p')) !! e)
                         \/ mustWrite e q).
  { intros m' p' Hmono Hp'. cbn [setGoroutine goroutines model].
    split; [apply length_insert|]. intros t' q Hq.
    destruct (decide (t' = t)) as [->|Hne].
    - rewrite list_lookup_insert_eq in Hq by (eapply lookup_lt_Some; eauto).
      injection Hq as <-. exact Hp'.
    - rewrite list_lookup_insert_ne in Hq by auto.
      destruct (Hall t' q Hq) as [H|H]; [left; apply Hmono, H|right; exact H]. }
  destruct p as [x|e'| |r k|r k|w k]; try discriminate.
  - injection Hs as <- <-. split; [reflexivity|exact Hall].
  - destruct (getF (model W) r); injection Hs as <- <-.
    + apply Hset; [auto|]. destruct Hpw as [H|H]; [left; exact H|right; apply H].
    + split; [reflexivity|exact Hall].
  - injection Hs as <- <-.
    apply Hset; [auto|]. destruct Hpw as [H|H]; [left; exact H|right; apply H].
  - destruct (perform (model W) w) as [m'| |e'] eqn:Hperf; try discriminate;
      injection Hs as <- <-.
    + destruct (perform_metrics _ _ _ e Hperf) as [Hmono Hwr].
      apply Hset; [exact Hmono|].
      destruct Hpw as [H|[H|H]]; [left; apply Hmono, H|left; apply Hwr, H|right; exact H].
    + split; [reflexivity|exact Hall].
Qed.

Lemma exec_mustWrite (e : Z) (sched : list nat) :
  forall W : @World F,
    (forall t p, goroutines W !! t = Some p ->
       is_Some (Metrics (model W) !! e) \/ mustWrite e p) ->
    length (goroutines (exec sched W).2) = length (goroutines W) /\
    forall t p, goroutines (exec sched W).2 !! t = Some p ->
      is_Some (Metrics (model (exec sched W).2) !! e) \/ mustWrite e p.
Proof.
  induction sched as [|t0 sched IH]; intros W Hall; cbn [exec]; [auto|].
  destruct (step t0 W) as [[a W']|] eqn:Hs; [|apply IH; exact Hall].
  destruct (step_mustWrite e t0 W W' a Hall Hs) as [Hlen Hall'].
  specialize (IH W' Hall'). destruct (exec sched W') as [tr W''].
  cbn [snd] in *. rewrite <- Hlen. exact IH.
Qed.

Lemma replay_keys (lo hi e : Z) (tr : list (@Event F)) :
  Forall (accessOk (metricKeyIn lo hi)) tr ->
  forall M : gmap Z F,
    is_Some (replayMetrics tr M !! e) -> is_Some (M !! e) \/ lo <= e < hi.
Proof.
  unfold replayMetrics. induction 1 as [|[t a] tr Ha _ IH]; intros M HM; [left; exact HM|].
  cbn [fold_left] in HM.
  destruct a as [r v|r z|w|e']; try (apply IH, HM).
  destruct w as [j v|v|u| | | | |e' v]; try (apply IH, HM).
  destruct (IH _ HM) as [H|H]; [|right; exact H].
  destruct (decide (e' = e)) as [->|Hne]; [right; exact Ha|].
  rewrite lookup_insert_ne in H by auto. left. exact H.
Qed.

(** X6 — When every worker has returned, the map [Metrics] holds a value for
    exactly the epochs [0 .. epochs-1]: the report loop of [main] reads no
    key that was not written, and no other key was written.  This holds for
    every training set and configuration with which the workers start. *)
Theorem metrics_complete trainData (featureCount : nat)
    (numWorkers batchSize epochs : Z) (learningRate : F) (W0 : World)
    (sched : list nat) (e : Z) :
  startTraining trainData featureCount numWorkers batchSize epochs learningRate = Ok W0 ->
  joined (exec sched W0).2 = true ->
  is_Some (Metrics (model (exec sched W0).2) !! e) <-> 0 <= e < epochs.
Proof.
  intros Hs HJ. split.
  - intros He.
    pose proof (start_metric_keys _ _ _ _ _ _ _ sched Hs) as Hkeys.
    rewrite exec_metrics in He.
    destruct (replay_keys 0 epochs e _ Hkeys _ He) as [H|H]; [|exact H].
    destruct (start_partition _ _ _ _ _ _ _ Hs) as (_ & parts & _ & ->).
    cbn in H. rewrite lookup_empty in H. destruct H; discriminate.
  - intros He.
    destruct (start_partition _ _ _ _ _ _ _ Hs) as (HW & parts & Hp & HW0).
    rewrite HW0 in *.
    destruct (exec_mustWrite e sched
                (mkWorld (newModel featureCount)
                   (map (fun w => trainWorker w epochs learningRate)
                        (newWorkers parts batchSize)) None)) as [Hlen Hall].
    { intros t p Hl. right. cbn [goroutines] in Hl.
      rewrite (start_lookup _ _ _ _ _ _ _ _ HW Hp Hl).
      apply mustWrite_trainWorker, He. }
    assert (Hparts : length parts = Z.to_nat numWorkers).
    { rewrite (partition_spec _ _ HW) in Hp. injection Hp as <-.
      rewrite length_map, length_seq. reflexivity. }
    cbn [goroutines] in Hlen. unfold newWorkers in Hlen.
    rewrite length_map, length_imap, Hparts in Hlen.
    destruct (lookup_lt_is_Some_2 (goroutines (exec sched
                (mkWorld (newModel featureCount)
                   (map (fun w => trainWorker w epochs learningRate)
                        (newWorkers parts batchSize)) None)).2) 0%nat) as [p Hp0].
    { unfold newWorkers. rewrite Hlen. lia. }
    destruct (Hall 0%nat p Hp0) as [H|H]; [exact H|].
    unfold joined in HJ. apply andb_true_iff in HJ as [_ Hret].
    pose proof (forallb_lookup _ _ _ _ Hret Hp0) as Hr.
    destruct p; try discriminate. contradiction.
Qed.

End TrainerResults.

(** * Traces of interleaved runs: whole applications and the values written *)

Section TrainerTraces.

Context {F : Type} {FO : Float64 F}.

Implicit Types (trainData data batch : list (@DataPoint F)) (m : @Model F).

(** ** [applies] of [trainWorker] *)

Lemma applies_bind {A B} (fc : nat) (p : @Prog F A) (f : A -> @Prog F B) Q s :
  applies fc p (fun a s' => applies fc (f a) Q s') s -> applies fc (p ≫= f) Q s.
Proof.
  revert s. induction p as [a|e| |r k IH|r k IH|w k IH]; intros s H; cbn in H |- *.
  - exact H.
  - exact I.
  - exact I.
  - intros v. apply IH, H.
  - destruct r; [apply IH, H|intros z; apply IH, H].
  - destruct w.
    + destruct H as (i & H1 & H2 & H3 & H4). exists i.
      split; [exact H1|]. split; [exact H2|]. split; [exact H3|]. apply IH, H4.
    + destruct H as [H1 H2]. split; [exact H1|apply IH, H2].
    + destruct H as [H1 H2]. split; [exact H1|apply IH, H2].
    + destruct H as [H1 H2]. split; [exact H1|apply IH, H2].
    + destruct H as [H1 H2]. split; [exact H1|apply IH, H2].
    + destruct H as [H1 H2]. split; [exact H1|apply IH, H2].
    + destruct H as [H1 H2]. split; [exact H1|apply IH, H2].
    + destruct H as [H1 H2]. split; [exact H1|apply IH, H2].
Qed.

Lemma applies_noWrites {A} (fc : nat) (p : @Prog F A) (Q : A -> Stage -> Prop) s :
  noWrites p -> (forall a, Q a s) -> applies fc p Q s.
Proof.
  intros Hp HQ. induction p as [a|e| |r k IH|r k IH|w k IH]; cbn in Hp |- *.
  - apply HQ.
  - exact I.
  - exact I.
  - intros v. apply IH, Hp.
  - destruct r; [apply IH, Hp|intros z; apply IH, Hp].
  - contradiction.
Qed.

Lemma applies_descent (fc : nat) (learningRate : F) (weightGradients : list F) (n : Z)
    (Q : unit -> Stage -> Prop) :
  Q tt (AtWeight fc) ->
  forall (k j0 : nat),
    (j0 + k = fc)%nat ->
    applies fc
      (forUpto k (Z.of_nat j0)
         (fun j _ =>
            cur ← readF (RdWeight j);
            g ← lift (index weightGradients j);
            act (WrWeight j (fsub cur (fdiv (fmul learningRate g) (of_int n)))))
         tt) Q (AtWeight j0).
Proof.
  intros HQ. induction k as [|k IH]; intros j0 Hj; cbn [forUpto].
  - cbn. replace j0 with fc by lia. exact HQ.
  - apply applies_bind. cbn. intros cur.
    destruct (index weightGradients (Z.of_nat j0)) as [g|e]; cbn; [|exact I].
    exists j0. split; [reflexivity|]. split; [reflexivity|]. split; [lia|].
    replace (Z.of_nat j0 + 1) with (Z.of_nat (S j0)) by lia.
    apply IH. lia.
Qed.

Lemma applies_applyGradient (fc : nat) (learningRate : F) (weightGradients : list F)
    (biasGradient : F) (n : Z) (Q : unit -> Stage -> Prop) :
  Q tt Outside ->
  applies fc (applyGradient learningRate weightGradients biasGradient n) Q Outside.
Proof.
  intros HQ. unfold applyGradient.
  apply applies_bind. cbn. split; [reflexivity|]. rewrite Nat2Z.id.
  apply applies_bind.
  apply (applies_descent fc learningRate weightGradients n _) with (j0 := 0%nat);
    [|lia].
  cbn. intros b. split; [reflexivity|]. intros u.
  split; [reflexivity|]. split; [reflexivity|]. exact HQ.
Qed.

Lemma applies_trainBatch (fc : nat) (learningRate : F) batch (st : Z * list F)
    (Q : Z * list F -> Stage -> Prop) :
  (forall st', Q st' Outside) ->
  applies fc (trainBatch learningRate batch st) Q Outside.
Proof.
  intros HQ. destruct st as [gradientSum batchErrors]. unfold trainBatch.
  apply applies_bind. cbn [readZ applies].
  apply applies_bind. apply applies_noWrites.
  { apply noWrites_forEach. apply accumulate_noWrites. }
  intros [[wg bg] be].
  apply applies_bind. apply applies_applyGradient. cbn. apply HQ.
Qed.

Lemma applies_batchLoop (fc : nat) (learningRate : F) data (batchSize : Z)
    (Q : Z * list F -> Stage -> Prop) :
  (forall st', Q st' Outside) ->
  forall (fuel : nat) (i : Z) (st : Z * list F),
    applies fc (batchLoop fuel data batchSize learningRate i st) Q Outside.
Proof.
  intros HQ. induction fuel as [|fuel IH]; intros i st; cbn [batchLoop].
  - destruct (i <? len data); [exact I|apply HQ].
  - destruct (i <? len data); [|apply HQ].
    apply applies_bind. apply applies_noWrites; [apply noWrites_lift|].
    intros batch. apply applies_bind. apply applies_trainBatch.
    intros st'. apply IH.
Qed.

Lemma applies_trainEpoch (fc : nat) (learningRate : F) data
    (batchSize epoch gradientSum : Z) (Q : Z -> Stage -> Prop) :
  (forall g, Q g Outside) ->
  applies fc (trainEpoch data batchSize learningRate epoch gradientSum) Q Outside.
Proof.
  intros HQ. unfold trainEpoch.
  apply applies_bind. apply applies_batchLoop. intros [g errs].
  cbn. split; [reflexivity|]. split; [reflexivity|]. split; [reflexivity|]. apply HQ.
Qed.

Lemma applies_trainWorker (fc : nat) (w : Worker) (epochs : Z) (learningRate : F) :
  applies fc (trainWorker w epochs learningRate) (fun _ s => s = Outside) Outside.
Proof.
  unfold trainWorker. apply applies_bind.
  generalize (GradientSum w) as g. generalize 0 as j0.
  induction (Z.to_nat epochs) as [|n IH]; intros j0 g; cbn [forUpto].
  - cbn. reflexivity.
  - apply applies_bind. apply applies_trainEpoch. intros g'. apply IH.
Qed.

(** ** The invariant [ApplyInv] *)

Lemma stageOf_self (t : nat) (s : Stage) : stageOf (Some (t, s)) t = s.
Proof. cbn. destruct (decide (t = t)); [reflexivity|contradiction]. Qed.

Lemma stageOf_inside (cur : option (nat * Stage)) (t : nat) (s : Stage) :
  stageOf cur t = s -> s <> Outside -> cur = Some (t, s).
Proof.
  unfold stageOf. destruct cur as [[t' s']|]; [|congruence].
  destruct (decide (t' = t)); congruence.
Qed.

Lemma stageOf_other (cur : option (nat * Stage)) (t t' : nat) (s s' : Stage) :
  t' <> t ->
  (cur = None \/ cur = Some (t, s)) ->
  stageOf cur t' = Outside /\ stageOf (Some (t, s')) t' = Outside /\
  stageOf None t' = Outside.
Proof.
  intros Hne Hcur. split; [|split; [|reflexivity]].
  - destruct Hcur as [->| ->]; [reflexivity|]. cbn.
    destruct (decide (t = t')); [congruence|reflexivity].
  - cbn. destruct (decide (t = t')); [congruence|reflexivity].
Qed.

Lemma ai_update (fc : nat) (W : @World F) (cur cur' : option (nat * Stage))
    (t : nat) (p p' : Prog Worker) (m' : Model) :
  ApplyInv fc W cur ->
  goroutines W !! t = Some p ->
  length (Weights m') = fc ->
  mu m' = bool_decide (is_Some cur') ->
  (forall t', t' <> t -> stageOf cur' t' = stageOf cur t') ->
  applies fc p' (fun _ s => s = Outside) (stageOf cur' t) ->
  ApplyInv fc (setGoroutine W m' t p') cur'.
Proof.
  intros [Hl Hmu Hs] Hp Hl' Hmu' Hother Hp'.
  assert (Hlt : (t < length (goroutines W))%nat) by (eapply lookup_lt_Some; eauto).
  constructor; cbn [setGoroutine model goroutines]; auto.
  intros t0 q Hq. destruct (decide (t0 = t)) as [->|Hne].
  - rewrite list_lookup_insert_eq in Hq by exact Hlt. injection Hq as <-. exact Hp'.
  - rewrite list_lookup_insert_ne in Hq by auto. rewrite (Hother t0 Hne). apply Hs, Hq.
Qed.

Lemma apply_step (fc : nat) (W W' : @World F) (cur : option (nat * Stage)) (t : nat)
    (a : Access) :
  ApplyInv fc W cur ->
  step t W = Some (a, W') ->
  exists cur', ApplyInv fc W' cur' /\ applyStep fc cur t a cur'.
Proof.
  intros HI Hs. unfold step in Hs.
  destruct (crashed W) as [e0|] eqn:Hc; [discriminate|].
  destruct (goroutines W !! t) as [p|] eqn:Hp; [|discriminate].
  pose proof (ai_applies _ _ _ HI t p Hp) as Happ.
  pose proof (ai_len _ _ _ HI) as Hlen.
  pose proof (ai_mu _ _ _ HI) as Hmu.
  assert (Hpanic : forall e, ApplyInv fc (panicWith W e) cur).
  { intros e. destruct HI as [H1 H2 H3]. constructor; cbn; assumption. }
  destruct p as [x|e| |r k|r k|w k]; try discriminate; cbn in Happ.
  - injection Hs as <- <-. exists cur. split; [apply Hpanic|reflexivity].
  - destruct (getF (model W) r) as [v|e]; injection Hs as <- <-.
    + exists cur. split; [|reflexivity].
      apply (ai_update fc W cur cur t _ (k v) (model W) HI Hp); auto.
    + exists cur. split; [apply Hpanic|reflexivity].
  - injection Hs as <- <-. exists cur. split; [|reflexivity].
    apply (ai_update fc W cur cur t _ (k (getZ (model W) r)) (model W) HI Hp); auto.
    destruct r; cbn [getZ]; [rewrite Hlen; exact Happ|apply Happ].
  - destruct (perform (model W) w) as [m'| |e] eqn:Hperf; try discriminate;
      injection Hs as <- <-.
    2:{ exists cur. split; [apply Hpanic|].
        destruct w as [j v|v|u| | | | |e' v]; cbn in Hperf, Happ |- *.
        - destruct Happ as (i & Hst & -> & Hi & _).
          replace ((0 <=? Z.of_nat i) && (Z.of_nat i <? len (Weights (model W))))
            with true in Hperf by lia.
          discriminate.
        - discriminate.
        - discriminate.
        - destruct (mu (model W)); discriminate.
        - destruct Happ as [Hst _].
          apply stageOf_inside in Hst; [|discriminate].
          rewrite Hmu, Hst in Hperf. cbn in Hperf. discriminate.
        - reflexivity.
        - reflexivity.
        - reflexivity. }
    destruct w as [j v|v|u| | | | |e' v]; cbn in Hperf, Happ |- *.
    + destruct Happ as (i & Hst & -> & Hi & Hk).
      destruct ((0 <=? Z.of_nat i) && (Z.of_nat i <? len (Weights (model W))));
        [|discriminate].
      injection Hperf as <-.
      pose proof (stageOf_inside _ _ _ Hst ltac:(discriminate)) as Hcur.
      exists (Some (t, AtWeight (S i))). split.
      * apply (ai_update fc W cur _ t _ k _ HI Hp).
        -- cbn. rewrite length_insert. exact Hlen.
        -- cbn [mu]. rewrite Hmu, Hcur. reflexivity.
        -- intros t' Hne.
           destruct (stageOf_other cur t t' (AtWeight i) (AtWeight (S i)) Hne
                       (or_intror Hcur)) as (-> & -> & _). reflexivity.
        -- rewrite stageOf_self. exact Hk.
      * exists i. auto.
    + destruct Happ as [Hst Hk]. injection Hperf as <-.
      pose proof (stageOf_inside _ _ _ Hst ltac:(discriminate)) as Hcur.
      exists (Some (t, AtCounter)). split; [|auto].
      apply (ai_update fc W cur _ t _ k _ HI Hp).
      * exact Hlen.
      * cbn [mu]. rewrite Hmu, Hcur. reflexivity.
      * intros t' Hne.
        destruct (stageOf_other cur t t' (AtWeight fc) AtCounter Hne
                    (or_intror Hcur)) as (-> & -> & _). reflexivity.
      * rewrite stageOf_self. exact Hk.
    + destruct Happ as [Hst Hk]. injection Hperf as <-.
      pose proof (stageOf_inside _ _ _ Hst ltac:(discriminate)) as Hcur.
      exists (Some (t, AtUnlock)). split; [|auto].
      apply (ai_update fc W cur _ t _ k _ HI Hp).
      * exact Hlen.
      * cbn [mu]. rewrite Hmu, Hcur. reflexivity.
      * intros t' Hne.
        destruct (stageOf_other cur t t' AtCounter AtUnlock Hne
                    (or_intror Hcur)) as (-> & -> & _). reflexivity.
      * rewrite stageOf_self. exact Hk.
    + destruct Happ as [Hst Hk].
      destruct (mu (model W)) eqn:Hl; [discriminate|]. injection Hperf as <-.
      assert (Hcur : cur = None).
      { destruct cur; [|reflexivity]. discriminate. }
      exists (Some (t, AtWeight 0)). split; [|auto].
      apply (ai_update fc W cur _ t _ k _ HI Hp).
      * exact Hlen.
      * reflexivity.
      * intros t' Hne.
        destruct (stageOf_other cur t t' Outside (AtWeight 0) Hne
                    (or_introl Hcur)) as (-> & -> & _). reflexivity.
      * rewrite stageOf_self. exact Hk.
    + destruct Happ as [Hst Hk].
      destruct (mu (model W)) eqn:Hl; [|discriminate]. injection Hperf as <-.
      pose proof (stageOf_inside _ _ _ Hst ltac:(discriminate)) as Hcur.
      exists None. split; [|auto].
      apply (ai_update fc W cur _ t _ k _ HI Hp).
      * exact Hlen.
      * reflexivity.
      * intros t' Hne.
        destruct (stageOf_other cur t t' AtUnlock Outside Hne
                    (or_intror Hcur)) as (-> & _ & ->). reflexivity.
      * cbn [stageOf]. exact Hk.
    + destruct Happ as [Hst Hk].
      destruct (MetricsMu (model W)); [discriminate|]. injection Hperf as <-.
      exists cur. split; [|reflexivity].
      apply (ai_update fc W cur cur t _ k _ HI Hp); auto.
    + destruct Happ as [Hst Hk].
      destruct (MetricsMu (model W)); [|discriminate]. injection Hperf as <-.
      exists cur. split; [|reflexivity].
      apply (ai_update fc W cur cur t _ k _ HI Hp); auto.
    + destruct Happ as [Hst Hk]. injection Hperf as <-.
      exists cur. split; [|reflexivity].
      apply (ai_update fc W cur cur t _ k _ HI Hp); auto.
Qed.

Lemma applications_cons (fc : nat) (cur cur' : option (nat * Stage)) (t : nat)
    (a : @Access F) (tr : list (@Event F)) :
  applyStep fc cur t a cur' ->
  applications fc cur' tr ->
  applications fc cur ((t, a) :: tr).
Proof.
  intros H Htr. cbn [applications].
  destruct a as [r v|r z|w|e]; cbn [applyStep] in H; try (rewrite <- H; exact Htr).
  destruct w; cbn in H |- *.
  - destruct H as (i & H1 & H2 & H3 & ->). exists i. auto.
  - destruct H as [H1 ->]. auto.
  - destruct H as [H1 ->]. auto.
  - destruct H as [H1 ->]. auto.
  - destruct H as [H1 ->]. auto.
  - rewrite <- H. exact Htr.
  - rewrite <- H. exact Htr.
  - rewrite <- H. exact Htr.
Qed.

Lemma exec_applications (fc : nat) (sched : list nat) :
  forall (W : @World F) (cur : option (nat * Stage)),
    ApplyInv fc W cur -> applications fc cur (exec sched W).1.
Proof.
  induction sched as [|t sched IH]; intros W cur HI; cbn [exec]; [exact I|].
  destruct (step t W) as [[a W']|] eqn:Hs; [|apply IH, HI].
  destruct (apply_step _ _ _ _ _ _ HI Hs) as (cur' & HI' & Hstep).
  specialize (IH W' cur' HI'). destruct (exec sched W') as [tr W''].
  cbn [fst] in *. exact (applications_cons _ _ _ _ _ _ Hstep IH).
Qed.

Lemma start_applications trainData (featureCount : nat)
    (numWorkers batchSize epochs : Z) (learningRate : F) (W0 : World) :
  startTraining trainData featureCount numWorkers batchSize epochs learningRate = Ok W0 ->
  ApplyInv featureCount W0 None.
Proof.
  intros Hs.
  destruct (start_partition _ _ _ _ _ _ _ Hs) as (HW & parts & Hp & ->).
  constructor; cbn [model goroutines newModel Weights mu]; try reflexivity.
  - apply length_replicate.
  - intros t p Hl.
    rewrite (start_lookup _ _ _ _ _ _ _ _ HW Hp Hl). apply applies_trainWorker.
Qed.

(** ** The values a worker writes *)

Lemma returns_accumulate (dp : DataPoint) (wg : list F) (bg be : F) :
  returns (accumulate dp (wg, bg, be))
    (fun r => exists p, snd r = fadd be (pow2 (fsub p (Label dp)))).
Proof.
  unfold accumulate.
  eapply returns_bind; [apply returns_any|]. intros prediction _.
  eapply returns_bind; [apply returns_any|]. intros wg' _.
  cbn. exists prediction. reflexivity.
Qed.

Lemma returns_gradient batch :
  forall (wg : list F) (bg be : F),
    returns (forEach batch accumulate (wg, bg, be))
      (fun r => exists predictions : list F,
         length predictions = length batch /\
         snd r = sumFrom be (zip_with (fun p dp => pow2 (fsub p (Label dp)))
                                      predictions batch)).
Proof.
  induction batch as [|dp batch IH]; intros wg bg be; cbn [forEach].
  - cbn. exists []. split; reflexivity.
  - eapply returns_bind; [apply returns_accumulate|].
    intros [[wg' bg'] be'] [p Hp]. cbn [snd] in Hp. subst be'.
    eapply returns_mono; [apply IH|].
    intros r (ps & Hlen & Hr). exists (p :: ps).
    split; [cbn; lia|]. rewrite Hr. reflexivity.
Qed.

Lemma returns_trainBatch_error (learningRate : F) batch (gradientSum : Z)
    (batchErrors : list F) :
  returns (trainBatch learningRate batch (gradientSum, batchErrors))
    (fun st => exists err, batchErrorOf batch err /\ snd st = batchErrors ++ [err]).
Proof.
  unfold trainBatch.
  eapply returns_bind; [apply returns_any|]. intros n _.
  eapply returns_bind; [apply returns_gradient|].
  intros [[wg bg] be] (ps & Hlen & Hbe). cbn [snd] in Hbe.
  eapply returns_bind; [apply returns_any|]. intros [] _.
  cbn. exists (fdiv be (of_int (len batch))). split; [|reflexivity].
  exists ps. split; [exact Hlen|]. rewrite Hbe. reflexivity.
Qed.

Lemma returns_batches_errors (learningRate : F) (batches : list (list (@DataPoint F))) :
  forall (gradientSum : Z) (batchErrors : list F),
    returns (forEach batches (trainBatch learningRate) (gradientSum, batchErrors))
      (fun st => exists errs,
         Forall2 batchErrorOf batches errs /\ snd st = batchErrors ++ errs).
Proof.
  induction batches as [|b batches IH]; intros g errs0; cbn [forEach].
  - cbn. exists []. split; [constructor|]. rewrite app_nil_r. reflexivity.
  - eapply returns_bind; [apply returns_trainBatch_error|].
    intros [g' errs'] (err & Herr & Hst). cbn [snd] in Hst. subst errs'.
    eapply returns_mono; [apply IH|].
    intros st (errs & Herrs & Hs). exists (err :: errs).
    split; [constructor; assumption|]. rewrite Hs, <- app_assoc. reflexivity.
Qed.

Lemma allWrites_returns {A B} (P : Wr -> Prop) (p : @Prog F A) (f : A -> @Prog F B)
    (Q : A -> Prop) :
  returns p Q -> allWrites P p -> (forall a, Q a -> allWrites P (f a)) ->
  allWrites P (p ≫= f).
Proof.
  intros HQ Hp Hf. induction p as [a|e| |r k IH|r k IH|w k IH]; cbn in *.
  - apply Hf, HQ.
  - exact I.
  - exact I.
  - intros v. apply IH; [apply HQ|apply Hp].
  - intros z. apply IH; [apply HQ|apply Hp].
  - split; [apply Hp|]. apply IH; [exact HQ|apply Hp].
Qed.

Lemma quotients_applyGradient (learningRate : F) (batches : list (list (@DataPoint F)))
    batch (weightGradients : list F) (biasGradient : F) :
  batch ∈ batches ->
  allWrites (quotients learningRate batches)
    (applyGradient learningRate weightGradients biasGradient (len batch)).
Proof.
  intros Hin. unfold applyGradient.
  apply allWrites_bind; [cbn; auto|]. intros _.
  apply allWrites_bind; [cbn; auto|]. intros l.
  apply allWrites_bind.
  { apply allWrites_forUpto. intros k s' _.
    apply allWrites_bind; [cbn; auto|]. intros cur.
    apply allWrites_bind; [apply allWrites_noWrites, noWrites_lift|]. intros g.
    cbn. split; [|exact I]. exists batch, cur, g. auto. }
  intros _. apply allWrites_bind; [cbn; auto|]. intros b.
  apply allWrites_bind.
  { cbn. split; [|exact I]. exists batch, b, biasGradient. auto. }
  intros _. apply allWrites_bind; [cbn; auto|]. intros u.
  apply allWrites_bind; [cbn; auto|]. intros _. cbn. auto.
Qed.

Lemma quotients_trainBatch (learningRate : F) (batches : list (list (@DataPoint F)))
    batch (st : Z * list F) :
  batch ∈ batches ->
  allWrites (quotients learningRate batches) (trainBatch learningRate batch st).
Proof.
  intros Hin. destruct st as [g errs]. unfold trainBatch.
  apply allWrites_bind; [cbn; auto|]. intros n.
  apply allWrites_bind.
  { apply allWrites_noWrites, noWrites_forEach, accumulate_noWrites. }
  intros [[wg bg] be].
  apply allWrites_bind; [apply quotients_applyGradient, Hin|]. intros _. exact I.
Qed.

Lemma quotients_batches (learningRate : F) (batches : list (list (@DataPoint F))) :
  forall (some : list (list (@DataPoint F))) (st : Z * list F),
    Forall (fun batch => batch ∈ batches) some ->
    allWrites (quotients learningRate batches)
      (forEach some (trainBatch learningRate) st).
Proof.
  induction some as [|b some IH]; intros st Hall; cbn [forEach]; [exact I|].
  apply Forall_cons in Hall as [Hb Hall].
  apply allWrites_bind; [apply quotients_trainBatch, Hb|]. intros st'. apply IH, Hall.
Qed.

Lemma quotients_trainEpoch (learningRate : F) data (batchSize epoch gradientSum : Z) :
  1 <= batchSize ->
  allWrites (quotients learningRate (spec_batches batchSize data))
    (trainEpoch data batchSize learningRate epoch gradientSum).
Proof.
  intros Hb. unfold trainEpoch. rewrite batchLoop_batches by exact Hb.
  eapply allWrites_returns.
  - apply returns_batches_errors.
  - apply quotients_batches. apply Forall_forall. auto.
  - intros [g errs] (errs' & Herrs & Hst). cbn [snd app] in Hst. subst errs'.
    cbn. split; [exact I|]. split; [|auto].
    exists errs. split; [exact Herrs|reflexivity].
Qed.

Lemma quotients_trainWorker (w : Worker) (epochs : Z) (learningRate : F) :
  1 <= BatchSize w ->
  allWrites (quotients learningRate (spec_batches (BatchSize w) (Data w)))
    (trainWorker w epochs learningRate).
Proof.
  intros Hb. unfold trainWorker. apply allWrites_bind; [|intros g; exact I].
  apply allWrites_forUpto. intros k s' Hk.
  apply quotients_trainEpoch, Hb.
Qed.

Lemma allWrites_impl {A} (P Q : Wr -> Prop) (p : @Prog F A) :
  (forall w, P w -> Q w) -> allWrites P p -> allWrites Q p.
Proof.
  intros HPQ. induction p as [a|e| |r k IH|r k IH|w k IH]; cbn; auto.
  intros [H1 H2]. split; [apply HPQ, H1|apply IH, H2].
Qed.

(** *** Every goroutine with its own predicate *)

Lemma step_allWrites_at (Ps : nat -> Wr -> Prop) (t : nat) (W W' : @World F)
    (a : Access) :
  (forall t' p, goroutines W !! t' = Some p -> allWrites (Ps t') p) ->
  step t W = Some (a, W') ->
  accessOkAt Ps (t, a) /\
  forall t' p, goroutines W' !! t' = Some p -> allWrites (Ps t') p.
Proof.
  intros Hall Hs. unfold step in Hs.
  destruct (crashed W); [discriminate|].
  destruct (goroutines W !! t) as [p|] eqn:Hp; [|discriminate].
  pose proof (Hall t p Hp) as Hpw.
  assert (Hset : forall m' p', allWrites (Ps t) p' ->
            forall t' q, goroutines (setGoroutine W m' t p') !! t' = Some q ->
                         allWrites (Ps t') q).
  { intros m' p' Hp' t' q Hq. cbn [setGoroutine goroutines] in Hq.
    destruct (decide (t' = t)) as [->|Hne].
    - rewrite list_lookup_insert_eq in Hq by (eapply lookup_lt_Some; eauto).
      injection Hq as <-. exact Hp'.
    - rewrite list_lookup_insert_ne in Hq by auto. apply Hall, Hq. }
  destruct p as [x|e| |r k|r k|w k]; try discriminate.
  - injection Hs as <- <-. split; [exact I|exact Hall].
  - destruct (getF (model W) r); injection Hs as <- <-.
    + split; [exact I|]. apply Hset. apply Hpw.
    + split; [exact I|exact Hall].
  - injection Hs as <- <-. split; [exact I|]. apply Hset. apply Hpw.
  - destruct (perform (model W) w); try discriminate; injection Hs as <- <-.
    + split; [apply Hpw|]. apply Hset. apply Hpw.
    + split; [exact I|exact Hall].
Qed.

Lemma exec_allWrites_at (Ps : nat -> Wr -> Prop) (sched : list nat) :
  forall W : @World F,
    (forall t p, goroutines W !! t = Some p -> allWrites (Ps t) p) ->
    Forall (accessOkAt Ps) (exec sched W).1.
Proof.
  induction sched as [|t sched IH]; intros W Hall; cbn [exec]; [constructor|].
  destruct (step t W) as [[a W']|] eqn:Hs; [|apply IH; exact Hall].
  destruct (step_allWrites_at Ps t W W' a Hall Hs) as [Ha Hall'].
  specialize (IH W' Hall'). destruct (exec sched W') as [tr W''].
  cbn [fst] in *. constructor; assumption.
Qed.

Lemma start_quotients trainData (featureCount : nat)
    (numWorkers batchSize epochs : Z) (learningRate : F) (W0 : World)
    (sched : list nat) :
  1 <= batchSize ->
  startTraining trainData featureCount numWorkers batchSize epochs learningRate = Ok W0 ->
  Forall (accessOkAt
            (fun t => quotients learningRate
                        (spec_batches batchSize (chunkAt trainData numWorkers t))))
         (exec sched W0).1.
Proof.
  intros Hb Hs.
  destruct (start_partition _ _ _ _ _ _ _ Hs) as (HW & parts & Hp & ->).
  apply exec_allWrites_at. intros t p Hl. cbn [goroutines] in Hl.
  rewrite (start_lookup _ _ _ _ _ _ _ _ HW Hp Hl).
  apply (quotients_trainWorker
           (mkWorker (Z.of_nat t) (chunkAt trainData numWorkers t) batchSize 0)
           epochs learningRate Hb).
Qed.

(** ** The claims on traces *)

(** C3, as the code has it — in every run of the trainer the gradient
    applications are atomic with respect to one another.  The trace is made
    of whole applications, one at a time ([applications]): from the
    [mu.Lock()] of a goroutine to the next [mu.Unlock()], which is its own,
    the writes to the model are that goroutine's writes of every weight in
    order, of the bias and of the counter, so that [mu] is held from before
    the first write of an application until after its last; and no other
    goroutine writes a weight, the bias or the counter or takes [mu]
    meanwhile, nor does anything write them outside an application.  In
    particular ([serial]) [mu] is locked only when it is free and unlocked
    only by the goroutine that locked it, and every such write is made by the
    holder.  Reads are not covered: [predict] takes no lock. *)
Theorem applications_serial trainData (featureCount : nat)
    (numWorkers batchSize epochs : Z) (learningRate : F) (W0 : World)
    (sched : list nat) :
  startTraining trainData featureCount numWorkers batchSize epochs learningRate = Ok W0 ->
  serial None (exec sched W0).1 /\
  applications featureCount None (exec sched W0).1.
Proof.
  intros Hs. split.
  - destruct (start_inv _ _ _ _ _ _ _ Hs) as (Ps & cs & HI & _).
    exact (proj1 (exec_inv _ sched _ _ _ HI)).
  - apply exec_applications. exact (start_applications _ _ _ _ _ _ _ Hs).
Qed.

(** C8 — a worker that runs alone for [epochs] epochs leaves in the metrics
    store, under each epoch index from 0 to [epochs - 1], the arithmetic mean
    ([spec_epochError]: the sum over the count) of the mean squared errors of
    the batches of that epoch.  With several workers every metric write has
    an epoch index from 0 to [epochs - 1] as its key and carries the
    arithmetic mean of one error per batch of the writing worker's own
    partition, each error the mean squared error of its batch for the
    predictions that worker made; and the store holds for every key the value
    of the last write to that key, whichever worker made it. *)
Theorem metrics_recorded :
  (forall (w : Worker) (epochs : Z) (learningRate : F) m,
     1 <= BatchSize w -> mu m = false -> MetricsMu m = false ->
     Forall (fun dp => length (Features dp) = length (Weights m)) (Data w) ->
     let batches := spec_batches (BatchSize w) (Data w) in
     let m' := spec_trainEpochs learningRate batches (Z.to_nat epochs) 0 m in
     (exists w', interp (trainWorker w epochs learningRate) m = Finished w' m') /\
     forall e : nat, Z.of_nat e < epochs ->
       Metrics m' !! Z.of_nat e
       = Some (spec_epochError
                 (snd (spec_trainBatches learningRate batches
                         (spec_trainEpochs learningRate batches e 0 m) [])))) /\
  (forall trainData (featureCount : nat) (numWorkers batchSize epochs : Z)
          (learningRate : F) (W0 : World) (sched : list nat),
     startTraining trainData featureCount numWorkers batchSize epochs learningRate
     = Ok W0 ->
     Forall (accessOk (metricKeyIn 0 epochs)) (exec sched W0).1) /\
  (forall (W : @World F) (sched : list nat),
     Metrics (model (exec sched W).2)
     = replayMetrics (exec sched W).1 (Metrics (model W))) /\
  (forall (tr1 tr2 : list (@Event F)) (t : nat) (e : Z) (v : F) (M : gmap Z F),
     forallb (fun ev => negb (writesMetric e ev)) tr2 = true ->
     replayMetrics (tr1 ++ (t, LDo (WrMetric e v)) :: tr2) M !! e = Some v) /\
  (forall trainData (featureCount : nat) (numWorkers batchSize epochs : Z)
          (learningRate : F) (W0 : World) (sched : list nat),
     1 <= batchSize ->
     startTraining trainData featureCount numWorkers batchSize epochs learningRate
     = Ok W0 ->
     Forall (accessOkAt
               (fun t => epochMean
                           (spec_batches batchSize (chunkAt trainData numWorkers t))))
            (exec sched W0).1).
Proof.
  split; [|split; [|split; [|split]]].
  - intros w epochs learningRate m Hb Hmu HMm Hall batches m'. split.
    + apply interp_trainWorker; assumption.
    + intros e He. unfold m'.
      rewrite <- (Z.add_0_l (Z.of_nat e)).
      apply spec_trainEpochs_metric. lia.
  - intros. eapply start_metric_keys; eauto.
  - intros W sched. apply exec_metrics.
  - intros tr1 tr2 t e v M Hno. apply replay_last. exact Hno.
  - intros trainData featureCount numWorkers batchSize epochs learningRate W0 sched
           Hb Hs.
    eapply Forall_impl; [exact (start_quotients _ _ _ _ _ _ _ sched Hb Hs)|].
    intros [t a] H. destruct a as [r v|r z|w|e]; try exact I.
    destruct w; try exact I. cbn in H |- *.
    destruct H as (errs & Herrs & ->). exists errs. split; [exact Herrs|reflexivity].
Qed.

(** C10, as the code has it — for a non-empty partition and a batch size of at
    least 1 the batch loop processes the batches [spec_batches], which are
    non-empty, at least one, and together the partition; every run of the loop
    returns one batch error per batch.  In every run of the trainer, alone or
    interleaved, every value a worker writes is a quotient by one of these
    counts ([quotients]): a weight or the bias is written as a value less
    [learningRate * gradient / float64(len(batch))] for a batch of the
    worker; a metric is written as the sum of the batch errors over
    [float64] of their number, one error per batch, each the sum of the
    squared errors of the batch over [float64(len(batch))].  For a worker
    with a non-empty partition every batch length and the number of errors
    are at least 1, so no division is by zero.  With an empty partition there
    is no batch, the recorded average is [0.0 / float64(0)]. *)
Theorem divisors_positive :
  (forall (learningRate : F) data (batchSize epoch gradientSum : Z),
     1 <= batchSize ->
     (data <> [] ->
      trainEpoch data batchSize learningRate epoch gradientSum
      = ('(g, batchErrors) ←
           forEach (spec_batches batchSize data) (trainBatch learningRate)
             (gradientSum, []);
         recordEpoch epoch batchErrors;; mret g) /\
      concat (spec_batches batchSize data) = data /\
      Forall (fun batch => 1 <= len batch) (spec_batches batchSize data) /\
      1 <= len (spec_batches batchSize data) /\
      returns (forEach (spec_batches batchSize data) (trainBatch learningRate)
                 (gradientSum, []))
        (fun st => len (snd st) = len (spec_batches batchSize data))) /\
     (data = [] ->
      trainEpoch data batchSize learningRate epoch gradientSum
      = (recordEpoch epoch [];; mret gradientSum) /\
      averageError [] = fdiv f0 (of_int 0))) /\
  (forall trainData (featureCount : nat) (numWorkers batchSize epochs : Z)
          (learningRate : F) (W0 : World) (sched : list nat),
     1 <= batchSize ->
     startTraining trainData featureCount numWorkers batchSize epochs learningRate
     = Ok W0 ->
     Forall (accessOkAt
               (fun t => quotients learningRate
                           (spec_batches batchSize (chunkAt trainData numWorkers t))))
            (exec sched W0).1 /\
     forall t : nat,
       let batches := spec_batches batchSize (chunkAt trainData numWorkers t) in
       (chunkAt trainData numWorkers t <> [] ->
        Forall (fun batch => 1 <= len batch) batches /\
        forall errs, Forall2 batchErrorOf batches errs -> 1 <= len errs) /\
       (chunkAt trainData numWorkers t = [] ->
        forall errs, Forall2 batchErrorOf batches errs ->
          fdiv (sumFrom f0 errs) (of_int (len errs)) = fdiv f0 (of_int 0))).
Proof.
  split.
  - intros learningRate data batchSize epoch gradientSum Hb. split.
    + intros Hd. split.
      { unfold trainEpoch. rewrite batchLoop_batches by exact Hb. reflexivity. }
      split; [apply chunks_concat; lia|].
      split; [apply chunks_nonempty; lia|].
      split.
      { apply chunks_length_pos; [exact Hd|]. destruct data; [contradiction|cbn; lia]. }
      eapply returns_mono; [apply returns_batches|].
      intros st Hst. cbn in Hst. lia.
    + intros ->. split; reflexivity.
  - intros trainData featureCount numWorkers batchSize epochs learningRate W0 sched
           Hb Hs.
    split; [exact (start_quotients _ _ _ _ _ _ _ sched Hb Hs)|].
    intros t batches. split.
    + intros Hd. split; [apply chunks_nonempty; lia|].
      intros errs Herrs. rewrite <- (Forall2_length _ _ _ Herrs).
      apply chunks_length_pos; [exact Hd|].
      destruct (chunkAt trainData numWorkers t); [contradiction|cbn; lia].
    + intros Hd errs Herrs. unfold batches in Herrs. rewrite Hd in Herrs.
      inversion Herrs. reflexivity.
Qed.

End TrainerTraces.

(** * [predict] and [evaluate] on any input, and configurations that do not train *)

Section TrainerEdges.

Context {F : Type} {FO : Float64 F}.

Implicit Types (trainData data batch : list (@DataPoint F)) (m : @Model F).

Lemma index_out {A} (s : list A) (i : nat) :
  (length s <= i)%nat -> index s (Z.of_nat i) = Panicked IndexOutOfRange.
Proof.
  intros H. unfold index. destruct (0 <=? Z.of_nat i); [|reflexivity].
  rewrite Nat2Z.id, lookup_ge_None_2 by exact H. reflexivity.
Qed.

(** ** [predict] *)

Lemma interp_predict_short_loop m (features : list F) (n : nat) :
  forall (j : nat) (acc : F),
    (j <= length features)%nat ->
    (length features < j + n)%nat ->
    (j + n <= length (Weights m))%nat ->
    interp (forUpto n (Z.of_nat j)
              (fun i sum =>
                 weight ← readF (RdWeight i);
                 f ← lift (index features i);
                 mret (fadd sum (fmul weight f))) acc) m
    = Panics IndexOutOfRange.
Proof.
  induction n as [|n IH]; intros j acc H1 H2 H3; [lia|].
  destruct (lookup_lt_is_Some_2 (Weights m) j ltac:(lia)) as [w Hw].
  cbn [forUpto]. rewrite !interp_bind, interp_readF. cbn [getF].
  rewrite (index_lookup _ _ _ Hw). cbn [andThen].
  rewrite interp_bind, interp_lift.
  destruct (decide (j < length features)%nat) as [Hlt|Hge].
  - destruct (lookup_lt_is_Some_2 features j Hlt) as [f Hf].
    rewrite (index_lookup _ _ _ Hf). cbn [andThen]. rewrite interp_ret. cbn [andThen].
    replace (Z.of_nat j + 1) with (Z.of_nat (S j)) by lia.
    apply IH; lia.
  - rewrite index_out by lia. reflexivity.
Qed.

Lemma interp_predict_short m (features : list F) :
  (length features < length (Weights m))%nat ->
  interp (predict features) m = Panics IndexOutOfRange.
Proof.
  intros Hlen. unfold predict.
  rewrite interp_bind, interp_readF. cbn [getF andThen].
  rewrite interp_bind, interp_readZ. cbn [getZ andThen].
  rewrite Nat2Z.id.
  apply (interp_predict_short_loop m features (length (Weights m)) 0%nat (Bias m)); lia.
Qed.

Lemma spec_predict_take m (features : list F) :
  spec_predict m (take (length (Weights m)) features) = spec_predict m features.
Proof.
  unfold spec_predict. f_equal.
  apply list_eq. intros i. rewrite !lookup_zip_with.
  destruct (Weights m !! i) as [w|] eqn:Hw; [|reflexivity]. cbn.
  rewrite lookup_take_lt by (eapply lookup_lt_Some; eauto). reflexivity.
Qed.

(** X7 — [predict] reads one feature per weight: with fewer features than
    weights it panics (index out of range), and features beyond the weights
    are ignored. *)
Theorem predict_feature_count m (features : list F) :
  interp (predict features) m
  = if (length features <? length (Weights m))%nat
    then Panics IndexOutOfRange
    else Finished (spec_predict m (take (length (Weights m)) features)) m.
Proof.
  destruct (length features <? length (Weights m))%nat eqn:E.
  - apply interp_predict_short. apply Nat.ltb_lt, E.
  - rewrite spec_predict_take. apply interp_predict. apply Nat.ltb_ge, E.
Qed.

(** ** [evaluate] *)

Lemma interp_evaluatePoint m (i : nat) (dp : DataPoint) (predictions : list F)
    (totalError : F) :
  (i < length predictions)%nat ->
  (length (Weights m) <= length (Features dp))%nat ->
  interp (evaluatePoint (Z.of_nat i) dp (predictions, totalError)) m
  = Finished (<[i := spec_predict m (Features dp)]> predictions,
              fadd totalError (pow2 (spec_error m dp))) m.
Proof.
  intros Hi Hlen. unfold evaluatePoint.
  rewrite interp_bind, interp_predict by exact Hlen. cbn [andThen].
  destruct (lookup_lt_is_Some_2 predictions i Hi) as [x Hx].
  rewrite interp_bind, interp_lift, (index_lookup _ _ _ Hx). cbn [andThen].
  rewrite Nat2Z.id.
  rewrite interp_bind, interp_lift.
  rewrite (index_lookup _ _ (spec_predict m (Features dp)))
    by (apply list_lookup_insert_eq; exact Hi).
  cbn [andThen]. reflexivity.
Qed.

Lemma interp_evaluate_loop m :
  forall (testData : list (@DataPoint F)) (i : nat) (predictions : list F)
         (totalError : F),
    (i + length testData <= length predictions)%nat ->
    Forall (fun dp => (length (Weights m) <= length (Features dp))%nat) testData ->
    exists predictions',
      interp (forRange testData (Z.of_nat i) evaluatePoint (predictions, totalError)) m
      = Finished (predictions',
                  sumFrom totalError (map (fun dp => pow2 (spec_error m dp)) testData)) m.
Proof.
  induction testData as [|dp testData IH]; intros i predictions totalError Hi Hall.
  - eexists. reflexivity.
  - apply Forall_cons in Hall as [Hdp Hall]. cbn [length] in Hi.
    cbn [forRange]. rewrite interp_bind, interp_evaluatePoint by (lia || exact Hdp).
    cbn [andThen]. replace (Z.of_nat i + 1) with (Z.of_nat (S i)) by lia.
    destruct (IH (S i) (<[i := spec_predict m (Features dp)]> predictions)
                (fadd totalError (pow2 (spec_error m dp)))) as [ps Hps].
    { rewrite length_insert. lia. }
    { exact Hall. }
    exists ps. rewrite Hps. reflexivity.
Qed.

Lemma evaluatePoint_noWrites (i : Z) (dp : DataPoint) (st : list F * F) :
  noWrites (evaluatePoint i dp st).
Proof.
  destruct st as [predictions totalError]. unfold evaluatePoint.
  apply noWrites_bind; [apply predict_noWrites|]. intros prediction.
  apply noWrites_bind; [apply noWrites_lift|]. intros _.
  apply noWrites_bind; [apply noWrites_lift|]. intros p. exact I.
Qed.

Lemma interp_evaluate m (testData : list (@DataPoint F)) :
  Forall (fun dp => (length (Weights m) <= length (Features dp))%nat) testData ->
  interp (evaluate testData) m = Finished (spec_batchError m testData) m.
Proof.
  intros Hall. unfold evaluate. rewrite interp_bind.
  destruct (interp_evaluate_loop m testData 0 (replicate (length testData) f0) f0)
    as [ps Hps].
  { rewrite length_replicate. lia. }
  { exact Hall. }
  change (Z.of_nat 0) with 0 in Hps. rewrite Hps. cbn [andThen]. reflexivity.
Qed.

(** X8 — [evaluate] returns the mean squared error of the model on the test
    data, the squares summed in slice order, leaves the model as it found
    it, and is made of reads only (it takes no lock). *)
Theorem evaluate_spec m (testData : list (@DataPoint F)) :
  Forall (fun dp => (length (Weights m) <= length (Features dp))%nat) testData ->
  interp (evaluate testData) m = Finished (spec_batchError m testData) m /\
  noWrites (evaluate testData).
Proof.
  intros Hall. split; [apply interp_evaluate, Hall|].
  unfold evaluate. apply noWrites_bind.
  - apply noWrites_forRange. intros j x s. apply evaluatePoint_noWrites.
  - intros [ps te]. exact I.
Qed.

Lemma interp_evaluatePoint_short m (i : Z) (dp : DataPoint) (st : list F * F) :
  (length (Features dp) < length (Weights m))%nat ->
  interp (evaluatePoint i dp st) m = Panics IndexOutOfRange.
Proof.
  intros Hlen. destruct st as [predictions totalError]. unfold evaluatePoint.
  rewrite interp_bind, interp_predict_short by exact Hlen. reflexivity.
Qed.

Lemma interp_evaluate_loop_short m :
  forall (testData : list (@DataPoint F)) (i : nat) (predictions : list F)
         (totalError : F),
    (i + length testData <= length predictions)%nat ->
    Exists (fun dp => (length (Features dp) < length (Weights m))%nat) testData ->
    interp (forRange testData (Z.of_nat i) evaluatePoint (predictions, totalError)) m
    = Panics IndexOutOfRange.
Proof.
  induction testData as [|dp testData IH]; intros i predictions totalError Hi Hex.
  - inversion Hex.
  - cbn [length] in Hi. cbn [forRange]. rewrite interp_bind.
    destruct (decide (length (Features dp) < length (Weights m))%nat) as [Hs|Hl].
    + rewrite interp_evaluatePoint_short by exact Hs. reflexivity.
    + rewrite interp_evaluatePoint by lia. cbn [andThen].
      replace (Z.of_nat i + 1) with (Z.of_nat (S i)) by lia.
      apply IH; [rewrite length_insert; lia|].
      apply Exists_cons in Hex as [Hex|Hex]; [contradiction|exact Hex].
Qed.

(** X9 — [evaluate] panics (index out of range) when some test point has fewer
    features than the model has weights. *)
Theorem evaluate_short_point m (testData : list (@DataPoint F)) :
  Exists (fun dp => (length (Features dp) < length (Weights m))%nat) testData ->
  interp (evaluate testData) m = Panics IndexOutOfRange.
Proof.
  intros Hex. unfold evaluate. rewrite interp_bind.
  rewrite (interp_evaluate_loop_short m testData 0 (replicate (length testData) f0) f0).
  - reflexivity.
  - rewrite length_replicate. lia.
  - exact Hex.
Qed.

(** ** Feature counts that differ from the weight count *)

Lemma interp_bump_long m (error : F) :
  forall (features : list F) (j : nat) (wg : list F),
    (j <= length wg)%nat ->
    (length wg < j + length features)%nat ->
    interp (forRange features (Z.of_nat j)
              (fun j feature wg =>
                 g ← lift (index wg j);
                 mret (<[Z.to_nat j := fadd g (fmul error feature)]> wg))
              wg) m
    = Panics IndexOutOfRange.
Proof.
  induction features as [|f fs IH]; intros j wg H1 H2; [cbn in H2; lia|].
  cbn [length] in H2. cbn [forRange]. rewrite !interp_bind, interp_lift.
  destruct (decide (j < length wg)%nat) as [Hlt|Hge].
  - destruct (lookup_lt_is_Some_2 wg j Hlt) as [g Hg].
    rewrite (index_lookup _ _ _ Hg). cbn [andThen]. rewrite interp_ret. cbn [andThen].
    replace (Z.of_nat j + 1) with (Z.of_nat (S j)) by lia.
    apply IH; rewrite length_insert; lia.
  - rewrite index_out by lia. reflexivity.
Qed.

Lemma interp_accumulate_mismatch m (dp : DataPoint) (wg : list F) (bg be : F) :
  length (Features dp) <> length (Weights m) ->
  length wg = length (Weights m) ->
  interp (accumulate dp (wg, bg, be)) m = Panics IndexOutOfRange.
Proof.
  intros Hne Hw. unfold accumulate. rewrite interp_bind.
  destruct (decide (length (Features dp) < length (Weights m))%nat) as [Hs|Hl].
  - rewrite interp_predict_short by exact Hs. reflexivity.
  - rewrite interp_predict by lia. cbn [andThen]. rewrite interp_bind.
    rewrite (interp_bump_long m _ (Features dp) 0 wg) by lia. reflexivity.
Qed.

Lemma interp_gradient_mismatch m :
  forall batch (wg : list F) (bg be : F),
    length wg = length (Weights m) ->
    Exists (fun dp => length (Features dp) <> length (Weights m)) batch ->
    interp (forEach batch accumulate (wg, bg, be)) m = Panics IndexOutOfRange.
Proof.
  induction batch as [|dp batch IH]; intros wg bg be Hw Hex; [inversion Hex|].
  cbn [forEach]. rewrite interp_bind.
  destruct (decide (length (Features dp) = length (Weights m))) as [He|Hne].
  - rewrite interp_accumulate by lia. cbn [andThen].
    apply IH; [rewrite length_zip_with; lia|].
    apply Exists_cons in Hex as [Hex|Hex]; [contradiction|exact Hex].
  - rewrite interp_accumulate_mismatch by assumption. reflexivity.
Qed.

Lemma interp_trainBatch_mismatch (learningRate : F) batch (st : Z * list F) m :
  Exists (fun dp => length (Features dp) <> length (Weights m)) batch ->
  interp (trainBatch learningRate batch st) m = Panics IndexOutOfRange.
Proof.
  intros Hex. destruct st as [g errs]. unfold trainBatch.
  rewrite interp_bind, interp_readZ. cbn [getZ andThen].
  rewrite interp_bind, interp_gradient_mismatch.
  - reflexivity.
  - rewrite length_replicate, Nat2Z.id. reflexivity.
  - exact Hex.
Qed.

Lemma interp_batches_mismatch (learningRate : F) (fc : nat) :
  forall (batches : list (list (@DataPoint F))) m (st : Z * list F),
    mu m = false ->
    length (Weights m) = fc ->
    Exists (Exists (fun dp => length (Features dp) <> fc)) batches ->
    interp (forEach batches (trainBatch learningRate) st) m = Panics IndexOutOfRange.
Proof.
  induction batches as [|b batches IH]; intros m st Hmu Hfc Hex; [inversion Hex|].
  cbn [forEach]. rewrite interp_bind.
  destruct (decide (Forall (fun dp => length (Features dp) = fc) b)) as [Hall|Hnot].
  - destruct st as [g errs].
    rewrite interp_trainBatch by (rewrite ?Hfc; assumption). cbn [andThen].
    apply IH.
    + reflexivity.
    + cbn [Weights]. rewrite length_imap. exact Hfc.
    + apply Exists_cons in Hex as [Hex|Hex]; [|exact Hex].
      exfalso. apply Exists_exists in Hex as (dp & Hin & Hne).
      rewrite Forall_forall in Hall. exact (Hne (Hall dp Hin)).
  - rewrite interp_trainBatch_mismatch; [reflexivity|].
    rewrite Hfc. apply not_Forall_Exists in Hnot; [exact Hnot|].
    intros dp. apply _.
Qed.

Lemma Exists_concat_1 {A} (P : A -> Prop) (ls : list (list A)) :
  Exists P (concat ls) -> Exists (Exists P) ls.
Proof.
  induction ls as [|l ls IH]; cbn [concat]; intros H; [inversion H|].
  apply Exists_app in H as [H|H]; [left; exact H|right; apply IH, H].
Qed.

(** X11 — The condition on the feature counts is needed: a worker whose
    data holds a point with a feature count other than the weight count
    panics (index out of range) when it runs alone with a positive batch
    size for at least one epoch; with too few features in [predict], with too
    many in the gradient accumulation. *)
Theorem mismatched_point_panics (w : Worker) (epochs : Z) (learningRate : F) m :
  1 <= BatchSize w ->
  1 <= epochs ->
  mu m = false ->
  Exists (fun dp => length (Features dp) <> length (Weights m)) (Data w) ->
  interp (trainWorker w epochs learningRate) m = Panics IndexOutOfRange.
Proof.
  intros Hb He Hmu Hex. unfold trainWorker. rewrite interp_bind.
  destruct (Z.to_nat epochs) as [|n] eqn:En; [lia|].
  cbn [forUpto]. rewrite interp_bind. unfold trainEpoch at 1.
  rewrite interp_bind, batchLoop_batches by exact Hb.
  rewrite (interp_batches_mismatch learningRate (length (Weights m))); try reflexivity.
  - exact Hmu.
  - apply Exists_concat_1. unfold spec_batches.
    rewrite chunks_concat by lia. exact Hex.
Qed.

(** ** Batch sizes below 1 *)

(** X12 — With a negative batch size a worker with a non-empty partition panics
    at its first batch: the slice [w.Data[i:end]] has [end < i]. *)
Theorem negative_batch_size_panics (w : Worker) (epochs : Z) (learningRate : F) m :
  BatchSize w < 0 ->
  Data w <> [] ->
  1 <= epochs ->
  interp (trainWorker w epochs learningRate) m = Panics SliceBounds.
Proof.
  intros Hb Hd He. unfold trainWorker. rewrite interp_bind.
  destruct (Z.to_nat epochs) as [|n] eqn:En; [lia|].
  cbn [forUpto]. rewrite interp_bind. unfold trainEpoch at 1. rewrite interp_bind.
  destruct (Data w) as [|dp data] eqn:Ed; [contradiction|].
  cbn [length batchLoop].
  destruct (0 <? Z.of_nat (S (length data))) eqn:E0; [|lia].
  destruct (0 + BatchSize w >? Z.of_nat (S (length data))) eqn:E; [lia|].
  rewrite interp_bind, interp_lift. unfold slice.
  replace ((0 <=? 0) && (0 <=? 0 + BatchSize w)) with false by lia. reflexivity.
Qed.

Lemma interp_batchLoop_zero (learningRate : F) data :
  data <> [] ->
  forall (fuel : nat) (st : Z * list F) m,
    mu m = false ->
    interp (batchLoop fuel data 0 learningRate 0 st) m = Diverges.
Proof.
  intros Hd.
  assert (Hlen : (0 <? len data) = true) by (destruct data; [contradiction|cbn [length]; lia]).
  induction fuel as [|fuel IH]; intros st m Hmu; cbn [batchLoop]; rewrite Hlen.
  - reflexivity.
  - destruct (0 + 0 >? len data) eqn:E; [lia|]. cbn [Z.add].
    rewrite interp_bind, interp_lift.
    rewrite slice_ok by lia. cbn [andThen].
    change (take (Z.to_nat (0 - 0)) (drop (Z.to_nat 0) data)) with (@nil (@DataPoint F)).
    destruct st as [g errs].
    rewrite interp_bind, interp_trainBatch by (exact Hmu || constructor).
    cbn [andThen]. apply IH. reflexivity.
Qed.

(** X13 — With batch size 0 a worker with a non-empty partition never returns
    when it runs alone: [i += w.BatchSize] leaves [i] at 0 and the batch loop
    does not end, so [wg.Wait()] never returns. *)
Theorem zero_batch_size_diverges (w : Worker) (epochs : Z) (learningRate : F) m :
  BatchSize w = 0 ->
  Data w <> [] ->
  1 <= epochs ->
  mu m = false ->
  interp (trainWorker w epochs learningRate) m = Diverges.
Proof.
  intros Hb Hd He Hmu. unfold trainWorker. rewrite interp_bind.
  destruct (Z.to_nat epochs) as [|n] eqn:En; [lia|].
  cbn [forUpto]. rewrite interp_bind. unfold trainEpoch at 1. rewrite interp_bind.
  rewrite Hb, interp_batchLoop_zero by assumption. reflexivity.
Qed.

(** ** Empty partitions *)

Lemma interp_epochs_empty (learningRate : F) (batchSize : Z) :
  forall (n : nat) (j0 g : Z) m,
    MetricsMu m = false ->
    exists m',
      interp (forUpto n j0 (trainEpoch [] batchSize learningRate) g) m = Finished g m' /\
      Weights m' = Weights m /\ Bias m' = Bias m /\ Updates m' = Updates m /\
      mu m' = mu m /\ MetricsMu m' = false /\
      (forall e, j0 <= e < j0 + Z.of_nat n ->
                 Metrics m' !! e = Some (fdiv f0 (of_int 0))) /\
      (forall e, ~ j0 <= e < j0 + Z.of_nat n -> Metrics m' !! e = Metrics m !! e).
Proof.
  induction n as [|n IH]; intros j0 g m Hme; cbn [forUpto].
  - exists m. split; [reflexivity|].
    do 4 (split; [reflexivity|]). split; [exact Hme|].
    split; [intros e He; lia|intros e _; reflexivity].
  - rewrite interp_bind. unfold trainEpoch at 1. cbn [length batchLoop].
    change (0 <? Z.of_nat 0) with false. cbv iota.
    change (interp (Ret (g, []) ≫= ?f) m) with (interp (f (g, [])) m). cbv beta iota.
    rewrite interp_bind, interp_recordEpoch by exact Hme. cbn [andThen].
    rewrite interp_ret. cbn [andThen].
    destruct (IH (j0 + 1) g (setMetric m j0 (averageError [])))
      as (m' & Hrun & Hw & Hbias & Hu & Hmu & Hme' & Hin & Hout); [exact Hme|].
    exists m'. split; [exact Hrun|].
    do 5 (split; [assumption|]). split.
    + intros e He. destruct (decide (e = j0)) as [->|Hne].
      * rewrite Hout by lia. cbn [setMetric Metrics]. apply lookup_insert_eq.
      * apply Hin. lia.
    + intros e He. rewrite Hout by lia. cbn [setMetric Metrics].
      apply lookup_insert_ne. lia.
Qed.

Lemma interp_trainWorker_empty (w : Worker) (epochs : Z) (learningRate : F) m :
  Data w = [] ->
  MetricsMu m = false ->
  exists m',
    interp (trainWorker w epochs learningRate) m = Finished w m' /\
    Weights m' = Weights m /\ Bias m' = Bias m /\ Updates m' = Updates m /\
    (forall e, 0 <= e < epochs -> Metrics m' !! e = Some (fdiv f0 (of_int 0))) /\
    (forall e, ~ 0 <= e < epochs -> Metrics m' !! e = Metrics m !! e).
Proof.
  intros Hd Hme. unfold trainWorker. rewrite Hd, interp_bind.
  destruct (interp_epochs_empty learningRate (BatchSize w) (Z.to_nat epochs) 0
              (GradientSum w) m Hme)
    as (m' & Hrun & Hw & Hbias & Hu & _ & _ & Hin & Hout).
  exists m'. rewrite Hrun. cbn [andThen]. split.
  { rewrite interp_ret. destruct w; cbn in *. subst. reflexivity. }
  do 3 (split; [assumption|]). split.
  - intros e He. apply Hin. lia.
  - intros e He. apply Hout. lia.
Qed.

End TrainerEdges.

(** * Data preparation *)

Section PreparationFacts.

Context {F : Type} {FO : Float64 F} {FM : Float64Math F}.
Context (ParseFloat : String.string -> option F).

Implicit Types (data : list (@DataPoint F)).

(** ** Loops over slices *)

Lemma store_ok {A} (s : list A) (i : nat) (v : A) :
  (i < length s)%nat -> store s (Z.of_nat i) v = Ok (<[i := v]> s).
Proof.
  intros Hi. unfold store.
  destruct (lookup_lt_is_Some_2 s i Hi) as [x Hx].
  rewrite (index_lookup _ _ _ Hx). cbn. rewrite Nat2Z.id. reflexivity.
Qed.

Lemma index_nth {A} (s : list A) (i : nat) (d : A) :
  (i < length s)%nat -> index s (Z.of_nat i) = Ok (nth i s d).
Proof.
  intros Hi. destruct (lookup_lt_is_Some_2 s i Hi) as [x Hx].
  rewrite (index_lookup _ _ _ Hx), (nth_lookup_Some _ _ _ _ Hx). reflexivity.
Qed.

Lemma loopUpto_fill {A} (n : nat) (h : nat -> A) (body : Z -> list A -> Res (list A)) :
  (forall (i : nat) (s : list A), (i < n)%nat -> length s = n ->
     body (Z.of_nat i) s = Ok (<[i := h i]> s)) ->
  forall (k j : nat) (s : list A),
    (j + k = n)%nat -> length s = n ->
    loopUpto k (Z.of_nat j) body s = Ok (take j s ++ map h (seq j k)).
Proof.
  intros Hbody. induction k as [|k IH]; intros j s Hjk Hs; cbn [loopUpto].
  - cbn [seq map]. rewrite app_nil_r, take_ge by lia. reflexivity.
  - rewrite Hbody by lia. cbn [mbind Res_bind].
    replace (Z.of_nat j + 1) with (Z.of_nat (S j)) by lia.
    rewrite IH by (rewrite ?length_insert; lia).
    f_equal. cbn [seq map].
    rewrite (take_S_r _ _ (h j)) by (apply list_lookup_insert_eq; lia).
    rewrite take_insert_ge by lia. rewrite <- app_assoc. reflexivity.
Qed.

Lemma loopUpto_fill_all {A} (n : nat) (d : A) (h : nat -> A)
    (body : Z -> list A -> Res (list A)) :
  (forall (i : nat) (s : list A), (i < n)%nat -> length s = n ->
     body (Z.of_nat i) s = Ok (<[i := h i]> s)) ->
  loopUpto n 0 body (replicate n d) = Ok (map h (seq 0 n)).
Proof.
  intros Hbody.
  apply (loopUpto_fill n h body Hbody n 0%nat (replicate n d)); [lia|].
  apply length_replicate.
Qed.

Lemma rangeFrom_fill {X A} (g : X -> A) (all : list X)
    (body : Z -> X -> list A -> Res (list A)) :
  (forall (i : nat) (x : X) (s : list A), all !! i = Some x -> length s = length all ->
     body (Z.of_nat i) x s = Ok (<[i := g x]> s)) ->
  forall (xs : list X) (j : nat) (s : list A),
    drop j all = xs -> length s = length all ->
    rangeFrom xs (Z.of_nat j) body s = Ok (take j s ++ map g xs).
Proof.
  intros Hbody. induction xs as [|x xs IH]; intros j s Hd Hs; cbn [rangeFrom].
  - cbn [map]. rewrite app_nil_r, take_ge; [reflexivity|].
    apply (f_equal length) in Hd. rewrite length_drop in Hd. cbn in Hd. lia.
  - assert (Hj : all !! j = Some x).
    { rewrite <- (Nat.add_0_r j), <- lookup_drop, Hd. reflexivity. }
    assert (Hlt : (j < length all)%nat) by (eapply lookup_lt_Some; eauto).
    rewrite (Hbody j x s Hj Hs). cbn [mbind Res_bind].
    replace (Z.of_nat j + 1) with (Z.of_nat (S j)) by lia.
    rewrite IH.
    + f_equal. cbn [map].
      rewrite (take_S_r _ _ (g x)) by (apply list_lookup_insert_eq; lia).
      rewrite take_insert_ge by lia. rewrite <- app_assoc. reflexivity.
    + rewrite (drop_S _ _ _ Hj) in Hd. injection Hd as Hd. exact Hd.
    + rewrite length_insert. exact Hs.
Qed.

Lemma rangeOver_fold {X S} (body : X -> S -> Res S) (next : S -> X -> S) (xs : list X) :
  Forall (fun x => forall s, body x s = Ok (next s x)) xs ->
  forall s, rangeOver xs body s = Ok (fold_left next xs s).
Proof.
  induction 1 as [|x xs Hx _ IH]; intros s; cbn [rangeOver fold_left]; [reflexivity|].
  rewrite Hx. cbn [mbind Res_bind]. apply IH.
Qed.

Lemma fold_left_fmap {A B C} (f : C -> B -> C) (g : A -> B) (l : list A) :
  forall c, fold_left (fun c a => f c (g a)) l c = fold_left f (map g l) c.
Proof. induction l as [|a l IH]; intros c; cbn; [reflexivity|apply IH]. Qed.

(** *** Panics *)

Lemma onlyPanic_ok {A} (e : panic) (a : A) : onlyPanic e (Ok a).
Proof. intros e' H. discriminate. Qed.

Lemma onlyPanic_bind {A B} (e : panic) (r : Res A) (f : A -> Res B) :
  onlyPanic e r -> (forall a, onlyPanic e (f a)) -> onlyPanic e (r ≫= f).
Proof.
  intros Hr Hf. destruct r as [a|e0]; cbn.
  - apply Hf.
  - intros e' H. injection H as <-. apply Hr. reflexivity.
Qed.

Lemma onlyPanic_index {A} (s : list A) (i : Z) : onlyPanic IndexOutOfRange (index s i).
Proof.
  intros e' H. unfold index in H.
  destruct (0 <=? i); [destruct (s !! Z.to_nat i)|]; congruence.
Qed.

Lemma onlyPanic_store {A} (s : list A) (i : Z) (v : A) :
  onlyPanic IndexOutOfRange (store s i v).
Proof.
  unfold store. apply onlyPanic_bind; [apply onlyPanic_index|].
  intros a. apply onlyPanic_ok.
Qed.

Lemma onlyPanic_rangeOver {X S} (e : panic) (body : X -> S -> Res S) (xs : list X) :
  (forall x s, onlyPanic e (body x s)) ->
  forall s, onlyPanic e (rangeOver xs body s).
Proof.
  intros Hb. induction xs as [|x xs IH]; intros s; cbn [rangeOver].
  - apply onlyPanic_ok.
  - apply onlyPanic_bind; [apply Hb|apply IH].
Qed.

Lemma loopUpto_panics {St} (e : panic) (body : Z -> St -> Res St) (i : nat) :
  (forall s, body (Z.of_nat i) s = Panicked e) ->
  (forall i' s, onlyPanic e (body i' s)) ->
  forall (n j : nat) (s : St),
    (j <= i < j + n)%nat ->
    loopUpto n (Z.of_nat j) body s = Panicked e.
Proof.
  intros Hi Hb. induction n as [|n IH]; intros j s Hj; [lia|].
  cbn [loopUpto]. destruct (body (Z.of_nat j) s) as [s'|e'] eqn:E.
  - cbn [mbind Res_bind]. replace (Z.of_nat j + 1) with (Z.of_nat (S j)) by lia.
    apply IH. destruct (decide (i = j)) as [->|Hne]; [|lia].
    rewrite Hi in E. discriminate.
  - cbn. f_equal. exact (Hb _ _ _ E).
Qed.

Lemma rangeOver_panics {X S} (e : panic) (body : X -> S -> Res S) (xs : list X) :
  Exists (fun x => forall s, body x s = Panicked e) xs ->
  (forall x s, onlyPanic e (body x s)) ->
  forall s, rangeOver xs body s = Panicked e.
Proof.
  intros Hex Hb. induction Hex as [x xs Hx|x xs _ IH]; intros s; cbn [rangeOver].
  - rewrite Hx. reflexivity.
  - destruct (body x s) as [s'|e'] eqn:E; cbn; [apply IH|].
    f_equal. exact (Hb _ _ _ E).
Qed.

(** ** [normalize] *)

Lemma columnMean_ok data (i : nat) :
  Forall (fun dp => (i < length (Features dp))%nat) data ->
  columnMean data (Z.of_nat i) = Ok (spec_mean data i).
Proof.
  intros Hall. unfold columnMean.
  rewrite (rangeOver_fold _ (fun sum dp => fadd sum (nth i (Features dp) f0))).
  - cbn [mbind Res_bind mret Res_ret]. unfold spec_mean, column, sumFrom.
    rewrite (fold_left_fmap fadd). reflexivity.
  - eapply Forall_impl; [exact Hall|]. intros dp Hdp s. cbn beta.
    rewrite (index_nth _ _ f0 Hdp). reflexivity.
Qed.

Lemma columnStd_ok data (means : list F) (i : nat) :
  Forall (fun dp => (i < length (Features dp))%nat) data ->
  means !! i = Some (spec_mean data i) ->
  columnStd data means (Z.of_nat i) = Ok (spec_std data i).
Proof.
  intros Hall Hm. unfold columnStd.
  rewrite (rangeOver_fold _
             (fun ss dp => fadd ss (pow2 (fsub (nth i (Features dp) f0) (spec_mean data i))))).
  - cbn [mbind Res_bind mret Res_ret]. unfold spec_std, column, sumFrom.
    rewrite map_map.
    rewrite (fold_left_fmap fadd
               (fun dp => pow2 (fsub (nth i (Features dp) f0) (spec_mean data i)))).
    reflexivity.
  - eapply Forall_impl; [exact Hall|]. intros dp Hdp s. cbn beta.
    rewrite (index_nth _ _ f0 Hdp), (index_lookup _ _ _ Hm). reflexivity.
Qed.

Lemma lookup_map_seq {A} (h : nat -> A) (n i : nat) :
  (i < n)%nat -> map h (seq 0 n) !! i = Some (h i).
Proof.
  intros Hi. change (map h (seq 0 n)) with (h <$> seq 0 n).
  rewrite list_lookup_fmap, lookup_seq_lt by exact Hi. reflexivity.
Qed.

Lemma normalizePoint_ok data (fc : nat) (dp : DataPoint) :
  (fc <= length (Features dp))%nat ->
  normalizePoint (Z.of_nat fc) (map (spec_mean data) (seq 0 fc))
    (map (spec_std data) (seq 0 fc)) dp
  = Ok (mkDataPoint (imap (spec_scale data) (take fc (Features dp))) (Label dp)).
Proof.
  intros Hfc. unfold normalizePoint. rewrite Nat2Z.id.
  rewrite (loopUpto_fill_all fc f0 (fun j => spec_scale data j (nth j (Features dp) f0))).
  - cbn [mbind Res_bind mret Res_ret]. f_equal. f_equal.
    apply list_eq. intros i. rewrite list_lookup_imap.
    destruct (decide (i < fc)%nat) as [Hi|Hi].
    + rewrite lookup_map_seq by exact Hi. rewrite lookup_take_lt by exact Hi.
      destruct (lookup_lt_is_Some_2 (Features dp) i ltac:(lia)) as [x Hx].
      rewrite Hx, (nth_lookup_Some _ _ _ _ Hx). reflexivity.
    + rewrite (lookup_ge_None_2 (map _ _)) by (rewrite length_map, length_seq; lia).
      rewrite lookup_take_ge by lia. reflexivity.
  - intros i s Hi Hs.
    rewrite (index_lookup _ _ _ (lookup_map_seq (spec_std data) fc i Hi)).
    cbn [mbind Res_bind]. unfold spec_scale.
    rewrite (index_nth (Features dp) i f0) by lia.
    rewrite (index_lookup _ _ _ (lookup_map_seq (spec_mean data) fc i Hi)).
    cbn [mbind Res_bind].
    destruct (fne0 (spec_std data i)); cbn [mbind Res_bind];
      apply store_ok; lia.
Qed.

Lemma normalize_ok data (first : DataPoint) (rest : list DataPoint) :
  data = first :: rest ->
  Forall (fun dp => (length (Features first) <= length (Features dp))%nat) data ->
  normalize data = Ok (spec_normalize (length (Features first)) data).
Proof.
  intros Hd Hall. unfold normalize.
  assert (H0 : index data 0 = Ok first) by (rewrite Hd; reflexivity).
  rewrite H0. cbn [mbind Res_bind]. cbv zeta. rewrite Nat2Z.id.
  set (fc := length (Features first)) in *.
  assert (Hcol : forall i : nat, (i < fc)%nat ->
            Forall (fun dp => (i < length (Features dp))%nat) data).
  { intros i Hi. eapply Forall_impl; [exact Hall|]. intros dp H. cbn beta in H. lia. }
  rewrite (loopUpto_fill_all fc f0 (spec_mean data)).
  2:{ intros i s Hi Hs. rewrite (columnMean_ok data i (Hcol i Hi)).
      cbn [mbind Res_bind]. apply store_ok. lia. }
  cbn [mbind Res_bind].
  rewrite (loopUpto_fill_all fc f0 (spec_std data)).
  2:{ intros i s Hi Hs.
      rewrite (columnStd_ok data _ i (Hcol i Hi) (lookup_map_seq _ _ _ Hi)).
      cbn [mbind Res_bind]. apply store_ok. lia. }
  cbn [mbind Res_bind].
  apply (rangeFrom_fill
           (fun dp => mkDataPoint (imap (spec_scale data) (take fc (Features dp)))
                                  (Label dp))
           data _) with (xs := data) (j := 0%nat); [|reflexivity|apply length_replicate].
  intros i x s H1 H2. rewrite normalizePoint_ok.
  - cbn [mbind Res_bind]. apply store_ok. rewrite H2. eapply lookup_lt_Some; eauto.
  - rewrite Forall_forall in Hall. apply Hall. eapply list_elem_of_lookup_2; eauto.
Qed.

Lemma onlyPanic_columnMean data (i : Z) : onlyPanic IndexOutOfRange (columnMean data i).
Proof.
  unfold columnMean. apply onlyPanic_bind; [|intros a; apply onlyPanic_ok].
  apply onlyPanic_rangeOver. intros dp s.
  apply onlyPanic_bind; [apply onlyPanic_index|]. intros a. apply onlyPanic_ok.
Qed.

Lemma columnMean_short data (i : nat) :
  Exists (fun dp => (length (Features dp) <= i)%nat) data ->
  columnMean data (Z.of_nat i) = Panicked IndexOutOfRange.
Proof.
  intros Hex. unfold columnMean.
  rewrite (rangeOver_panics IndexOutOfRange); [reflexivity| |].
  - eapply Exists_impl; [exact Hex|]. intros dp Hdp s. cbn beta in *.
    rewrite index_out by exact Hdp. reflexivity.
  - intros dp s. apply onlyPanic_bind; [apply onlyPanic_index|].
    intros a. apply onlyPanic_ok.
Qed.

Lemma normalize_short data (first : DataPoint) (rest : list DataPoint) :
  data = first :: rest ->
  Exists (fun dp => (length (Features dp) < length (Features first))%nat) data ->
  normalize data = Panicked IndexOutOfRange.
Proof.
  intros Hd Hex. unfold normalize.
  assert (H0 : index data 0 = Ok first) by (rewrite Hd; reflexivity).
  rewrite H0. cbn [mbind Res_bind]. cbv zeta. rewrite Nat2Z.id.
  apply Exists_exists in Hex as (dp & Hin & Hlt).
  change (loopUpto ?n 0 ?b ?s) with (loopUpto n (Z.of_nat 0) b s).
  rewrite (loopUpto_panics IndexOutOfRange _ (length (Features dp))).
  - reflexivity.
  - intros s. rewrite columnMean_short; [reflexivity|].
    apply Exists_exists. exists dp. split; [exact Hin|]. cbn beta. lia.
  - intros i s. apply onlyPanic_bind; [apply onlyPanic_columnMean|].
    intros a. apply onlyPanic_store.
  - lia.
Qed.

Lemma normalize_outcome data :
  normalize data
  = match data with
    | [] => Panicked IndexOutOfRange
    | first :: _ =>
        if decide (Forall (fun dp => (length (Features first) <= length (Features dp))%nat)
                          data)
        then Ok (spec_normalize (length (Features first)) data)
        else Panicked IndexOutOfRange
    end.
Proof.
  destruct data as [|first rest] eqn:Hd; [reflexivity|]. rewrite <- Hd.
  destruct (decide (Forall (fun dp => (length (Features first) <= length (Features dp))%nat)
                           data)) as [Hall|Hnot].
  - apply (normalize_ok data first rest Hd Hall).
  - apply (normalize_short data first rest Hd).
    apply not_Forall_Exists in Hnot; [|intros dp; apply _].
    eapply Exists_impl; [exact Hnot|]. intros dp H. unfold compose in H. lia.
Qed.

(** X15 — [normalize] gives every point the features
    [(x - mean) / std], column by column, where [mean] and [std] are the mean
    and the population standard deviation of the column over [data], summed in
    slice order, and [x - mean] where [std] is 0; the labels and the order of
    the points are kept.  The columns are those of the first point; further
    features of other points are dropped. *)
Theorem normalize_spec data (first : DataPoint) (rest : list DataPoint) :
  data = first :: rest ->
  Forall (fun dp => (length (Features first) <= length (Features dp))%nat) data ->
  normalize data = Ok (spec_normalize (length (Features first)) data).
Proof. apply normalize_ok. Qed.

(** X16 — [normalize] panics exactly when [data] is empty ([data[0]]) or some point
    has fewer features than the first one, and then with an index out of
    range. *)
Theorem normalize_panics data (e : panic) :
  normalize data = Panicked e <->
  e = IndexOutOfRange /\
  match data with
  | [] => True
  | first :: _ =>
      Exists (fun dp => (length (Features dp) < length (Features first))%nat) data
  end.
Proof.
  rewrite normalize_outcome. destruct data as [|first rest] eqn:Hd.
  - split; [intros H; injection H as <-; auto|intros [-> _]; reflexivity].
  - rewrite <- Hd.
    destruct (decide (Forall (fun dp => (length (Features first) <= length (Features dp))%nat)
                             data)) as [Hall|Hnot].
    + split; [discriminate|]. intros [_ Hex]. exfalso.
      apply Exists_exists in Hex as (dp & Hin & Hlt).
      rewrite Forall_forall in Hall. specialize (Hall dp Hin). cbn beta in Hall. lia.
    + split; [|intros [-> _]; reflexivity].
      intros H. injection H as <-. split; [reflexivity|].
      apply not_Forall_Exists in Hnot; [|intros dp; apply _].
      eapply Exists_impl; [exact Hnot|]. intros dp H. unfold compose in H. lia.
Qed.

Lemma normalize_Ok data (out : list DataPoint) :
  normalize data = Ok out ->
  length out = length data /\
  map Label out = map Label data /\
  exists first,
    data !! 0%nat = Some first /\
    Forall (fun dp => length (Features dp) = length (Features first)) out.
Proof.
  rewrite normalize_outcome. destruct data as [|first rest] eqn:Hd; [discriminate|].
  rewrite <- Hd.
  destruct (decide (Forall (fun dp => (length (Features first) <= length (Features dp))%nat)
                           data)) as [Hall|Hnot]; [|discriminate].
  intros H. injection H as <-. unfold spec_normalize.
  split; [apply length_map|]. split.
  - rewrite map_map. reflexivity.
  - exists first. split; [rewrite Hd; reflexivity|].
    apply Forall_forall. intros dp Hin.
    change (map ?f ?l) with (f <$> l) in Hin.
    apply list_elem_of_fmap in Hin as (dp0 & -> & Hin0).
    cbn [Features]. rewrite length_imap, length_take.
    rewrite Forall_forall in Hall. specialize (Hall dp0 Hin0). cbn beta in Hall. lia.
Qed.

(** X17 — When [normalize] returns, its result has one point per input point, in
    the same order and with the same labels, and every point of the result
    has as many features as the first input point: the result is well formed
    for training, whatever the feature counts of the input were. *)
Theorem normalize_shape data (out : list DataPoint) :
  normalize data = Ok out ->
  length out = length data /\
  map Label out = map Label data /\
  exists first,
    data !! 0%nat = Some first /\
    Forall (fun dp => length (Features dp) = length (Features first)) out.
Proof. apply normalize_Ok. Qed.

(** ** [loadData] *)

Lemma parseFeatures_Some (fields : list String.string) :
  forall (acc features : list F),
    parseFeatures ParseFloat fields acc = Some features <->
    exists vals,
      Forall2 (fun s v => ParseFloat s = Some v) fields vals /\ features = acc ++ vals.
Proof.
  induction fields as [|field fields IH]; intros acc features; cbn [parseFeatures].
  - split.
    + intros H. injection H as <-. exists []. split; [constructor|].
      rewrite app_nil_r. reflexivity.
    + intros (vals & Hv & ->). inversion Hv. rewrite app_nil_r. reflexivity.
  - destruct (ParseFloat field) as [val|] eqn:Hf.
    + rewrite IH. split.
      * intros (vals & Hv & ->). exists (val :: vals).
        split; [constructor; assumption|]. rewrite <- app_assoc. reflexivity.
      * intros (vals & Hv & ->). inversion Hv as [|? v ? vals' H1 H2]; subst.
        exists vals'. split; [exact H2|].
        rewrite <- app_assoc. cbn. congruence.
    + split; [discriminate|].
      intros (vals & Hv & _). inversion Hv; subst. congruence.
Qed.

Lemma parseRecord_Some (record : list String.string) (dp : DataPoint) :
  parseRecord ParseFloat record = Ok (Some dp) <-> parsesTo ParseFloat record dp.
Proof.
  unfold parseRecord, parsesTo. destruct record as [|field fields].
  - cbn. split; [discriminate|]. intros (f & fs & H & _). discriminate.
  - change (drop 1 (field :: fields)) with fields.
    change (index (field :: fields) 0) with (Ok field).
    cbn [mbind Res_bind].
    destruct (parseFeatures ParseFloat fields []) as [features|] eqn:Hp.
    + apply parseFeatures_Some in Hp as (vals & Hv & ->). cbn [app].
      destruct (ParseFloat field) as [label|] eqn:Hl.
      * split.
        -- intros H. injection H as <-. exists field, fields. cbn. auto.
        -- intros (f & fs & H & H1 & H2). injection H as <- <-.
           destruct dp as [fs' l']. cbn in *.
           assert (fs' = vals).
           { clear -Hv H2. revert fs' H2.
             induction Hv as [|s v fields vals Hs _ IH]; intros fs' H2;
               inversion H2; subst; [reflexivity|].
             f_equal; [congruence|auto]. }
           congruence.
      * split; [discriminate|].
        intros (f & fs & H & H1 & _). injection H as <- <-. congruence.
    + split; [discriminate|].
      intros (f & fs & H & _ & H2). injection H as <- <-.
      assert (Hs : parseFeatures ParseFloat fields [] = Some (Features dp)).
      { apply parseFeatures_Some. exists (Features dp). auto. }
      congruence.
Qed.

Lemma parseRecords_Some (rows : list (list String.string)) :
  forall (acc dataset : list DataPoint),
    parseRecords ParseFloat rows acc = Ok (Some dataset) <->
    exists dps, Forall2 (parsesTo ParseFloat) rows dps /\ dataset = acc ++ dps.
Proof.
  induction rows as [|row rows IH]; intros acc dataset; cbn [parseRecords].
  - split.
    + intros H. injection H as <-. exists []. split; [constructor|].
      rewrite app_nil_r. reflexivity.
    + intros (dps & Hv & ->). inversion Hv. rewrite app_nil_r. reflexivity.
  - destruct (parseRecord ParseFloat row) as [[dp|]|e] eqn:Hr; cbn [mbind Res_bind].
    + pose proof (proj1 (parseRecord_Some _ _) Hr) as Hr'. rewrite IH. split.
      * intros (dps & Hv & ->). exists (dp :: dps).
        split; [constructor; assumption|]. rewrite <- app_assoc. reflexivity.
      * intros (dps & Hv & ->). inversion Hv as [|? dp' ? dps' H1 H2]; subst.
        apply parseRecord_Some in H1.
        assert (dp' = dp) by congruence. subst dp'.
        exists dps'. split; [exact H2|]. rewrite <- app_assoc. reflexivity.
    + split; [discriminate|].
      intros (dps & Hv & _). inversion Hv as [|? dp' ? dps' H1 H2]; subst.
      apply parseRecord_Some in H1. congruence.
    + split; [discriminate|].
      intros (dps & Hv & _). inversion Hv as [|? dp' ? dps' H1 H2]; subst.
      apply parseRecord_Some in H1. congruence.
Qed.

Lemma slice_tail {A} (x : A) (l : list A) : slice (x :: l) 1 (len (x :: l)) = Ok l.
Proof.
  rewrite slice_ok by (cbn [length]; lia). f_equal.
  cbn [length]. change (Z.to_nat 1) with 1%nat. cbn [drop].
  apply take_ge. lia.
Qed.

Lemma loadData_Some (records : list (list String.string)) (dataset : list DataPoint) :
  loadData ParseFloat (Some records) = Ok (Some dataset) <->
  exists header rows,
    records = header :: rows /\ Forall2 (parsesTo ParseFloat) rows dataset.
Proof.
  unfold loadData. destruct records as [|header rows].
  - cbn. split; [discriminate|]. intros (h & r & H & _). discriminate.
  - rewrite slice_tail. cbn [mbind Res_bind]. rewrite parseRecords_Some. split.
    + intros (dps & Hv & ->). exists header, rows. auto.
    + intros (h & r & H & Hv). injection H as <- <-. exists dataset. auto.
Qed.

(** X18 — [loadData] returns a dataset exactly when the file has a first record,
    which is skipped without being parsed, and every field of every other
    record parses; the dataset then has one point per record after the
    first, in order, the label parsed from the first field and the features
    from the other fields in order. *)
Theorem loadData_spec (records : list (list String.string)) (dataset : list DataPoint) :
  loadData ParseFloat (Some records) = Ok (Some dataset) <->
  exists header rows,
    records = header :: rows /\ Forall2 (parsesTo ParseFloat) rows dataset.
Proof. apply loadData_Some. Qed.

Lemma parseRecord_None (record : list String.string) :
  record <> [] ->
  (parseRecord ParseFloat record = Ok None <->
   Exists (fun s => ParseFloat s = None) record) /\
  (forall e, parseRecord ParseFloat record <> Panicked e).
Proof.
  intros Hne. destruct record as [|field fields]; [contradiction|].
  unfold parseRecord. change (drop 1 (field :: fields)) with fields.
  change (index (field :: fields) 0) with (Ok field).
  cbn [mbind Res_bind].
  destruct (parseFeatures ParseFloat fields []) as [features|] eqn:Hp.
  - apply parseFeatures_Some in Hp as (vals & Hv & _).
    assert (Hfs : ~ Exists (fun s => ParseFloat s = None) fields).
    { intros Hex. apply Exists_exists in Hex as (s & Hin & Hs).
      apply list_elem_of_lookup_1 in Hin as [i Hi].
      destruct (Forall2_lookup_l _ _ _ _ _ Hv Hi) as (v & _ & Hsv). congruence. }
    destruct (ParseFloat field) as [label|] eqn:Hl.
    + split; [|discriminate]. split; [discriminate|].
      intros Hex. apply Exists_cons in Hex as [Hex|Hex]; [congruence|contradiction].
    + split; [|discriminate]. split; [|reflexivity]. intros _. left. exact Hl.
  - split; [|discriminate]. split; [|reflexivity]. intros _. right.
    destruct (decide (Exists (fun s => ParseFloat s = None) fields)) as [Hex|Hnot];
      [exact Hex|exfalso].
    apply not_Exists_Forall in Hnot; [|intros s; apply _].
    assert (Hs : exists vals, Forall2 (fun s v => ParseFloat s = Some v) fields vals).
    { clear -Hnot. induction Hnot as [|s fields Hs _ [vals IH]]; [exists []; constructor|].
      cbn beta in Hs. destruct (ParseFloat s) as [v|] eqn:E; [|contradiction].
      exists (v :: vals). constructor; assumption. }
    destruct Hs as [vals Hv].
    assert (parseFeatures ParseFloat fields [] = Some ([] ++ vals))
      by (apply parseFeatures_Some; eauto).
    congruence.
Qed.

Lemma parseRecords_None (rows : list (list String.string)) :
  Forall (fun r => r <> []) rows ->
  forall acc : list DataPoint,
    (parseRecords ParseFloat rows acc = Ok None <->
     Exists (Exists (fun s => ParseFloat s = None)) rows) /\
    (forall e, parseRecords ParseFloat rows acc <> Panicked e).
Proof.
  induction 1 as [|row rows Hrow _ IH]; intros acc; cbn [parseRecords].
  - split; [|discriminate]. split; [discriminate|]. intros H. inversion H.
  - destruct (parseRecord_None row Hrow) as [Hnone Hpanic].
    destruct (parseRecord ParseFloat row) as [[dp|]|e] eqn:Hr; cbn [mbind Res_bind].
    + destruct (IH (acc ++ [dp])) as [IH1 IH2]. split; [|exact IH2].
      rewrite IH1. split; [intros H; right; exact H|].
      intros H. apply Exists_cons in H as [H|H]; [|exact H].
      apply Hnone in H. discriminate.
    + split; [|discriminate]. split; [|reflexivity].
      intros _. left. apply Hnone. reflexivity.
    + exfalso. exact (Hpanic e eq_refl).
Qed.

(** X19 — On the records of a CSV reader (no record is empty), [loadData] returns
    an error exactly when a field of a record after the first does not
    parse, and panics exactly when there is no record at all (an empty
    file): [records[1:]] is then out of bounds. *)
Theorem loadData_failure (records : list (list String.string)) :
  Forall (fun r => r <> []) records ->
  (loadData ParseFloat (Some records) = Ok None <->
   exists header rows,
     records = header :: rows /\ Exists (Exists (fun s => ParseFloat s = None)) rows) /\
  (forall e, loadData ParseFloat (Some records) = Panicked e <->
             records = [] /\ e = SliceBounds).
Proof.
  intros Hne. unfold loadData. destruct records as [|header rows].
  - cbn. split.
    + split; [discriminate|]. intros (h & r & H & _). discriminate.
    + intros e. split; [intros H; injection H as <-; auto|intros [_ ->]; reflexivity].
  - rewrite slice_tail. cbn [mbind Res_bind].
    apply Forall_cons in Hne as [_ Hrows].
    destruct (parseRecords_None rows Hrows []) as [H1 H2]. split.
    + rewrite H1. split.
      * intros H. exists header, rows. auto.
      * intros (h & r & H & Hex). injection H as <- <-. exact Hex.
    + intros e. split; [intros H; exfalso; exact (H2 e H)|intros [H _]; discriminate].
Qed.

Lemma parsesTo_length (record : list String.string) (dp : DataPoint) :
  parsesTo ParseFloat record dp -> length record = S (length (Features dp)).
Proof.
  intros (field & fields & -> & _ & Hv). cbn [length].
  rewrite (Forall2_length _ _ _ Hv). reflexivity.
Qed.

Lemma loadData_length (records : list (list String.string)) (dataset : list DataPoint)
    (n : nat) :
  loadData ParseFloat (Some records) = Ok (Some dataset) ->
  Forall (fun r => length r = n) records ->
  length records = S (length dataset) /\
  Forall (fun dp => length (Features dp) = (n - 1)%nat) dataset.
Proof.
  intros Hl Hn. apply loadData_Some in Hl as (header & rows & -> & Hv).
  apply Forall_cons in Hn as [_ Hn]. split.
  - cbn [length]. rewrite (Forall2_length _ _ _ Hv). reflexivity.
  - apply Forall_forall. intros dp Hin.
    apply list_elem_of_lookup_1 in Hin as [i Hi].
    destruct (Forall2_lookup_r _ _ _ _ _ Hv Hi) as (row & Hrow & Hp).
    apply parsesTo_length in Hp.
    pose proof (Forall_lookup_1 _ _ _ _ Hn Hrow) as Hr. cbn beta in Hr. lia.
Qed.

(** X20 — When every record has [n] fields, as a CSV reader ensures, a loaded
    dataset has one point per record after the first and every point has
    [n - 1] features. *)
Theorem loadData_feature_count (records : list (list String.string))
    (dataset : list DataPoint) (n : nat) :
  loadData ParseFloat (Some records) = Ok (Some dataset) ->
  Forall (fun r => length r = n) records ->
  length records = S (length dataset) /\
  Forall (fun dp => length (Features dp) = (n - 1)%nat) dataset.
Proof. apply loadData_length. Qed.

(** X21 — [main] normalizes what [loadData] returns.  On a file of records of [n]
    fields each: with the header record alone the dataset is empty and
    [normalize] panics (index out of range); with more records [normalize]
    returns one point per data record, with the labels as loaded and [n - 1]
    features each. *)
Theorem loaded_data_normalizes (records : list (list String.string))
    (raw : list DataPoint) (n : nat) :
  loadData ParseFloat (Some records) = Ok (Some raw) ->
  Forall (fun r => length r = n) records ->
  (length records = 1%nat -> normalize raw = Panicked IndexOutOfRange) /\
  ((2 <= length records)%nat ->
   exists data,
     normalize raw = Ok data /\
     length records = S (length data) /\
     map Label data = map Label raw /\
     Forall (fun dp => length (Features dp) = (n - 1)%nat) data).
Proof.
  intros Hl Hn. destruct (loadData_length _ _ _ Hl Hn) as [Hlen Hfc]. split.
  - intros H1. destruct raw; [reflexivity|cbn [length] in Hlen; lia].
  - intros H2. destruct raw as [|first rest] eqn:Hraw; [cbn [length] in Hlen; lia|].
    rewrite <- Hraw in *.
    assert (Hfirst : length (Features first) = (n - 1)%nat).
    { rewrite Forall_forall in Hfc. apply Hfc. rewrite Hraw. left. }
    assert (Hall : Forall (fun dp => (length (Features first) <= length (Features dp))%nat)
                          raw).
    { eapply Forall_impl; [exact Hfc|]. intros dp H. cbn beta in H. lia. }
    exists (spec_normalize (length (Features first)) raw).
    split; [exact (normalize_ok raw first rest Hraw Hall)|].
    destruct (normalize_Ok raw _ (normalize_ok raw first rest Hraw Hall))
      as (Hl' & Hlab & first' & Hf' & Hfeat).
    rewrite Hl'. split; [exact Hlen|]. split; [exact Hlab|].
    rewrite Hraw in Hf'. injection Hf' as <-.
    eapply Forall_impl; [exact Hfeat|]. intros dp H. cbn beta in H. lia.
Qed.

End PreparationFacts.

(** * The pipeline of [main] *)

Section PipelineFacts.

Context {F : Type} {FO : Float64 F} {FM : Float64Math F}.

Lemma splitAndStart_Ok (data : list (@DataPoint F))
    (splitIndex numWorkers batchSize epochs : Z) (learningRate : F)
    (W0 : World) (testData : list DataPoint) :
  splitAndStart data splitIndex numWorkers batchSize epochs learningRate
  = Ok (W0, testData) ->
  exists first,
    data !! 0%nat = Some first /\
    0 <= splitIndex <= len data /\
    testData = drop (Z.to_nat splitIndex) data /\
    startTraining (take (Z.to_nat splitIndex) data) (length (Features first))
      numWorkers batchSize epochs learningRate = Ok W0.
Proof.
  unfold splitAndStart. intros H.
  destruct (slice data 0 splitIndex) as [trainData|] eqn:E1; [|discriminate].
  cbn [mbind Res_bind] in H.
  destruct (slice data splitIndex (len data)) as [td|] eqn:E2; [|discriminate].
  cbn [mbind Res_bind] in H.
  destruct (index data 0) as [first|] eqn:E3; [|discriminate].
  cbn [mbind Res_bind] in H. cbv zeta in H.
  destruct (startTraining trainData (length (Features first)) numWorkers batchSize
              epochs learningRate) as [W|] eqn:E4; [|discriminate].
  cbn in H. injection H as <- <-.
  unfold slice in E1, E2.
  destruct ((0 <=? 0) && (0 <=? splitIndex) && (splitIndex <=? len data)) eqn:C1;
    [|discriminate].
  destruct ((0 <=? splitIndex) && (splitIndex <=? len data) && (len data <=? len data))
    eqn:C2; [|discriminate].
  injection E1 as <-. injection E2 as <-.
  exists first. split.
  { unfold index in E3. change (0 <=? 0) with true in E3. cbv iota in E3.
    change (Z.to_nat 0) with 0%nat in E3.
    destruct (data !! 0%nat) as [x|]; [injection E3 as ->; reflexivity|discriminate]. }
  split; [lia|]. split.
  { apply take_ge. rewrite length_drop. lia. }
  rewrite Z.sub_0_r in E4. change (Z.to_nat 0) with 0%nat in E4. exact E4.
Qed.

(** X22 — From normalized data to the evaluation: whatever permutation
    [rand.Shuffle] leaves and wherever the split falls, if the workers start
    with a positive batch size then no schedule makes a worker panic, no
    schedule ends in a deadlock, and [evaluate] on the test data panics
    neither, returning the mean squared error of the model as it finds it and
    leaving the model unchanged. *)
Theorem pipeline_safe (raw data shuffled : list (@DataPoint F))
    (splitIndex numWorkers batchSize epochs : Z) (learningRate : F)
    (W0 : World) (testData : list DataPoint) (sched : list nat) :
  normalize raw = Ok data ->
  shuffled ≡ₚ data ->
  splitAndStart shuffled splitIndex numWorkers batchSize epochs learningRate
  = Ok (W0, testData) ->
  1 <= batchSize ->
  let W := (exec sched W0).2 in
  crashed W = None /\
  ~ deadlocked W /\
  interp (evaluate testData) (model W)
  = Finished (spec_batchError (model W) testData) (model W).
Proof.
  intros Hn Hperm Hstart Hb W.
  destruct (normalize_Ok _ _ Hn) as (_ & _ & first0 & _ & Hdata).
  assert (Hsh : Forall (fun dp => length (Features dp) = length (Features first0))
                       shuffled).
  { rewrite Hperm. exact Hdata. }
  destruct (splitAndStart_Ok _ _ _ _ _ _ _ _ Hstart)
    as (first & Hfirst & Hsplit & -> & Hs).
  assert (Hfc : length (Features first) = length (Features first0)).
  { exact (Forall_lookup_1 _ _ _ _ Hsh Hfirst). }
  assert (Htrain : Forall (fun dp => length (Features dp) = length (Features first))
                          (take (Z.to_nat splitIndex) shuffled)).
  { apply Forall_take. eapply Forall_impl; [exact Hsh|].
    intros dp H. cbn beta in H. lia. }
  destruct (exec_safe _ sched W0 None None (start_safe _ _ _ _ _ _ _ Hb Htrain Hs))
    as (_ & muH & meH & HI).
  fold W in HI. split; [exact (si_crashed _ _ _ _ HI)|]. split.
  - intros [Hj Hstuck].
    destruct (safe_progress _ _ _ _ HI Hj) as [t [x Hx]].
    rewrite Hstuck in Hx. discriminate.
  - apply interp_evaluate. rewrite (si_len _ _ _ _ HI).
    apply Forall_drop. eapply Forall_impl; [exact Hsh|].
    intros dp H. cbn beta in H. lia.
Qed.

(** X23 — Every data point is used once: when the split and the worker
    start-up of [main] succeed, the partitions of the workers, in worker
    order, followed by the test data are the data as shuffled, and the
    partitions hold [splitIndex] points together; there is one worker per
    [numWorkers]. *)
Theorem every_point_used (data : list (@DataPoint F))
    (splitIndex numWorkers batchSize epochs : Z) (learningRate : F)
    (W0 : World) (testData : list DataPoint) :
  splitAndStart data splitIndex numWorkers batchSize epochs learningRate
  = Ok (W0, testData) ->
  exists parts,
    goroutines W0
    = map (fun w => trainWorker w epochs learningRate) (newWorkers parts batchSize) /\
    length parts = Z.to_nat numWorkers /\
    concat parts ++ testData = data /\
    len (concat parts) = splitIndex.
Proof.
  intros Hstart.
  destruct (splitAndStart_Ok _ _ _ _ _ _ _ _ Hstart)
    as (first & Hfirst & Hsplit & -> & Hs).
  destruct (start_partition _ _ _ _ _ _ _ Hs) as (HW & parts & Hp & ->).
  exists parts. split; [reflexivity|].
  rewrite (partition_spec _ _ HW) in Hp. injection Hp as <-.
  split; [rewrite length_map, length_seq; reflexivity|].
  assert (Hc : concat (map (chunkAt (take (Z.to_nat splitIndex) data) numWorkers)
                           (seq 0 (Z.to_nat numWorkers)))
               = take (Z.to_nat splitIndex) data).
  { rewrite concat_chunks by lia. rewrite Z2Nat.id by lia.
    rewrite cut_last. rewrite Nat2Z.id. apply firstn_all. }
  rewrite Hc. split; [apply take_drop|].
  rewrite length_take. lia.
Qed.

End PipelineFacts.

(** * IEEE binary64 *)

(** X10 — On an empty test set [evaluate] returns [0.0 / float64(0)], a NaN, for
    every model; it does not panic. *)
Theorem evaluate_empty_nan (m : @Model float) :
  exists v, interp (evaluate []) m = Finished v m /\ PrimFloat.is_nan v = true.
Proof. eexists. split; [reflexivity|]. vm_compute. reflexivity. Qed.

(** X14 — A worker with an empty partition, as [main] creates when there are fewer
    training points than workers, runs no batch whatever its batch size: it
    leaves the weights, the bias, [Updates] and its [GradientSum] as they
    are, and records [0.0 / float64(0)], a NaN, as the error of every epoch,
    replacing what is recorded for these epochs. *)
Theorem empty_partition_records_nan (w : @Worker float) (epochs : Z)
    (learningRate : float) (m : @Model float) :
  Data w = [] ->
  MetricsMu m = false ->
  exists m',
    interp (trainWorker w epochs learningRate) m = Finished w m' /\
    Weights m' = Weights m /\ Bias m' = Bias m /\ Updates m' = Updates m /\
    (forall e, 0 <= e < epochs ->
       exists v, Metrics m' !! e = Some v /\ PrimFloat.is_nan v = true) /\
    (forall e, ~ 0 <= e < epochs -> Metrics m' !! e = Metrics m !! e).
Proof.
  intros Hd Hme.
  destruct (interp_trainWorker_empty w epochs learningRate m Hd Hme)
    as (m' & Hrun & Hw & Hbias & Hu & Hin & Hout).
  exists m'. do 4 (split; [assumption|]). split; [|exact Hout].
  intros e He. eexists. split; [apply Hin, He|]. vm_compute. reflexivity.
Qed.

(** * Witnesses and counterexamples on concrete runs *)

Module Witnesses.

Import Examples.

Lemma update_count_witness :
  Updates (model (exec seqSched fourWorld).2)
  = 1 * sumZ (map (fun part => batchCount (len part) 1) fourParts).
Proof.
  apply (update_count fourPoints 2 2 1 1 0.5%float fourParts fourWorld).
  - lia.
  - lia.
  - reflexivity.
  - reflexivity.
  - vm_compute. discriminate.
  - vm_compute. reflexivity.
Defined.

(** The example of the specification: four partitions of 25 points, batch
    size 10, two epochs: 3 batches per worker and epoch, 24 updates. *)
Example updates_of_example :
  batchCount 25 10 = 3 /\
  2 * sumZ (map (fun n => batchCount n 10) [25; 25; 25; 25]) = 24.
Proof. split; reflexivity. Qed.

Lemma partition_complete_witness :
  exists parts,
    partitionData fourPoints 2 = Ok parts /\
    length parts = Z.to_nat 2 /\
    concat parts = fourPoints /\
    cut (len fourPoints) 2 0 = 0 /\
    cut (len fourPoints) 2 2 = len fourPoints /\
    forall i : nat, Z.of_nat i < 2 ->
      let lo := cut (len fourPoints) 2 (Z.of_nat i) in
      let hi := cut (len fourPoints) 2 (Z.of_nat i + 1) in
      0 <= lo <= hi /\ hi <= len fourPoints /\
      parts !! i = Some (take (Z.to_nat (hi - lo)) (drop (Z.to_nat lo) fourPoints)).
Proof. apply (partition_complete fourPoints 2). lia. Defined.

Lemma applications_serial_witness :
  serial None (exec tornSched tornWorld).1 /\
  applications 2 None (exec tornSched tornWorld).1.
Proof.
  apply (applications_serial twoPoints 2 2 1 1 0.5%float tornWorld tornSched).
  reflexivity.
Defined.

(** A trace in which goroutine 0 releases [mu] after its first weight
    write, and goroutine 1 applies a gradient before goroutine 0 writes its
    second weight, respects the lock discipline [serial] but is not made of
    whole applications. *)
Example released_between_writes :
  let tr : list (@Event float) :=
    [(0%nat, LDo LockMu); (0%nat, LDo (WrWeight 0 1%float)); (0%nat, LDo UnlockMu);
     (1%nat, LDo LockMu); (1%nat, LDo (WrWeight 0 2%float));
     (1%nat, LDo (WrWeight 1 2%float)); (1%nat, LDo (WrBias 2%float));
     (1%nat, LDo (WrUpdates 1)); (1%nat, LDo UnlockMu);
     (0%nat, LDo LockMu); (0%nat, LDo (WrWeight 1 1%float)); (0%nat, LDo UnlockMu)] in
  serial None tr /\ ~ applications 2 None tr.
Proof.
  split.
  - cbn. repeat split; reflexivity.
  - cbn. intros (_ & i & _ & _ & _ & H & _). discriminate.
Qed.

(** C3, counterexample — two workers with one point each.  Worker 0 locks
    [mu] and writes weight 0; worker 1, in [predict], then reads weight 0 as
    written (1.5) and weight 1 as it was (0), before worker 0 writes weight 1
    (3): worker 1 observes the weight vector (1.5, 0), which is neither the
    vector before the application (0, 0) nor the one after it (1.5, 3). *)
Lemma torn_read :
  startTraining twoPoints 2 2 1 1 0.5%float = Ok tornWorld /\
  observesPartial None (exec tornSched tornWorld).1 = true /\
  take 8 (drop 8 (exec tornSched tornWorld).1)
  = [(0%nat, LDo (WrWeight 0 1.5%float));
     (1%nat, LReadZ RdLen 2);
     (1%nat, LReadF RdBias 0%float);
     (1%nat, LReadZ RdLen 2);
     (1%nat, LReadF (RdWeight 0) 1.5%float);
     (1%nat, LReadF (RdWeight 1) 0%float);
     (0%nat, LReadF (RdWeight 1) 0%float);
     (0%nat, LDo (WrWeight 1 3%float))].
Proof.
  split; [reflexivity|]. split; vm_compute; reflexivity.
Qed.

Lemma no_configuration_check_witness :
  exists parts,
    partitionData twoPoints 4 = Ok parts /\
    startTraining twoPoints 2 4 32 10 0.5%float
    = Ok (mkWorld (newModel 2)
            (map (fun w => trainWorker w 10 0.5%float) (newWorkers parts 32))
            None) /\
    length (newWorkers parts 32) = Z.to_nat 4 /\
    (len twoPoints < 4 ->
     forall i : nat, Z.of_nat i < 4 - 1 -> parts !! i = Some []) /\
    (4 <= len twoPoints ->
     forall (i : nat) part, parts !! i = Some part -> 1 <= len part).
Proof.
  apply (proj1 (no_configuration_check twoPoints 2 4 32 10 0.5%float)). lia.
Defined.

(** C4, counterexample — two data points and four workers: the trainer
    raises no error and starts four workers, three of them on an empty
    partition. *)
Lemma workers_outnumber_data :
  len twoPoints < 4 /\
  partitionData twoPoints 4 = Ok [[]; []; []; twoPoints] /\
  exists W0,
    startTraining twoPoints 2 4 32 10 0.5%float = Ok W0 /\
    length (goroutines W0) = 4%nat /\
    crashed W0 = None.
Proof.
  split; [cbn; lia|]. split; [reflexivity|].
  eexists. split; [reflexivity|]. split; reflexivity.
Qed.

Lemma partition_sizes_witness :
  len (replicate 5 (pt 1 2 3)%float)
  = if Z.of_nat 3 =? 4 - 1
    then len elevenPoints / 4 + len elevenPoints mod 4
    else len elevenPoints / 4.
Proof.
  apply (proj1 (partition_sizes elevenPoints 4 elevenParts ltac:(lia) eq_refl) 3%nat).
  reflexivity.
Defined.

(** C5, counterexample — 11 points across 4 workers give the sizes 2, 2, 2
    and 5: the last partition is 3 longer than the others. *)
Lemma sizes_differ_by_three :
  1 <= 4 <= len elevenPoints /\
  partitionData elevenPoints 4 = Ok elevenParts /\
  map (fun part => len part) elevenParts = [2; 2; 2; 5] /\
  ~ (forall (i j : nat) pi pj,
       elevenParts !! i = Some pi -> elevenParts !! j = Some pj ->
       Z.abs (len pi - len pj) <= 1).
Proof.
  split; [cbn; lia|]. split; [reflexivity|]. split; [reflexivity|].
  intros H. specialize (H 0%nat 3%nat _ _ eq_refl eq_refl). cbn in H. lia.
Qed.

Lemma trainBatch_spec_witness :
  interp (trainBatch 0.5%float twoPoints (0, [])) someModel
  = Finished (wrap64 (0 + 1), [] ++ [spec_batchError someModel twoPoints])
      (spec_applyGradient 0.5%float someModel
         (spec_weightGradient someModel twoPoints)
         (spec_biasGradient someModel twoPoints) (len twoPoints)).
Proof.
  apply (trainBatch_spec 0.5%float twoPoints 0 [] someModel).
  - reflexivity.
  - repeat constructor.
  - cbn. unfold max_int64. lia.
Defined.

Lemma predict_pure_witness :
  interp (predict [1; 2]%float) someModel
  = Finished (spec_predict someModel [1; 2]%float) someModel /\
  noWrites (predict (FO := Binary64) [1; 2]%float).
Proof. apply (predict_pure someModel [1; 2]%float). cbn. lia. Defined.

Lemma metrics_recorded_witness :
  let w := mkWorker 0 twoPoints 1 0 in
  let batches := spec_batches 1 twoPoints in
  let m' := spec_trainEpochs 0.5%float batches (Z.to_nat 2) 0 (newModel 2) in
  (exists w', interp (trainWorker w 2 0.5%float) (newModel 2) = Finished w' m') /\
  forall e : nat, Z.of_nat e < 2 ->
    Metrics m' !! Z.of_nat e
    = Some (spec_epochError
              (snd (spec_trainBatches 0.5%float batches
                      (spec_trainEpochs 0.5%float batches e 0 (newModel 2)) []))).
Proof.
  apply (proj1 metrics_recorded (mkWorker 0 twoPoints 1 0) 2 0.5%float (newModel 2)).
  - cbn. lia.
  - reflexivity.
  - reflexivity.
  - repeat constructor.
Defined.

Lemma model_invariants_witness :
  exists a W1,
    step 0 (exec (repeat 0%nat 18) fourWorld).2 = Some (a, W1) /\
    length (Weights (model W1)) = 2%nat /\
    (Updates (model W1) = Updates (model (exec (repeat 0%nat 18) fourWorld).2) \/
     (exists v, a = LDo (WrUpdates v)) /\
     Updates (model W1)
     = wrap64 (Updates (model (exec (repeat 0%nat 18) fourWorld).2) + 1)).
Proof.
  assert (Hs : is_Some (step 0 (exec (repeat 0%nat 18) fourWorld).2)).
  { apply (bool_decide_unpack _). vm_compute. reflexivity. }
  destruct Hs as [[a W1] Hs]. exists a, W1. split; [exact Hs|].
  pose proof (model_invariants fourPoints 2 2 1 1 0.5%float fourWorld W1
                (repeat 0%nat 18) 0%nat a eq_refl Hs) as H.
  cbv zeta in H. split; [apply H|apply H].
Defined.

Lemma divisors_positive_witness :
  (Forall (fun batch => 1 <= len batch) (spec_batches 1 twoPoints) /\
   1 <= len (spec_batches 1 twoPoints)) /\
  Forall (accessOkAt
            (fun t => quotients 0.5%float (spec_batches 1 (chunkAt fourPoints 2 t))))
         (exec tornSched fourWorld).1.
Proof.
  split.
  - pose proof (proj1 (proj1 divisors_positive 0.5%float twoPoints 1 0 0 ltac:(lia))
                  ltac:(discriminate)) as H.
    split; [apply H|apply H].
  - apply (proj2 divisors_positive fourPoints 2%nat 2 1 1 0.5%float fourWorld tornSched).
    + lia.
    + reflexivity.
Defined.

(** C10, counterexample — a worker with one data point, feature and label
    2^700, batch size 1, learning rate 0.5, three epochs.  Every divisor
    is [float64(1)], yet the recorded errors of epochs 0 and 1 overflow to
    +Inf and that of epoch 2 is NaN. *)
Lemma metric_not_finite :
  Data hugeWorker <> [] /\ 1 <= BatchSize hugeWorker /\
  exists w' m',
    interp (trainWorker hugeWorker 3 0.5%float) (newModel 1) = Finished w' m' /\
    Metrics m' !! 0 = Some infinity /\
    Metrics m' !! 1 = Some infinity /\
    exists v, Metrics m' !! 2 = Some v /\ PrimFloat.is_nan v = true.
Proof.
  split; [discriminate|]. split; [cbn; lia|].
  eexists _, _. split; [vm_compute; reflexivity|].
  split; [vm_compute; reflexivity|]. split; [vm_compute; reflexivity|].
  eexists. split; vm_compute; reflexivity.
Qed.

(** With an empty partition the recorded average is [0.0 / float64(0)], a NaN
    in IEEE arithmetic. *)
Lemma empty_partition_nan :
  exists w' m',
    interp (trainWorker (mkWorker 0 [] 1 0) 1 0.5%float) (newModel 1) = Finished w' m' /\
    exists v, Metrics m' !! 0 = Some v /\ PrimFloat.is_nan v = true.
Proof.
  eexists _, _. split; [vm_compute; reflexivity|].
  eexists. split; vm_compute; reflexivity.
Qed.

(** ** Runs on well-formed data *)

Lemma training_never_panics_witness : crashed (exec tornSched fourWorld).2 = None.
Proof.
  apply (training_never_panics fourPoints 2 2 1 1 0.5%float fourWorld tornSched).
  - lia.
  - repeat constructor.
  - reflexivity.
Defined.

Lemma training_never_deadlocks_witness :
  ~ deadlocked (exec (repeat 0%nat 18) fourWorld).2.
Proof.
  apply (training_never_deadlocks fourPoints 2 2 1 1 0.5%float fourWorld
           (repeat 0%nat 18)).
  - lia.
  - repeat constructor.
  - reflexivity.
Defined.

Lemma mutexes_respected_witness : exclusive None None (exec tornSched tornWorld).1.
Proof.
  apply (mutexes_respected twoPoints 2 2 1 1 0.5%float tornWorld tornSched).
  - lia.
  - repeat constructor.
  - reflexivity.
Defined.

Lemma worker_result_witness :
  exists w',
    goroutines (exec seqSched fourWorld).2 !! 0%nat = Some (Ret w') /\
    ID w' = Z.of_nat 0 /\
    Data w' = chunkAt fourPoints 2 0 /\
    BatchSize w' = 1 /\
    GradientSum w' = wrap64 (Z.max 0 1 * batchCount (len (chunkAt fourPoints 2 0)) 1).
Proof.
  eexists. split; [vm_compute; reflexivity|].
  apply (worker_result fourPoints 2 2 1 1 0.5%float fourWorld seqSched 0%nat).
  - lia.
  - reflexivity.
  - vm_compute. reflexivity.
Defined.

Lemma updates_sum_gradientSums_witness :
  exists workers,
    goroutines (exec seqSched fourWorld).2 = map Ret workers /\
    length workers = Z.to_nat 2 /\
    Updates (model (exec seqSched fourWorld).2) = wrap64 (sumZ (map GradientSum workers)).
Proof.
  apply (updates_sum_gradientSums fourPoints 2 2 1 1 0.5%float fourWorld seqSched).
  - lia.
  - reflexivity.
  - vm_compute. reflexivity.
Defined.

Lemma metrics_complete_witness :
  is_Some (Metrics (model (exec seqSched fourWorld).2) !! 0) <-> 0 <= 0 < 1.
Proof.
  apply (metrics_complete fourPoints 2 2 1 1 0.5%float fourWorld seqSched 0).
  - reflexivity.
  - vm_compute. reflexivity.
Defined.

(** ** [evaluate], feature counts and batch sizes *)

Lemma evaluate_spec_witness :
  interp (evaluate twoPoints) someModel
  = Finished (spec_batchError someModel twoPoints) someModel /\
  noWrites (evaluate (FO := Binary64) twoPoints).
Proof.
  apply (evaluate_spec someModel twoPoints).
  repeat (constructor; [cbn; lia|]). constructor.
Defined.

Lemma evaluate_short_point_witness :
  interp (evaluate [pt 1 2 3; narrowPoint]%float) someModel = Panics IndexOutOfRange.
Proof.
  apply (evaluate_short_point someModel [pt 1 2 3; narrowPoint]%float).
  right. left. cbn. lia.
Defined.

Lemma mismatched_point_panics_witness :
  interp (trainWorker (mkWorker 0 [pt 1 2 3; widePoint]%float 1 0) 1 0.5%float) someModel
  = Panics IndexOutOfRange.
Proof.
  apply (mismatched_point_panics (mkWorker 0 [pt 1 2 3; widePoint]%float 1 0) 1
           0.5%float someModel).
  - cbn. lia.
  - lia.
  - reflexivity.
  - right. left. cbn. lia.
Defined.

Lemma negative_batch_size_panics_witness :
  interp (trainWorker (mkWorker 0 twoPoints (-1) 0) 1 0.5%float) someModel
  = Panics SliceBounds.
Proof.
  apply (negative_batch_size_panics (mkWorker 0 twoPoints (-1) 0) 1 0.5%float someModel).
  - cbn. lia.
  - discriminate.
  - lia.
Defined.

Lemma zero_batch_size_diverges_witness :
  interp (trainWorker (mkWorker 0 twoPoints 0 0) 1 0.5%float) someModel = Diverges.
Proof.
  apply (zero_batch_size_diverges (mkWorker 0 twoPoints 0 0) 1 0.5%float someModel).
  - reflexivity.
  - discriminate.
  - lia.
  - reflexivity.
Defined.

Lemma empty_partition_records_nan_witness :
  exists m',
    interp (trainWorker (mkWorker 3 [] 32 0) 2 0.5%float) someModel
    = Finished (mkWorker 3 [] 32 0) m' /\
    Weights m' = Weights someModel /\ Bias m' = Bias someModel /\
    Updates m' = Updates someModel /\
    (forall e, 0 <= e < 2 ->
       exists v, Metrics m' !! e = Some v /\ PrimFloat.is_nan v = true) /\
    (forall e, ~ 0 <= e < 2 -> Metrics m' !! e = Metrics someModel !! e).
Proof.
  apply (empty_partition_records_nan (mkWorker 3 [] 32 0) 2 0.5%float someModel).
  - reflexivity.
  - reflexivity.
Defined.

(** ** Data preparation *)

Lemma normalize_spec_witness :
  normalize rawPoints = Ok (spec_normalize (length (Features (pt 1 2 3)%float)) rawPoints).
Proof.
  apply (normalize_spec rawPoints (pt 1 2 3)%float
           [pt 2 1 1; pt 1 1 2; pt 1 2 1]%float).
  - reflexivity.
  - repeat (constructor; [cbn; lia|]). constructor.
Defined.

Lemma normalize_shape_witness :
  length normalizedPoints = length rawPoints /\
  map Label normalizedPoints = map Label rawPoints /\
  exists first,
    rawPoints !! 0%nat = Some first /\
    Forall (fun dp => length (Features dp) = length (Features first)) normalizedPoints.
Proof.
  apply (normalize_shape rawPoints normalizedPoints).
  vm_compute. reflexivity.
Defined.

Lemma loadData_failure_witness :
  (loadData parseLength (Some sampleRecords) = Ok None <->
   exists header rows,
     sampleRecords = header :: rows /\
     Exists (Exists (fun s => parseLength s = None)) rows) /\
  (forall e, loadData parseLength (Some sampleRecords) = Panicked e <->
             sampleRecords = [] /\ e = SliceBounds).
Proof.
  apply (loadData_failure parseLength sampleRecords).
  repeat (constructor; [discriminate|]). constructor.
Defined.

Lemma loadData_feature_count_witness :
  length sampleRecords = S (length rawPoints) /\
  Forall (fun dp => length (Features dp) = (3 - 1)%nat) rawPoints.
Proof.
  apply (loadData_feature_count parseLength sampleRecords rawPoints 3).
  - vm_compute. reflexivity.
  - repeat (constructor; [reflexivity|]). constructor.
Defined.

Lemma loaded_data_normalizes_witness :
  (length sampleRecords = 1%nat -> normalize rawPoints = Panicked IndexOutOfRange) /\
  ((2 <= length sampleRecords)%nat ->
   exists data,
     normalize rawPoints = Ok data /\
     length sampleRecords = S (length data) /\
     map Label data = map Label rawPoints /\
     Forall (fun dp => length (Features dp) = (3 - 1)%nat) data).
Proof.
  apply (loaded_data_normalizes parseLength sampleRecords rawPoints 3).
  - vm_compute. reflexivity.
  - repeat (constructor; [reflexivity|]). constructor.
Defined.

(** The pipeline on the four normalized points, reversed by the shuffle, three
    of them for training: two workers, batch size 1, one epoch. *)
Lemma pipeline_safe_witness :
  exists W0 testData,
    splitAndStart (rev normalizedPoints) 3 2 1 1 0.5%float = Ok (W0, testData) /\
    let W := (exec seqSched W0).2 in
    crashed W = None /\
    ~ deadlocked W /\
    interp (evaluate testData) (model W)
    = Finished (spec_batchError (model W) testData) (model W).
Proof.
  eexists _, _. split; [reflexivity|].
  apply (pipeline_safe rawPoints normalizedPoints (rev normalizedPoints) 3 2 1 1
           0.5%float _ _ seqSched).
  - vm_compute. reflexivity.
  - symmetry. apply Permutation_rev.
  - reflexivity.
  - lia.
Defined.

Lemma every_point_used_witness :
  exists W0 testData parts,
    splitAndStart (rev normalizedPoints) 3 2 1 1 0.5%float = Ok (W0, testData) /\
    goroutines W0
    = map (fun w => trainWorker w 1 0.5%float) (newWorkers parts 1) /\
    length parts = Z.to_nat 2 /\
    concat parts ++ testData = rev normalizedPoints /\
    len (concat parts) = 3.
Proof.
  eexists _, _.
  assert (Hs : splitAndStart (rev normalizedPoints) 3 2 1 1 0.5%float = Ok (_, _))
    by reflexivity.
  destruct (every_point_used (rev normalizedPoints) 3 2 1 1 0.5%float _ _ Hs)
    as (parts & H).
  exists parts. split; [exact Hs|exact H].
Defined.

End Witnesses.
